(** * Stream bridge and citation markers of the assistant chat application

    A shallow embedding of the two source files of the repository:

    - [src/app/api/chat/route.ts]: the [POST] handler, whose [start] callback
      bridges the upstream chat stream to a server-sent-event sink
      (event transformer, stream bridge, error unwrapper);
    - the chat message block component: [insertCitationMarkers],
      [citationMap] and [processNodeForCitations].

    JavaScript strings are sequences of UTF-16 code units, modelled as
    [list N].  JSON values are an inductive type, [JSON.parse] is a
    recursive-descent parser over code units. *)

From Stdlib Require Import String Ascii DecimalString DecimalNat.
From Stdlib Require Import List ZArith NArith Arith Bool Lia.
From Stdlib Require Import Permutation Sorted.
Import ListNotations.


Set Warnings "-register-all".

(** ** The JavaScript values the program works on *)

Module JS.

(** *** Strings *)

Definition jsstring := list N.

(** [js "abc"] is the JavaScript string with the code units of the literal. *)
Definition js (s : string) : jsstring :=
  List.map N_of_ascii (list_ascii_of_string s).

(** Code units with a role in the syntax. *)
Definition cu_quote : N := 34.      (* the double quote *)
Definition cu_apostrophe : N := 39.
Definition cu_backslash : N := 92.
Definition cu_lbracket : N := 91.
Definition cu_rbracket : N := 93.
Definition cu_lbrace : N := 123.
Definition cu_rbrace : N := 125.
Definition cu_comma : N := 44.
Definition cu_colon : N := 58.
Definition cu_minus : N := 45.
Definition cu_plus : N := 43.
Definition cu_dot : N := 46.
Definition cu_zero : N := 48.
Definition cu_nine : N := 57.

(** [jsq] writes a literal in which every apostrophe stands for a double
    quote, so that JSON texts stay readable:
    [jsq "{'a':1}"] is the text  { quote a quote : 1 }. *)
Definition jsq (s : string) : jsstring :=
  List.map (fun c => if N.eqb c cu_apostrophe then cu_quote else c) (js s).

Fixpoint jsstring_eqb (a b : jsstring) : bool :=
  match a, b with
  | [], [] => true
  | x :: a', y :: b' => N.eqb x y && jsstring_eqb a' b'
  | _, _ => false
  end.

Definition is_digit (c : N) : bool := N.leb cu_zero c && N.leb c cu_nine.

(** Decimal rendering of a non-negative integer, as in a template literal
    [`${i}`]. *)
Definition string_of_nat (n : nat) : jsstring :=
  js (NilZero.string_of_uint (Nat.to_uint n)).

(** [String.prototype.slice] for integer arguments: negative indices count
    from the end, both ends are clamped to the string. *)
Definition slice_index (len : nat) (i : Z) : nat :=
  if (i <? 0)%Z then Z.to_nat (Z.max (Z.of_nat len + i) 0)
  else Nat.min (Z.to_nat i) len.

Definition slice (s : jsstring) (from to : Z) : jsstring :=
  let a := slice_index (length s) from in
  let b := slice_index (length s) to in
  firstn (b - a) (skipn a s).

Definition slice_from (s : jsstring) (from : Z) : jsstring :=
  skipn (slice_index (length s) from) s.

(** White space of [\s] in a regular expression and of [trim]:
    tab, line feed, vertical tab, form feed, carriage return, space,
    no-break space, the Unicode space separators, the line and paragraph
    separators and the byte order mark. *)
Definition is_js_space (c : N) : bool :=
  (N.leb 9 c && N.leb c 13) || N.eqb c 32 || N.eqb c 160 || N.eqb c 5760
  || (N.leb 8192 c && N.leb c 8202) || N.eqb c 8232 || N.eqb c 8233
  || N.eqb c 8239 || N.eqb c 8287 || N.eqb c 12288 || N.eqb c 65279.

Fixpoint trim_start (s : jsstring) : jsstring :=
  match s with
  | c :: s' => if is_js_space c then trim_start s' else s
  | [] => []
  end.

Definition trim (s : jsstring) : jsstring :=
  rev (trim_start (rev (trim_start s))).

Fixpoint strip_prefix (p s : jsstring) : option jsstring :=
  match p, s with
  | [], _ => Some s
  | x :: p', y :: s' => if N.eqb x y then strip_prefix p' s' else None
  | _ :: _, [] => None
  end.

(** *** JSON values *)

(** A number is kept as the decimal it was written as:
    (-1)^neg * mantissa * 10^exponent. *)
Record decimal := { num_neg : bool; num_mantissa : N; num_exponent : Z }.

Inductive json : Type :=
| JNull
| JBool (b : bool)
| JNum (n : decimal)
| JStr (s : jsstring)
| JArr (items : list json)
| JObj (members : list (jsstring * json)).

(** A number is the double 0 when its mantissa is 0 or when it is so small
    that it rounds to 0 (at most 2^-1075, half of the least subnormal). *)
Definition num_is_zero (n : decimal) : bool :=
  N.eqb (num_mantissa n) 0
  || ((num_exponent n <? 0)%Z
      && (Z.of_N (num_mantissa n) * 2 ^ 1075 <=? 10 ^ (- num_exponent n))%Z).

(** Truthiness of a value ([null] also stands for [undefined]). *)
Definition truthy (v : json) : bool :=
  match v with
  | JNull => false
  | JBool b => b
  | JNum n => negb (num_is_zero n)
  | JStr s => match s with [] => false | _ => true end
  | JArr _ => true
  | JObj _ => true
  end.

(** Truthiness of a possibly [undefined] value. *)
Definition truthy_opt (o : option json) : bool :=
  match o with Some v => truthy v | None => false end.

Definition is_string (v : json) : bool :=
  match v with JStr _ => true | _ => false end.

(** [typeof v === 'object'] together with [v] being truthy. *)
Definition is_object (v : json) : bool :=
  match v with JArr _ | JObj _ => true | _ => false end.

(** Property lookup in the members of an object: the last member written
    under a key is the one read. *)
Fixpoint members_get (m : list (jsstring * json)) (k : jsstring) : option json :=
  match m with
  | [] => None
  | (k', v) :: m' =>
      match members_get m' k with
      | Some w => Some w
      | None => if jsstring_eqb k' k then Some v else None
      end
  end.

(** [v.k] for the keys this program reads ([type], [message], [error] ...):
    only an object has them; [None] is [undefined]. *)
Definition get (v : json) (k : jsstring) : option json :=
  match v with
  | JObj m => members_get m k
  | _ => None
  end.

(** [v?.k] on a possibly [undefined] value. *)
Definition get_opt (o : option json) (k : jsstring) : option json :=
  match o with Some v => get v k | None => None end.

(** An object literal whose [undefined] properties are left out, as
    [JSON.stringify] leaves them out of the frame. *)
Fixpoint object_of (fields : list (jsstring * option json)) : list (jsstring * json) :=
  match fields with
  | [] => []
  | (k, Some v) :: fs => (k, v) :: object_of fs
  | (_, None) :: fs => object_of fs
  end.

(** *** JSON.parse *)

Definition is_json_ws (c : N) : bool :=
  N.eqb c 32 || N.eqb c 9 || N.eqb c 10 || N.eqb c 13.

Fixpoint skip_ws (s : jsstring) : jsstring :=
  match s with
  | c :: s' => if is_json_ws c then skip_ws s' else s
  | [] => []
  end.

Definition hex_value (c : N) : option N :=
  if N.leb 48 c && N.leb c 57 then Some (c - 48)%N
  else if N.leb 97 c && N.leb c 102 then Some (c - 87)%N
  else if N.leb 65 c && N.leb c 70 then Some (c - 55)%N
  else None.

Definition hex4 (a b c d : N) : option N :=
  match hex_value a, hex_value b, hex_value c, hex_value d with
  | Some x, Some y, Some z, Some w => Some (((x * 16 + y) * 16 + z) * 16 + w)%N
  | _, _, _, _ => None
  end.

(** The single-character escapes: quote, backslash, slash, b, f, n, r, t. *)
Definition unescape (c : N) : option N :=
  if N.eqb c 34 then Some 34%N
  else if N.eqb c 92 then Some 92%N
  else if N.eqb c 47 then Some 47%N
  else if N.eqb c 98 then Some 8%N
  else if N.eqb c 102 then Some 12%N
  else if N.eqb c 110 then Some 10%N
  else if N.eqb c 114 then Some 13%N
  else if N.eqb c 116 then Some 9%N
  else None.

Definition cons_fst {A B : Type} (a : A) (r : option (list A * B)) : option (list A * B) :=
  match r with
  | Some (l, b) => Some (a :: l, b)
  | None => None
  end.

(** The characters of a string literal after its opening quote, up to and
    including the closing quote. *)
Fixpoint parse_string_body (s : jsstring) : option (jsstring * jsstring) :=
  match s with
  | [] => None
  | c :: s' =>
      if N.eqb c cu_quote then Some ([], s')
      else if N.eqb c cu_backslash then
        match s' with
        | [] => None
        | e :: s'' =>
            if N.eqb e 117 then
              match s'' with
              | h1 :: h2 :: h3 :: h4 :: s3 =>
                  match hex4 h1 h2 h3 h4 with
                  | Some u => cons_fst u (parse_string_body s3)
                  | None => None
                  end
              | _ => None
              end
            else
              match unescape e with
              | Some u => cons_fst u (parse_string_body s'')
              | None => None
              end
        end
      else if N.ltb c 32 then None
      else cons_fst c (parse_string_body s')
  end.

(** A maximal run of decimal digits: its value, its length and the rest. *)
Fixpoint take_digits (acc : N) (count : nat) (s : jsstring) : N * nat * jsstring :=
  match s with
  | c :: s' =>
      if is_digit c then take_digits (acc * 10 + (c - cu_zero))%N (S count) s'
      else (acc, count, s)
  | [] => (acc, count, [])
  end.

(** The integer part: a single 0, or a non-zero digit and more digits. *)
Definition parse_int_part (s : jsstring) : option (N * jsstring) :=
  match s with
  | c :: s' =>
      if N.eqb c cu_zero then Some (0%N, s')
      else if is_digit c then
        let '(v, _, r) := take_digits (c - cu_zero)%N 1 s' in Some (v, r)
      else None
  | [] => None
  end.

(** The optional fraction: mantissa extended by the digits, and their count. *)
Definition parse_frac_part (mant : N) (s : jsstring) : option (N * nat * jsstring) :=
  match s with
  | c :: s' =>
      if N.eqb c cu_dot then
        let '(v, n, r) := take_digits mant 0 s' in
        match n with
        | O => None
        | S _ => Some (v, n, r)
        end
      else Some (mant, 0, s)
  | [] => Some (mant, 0, [])
  end.

(** The optional exponent. *)
Definition parse_exp_part (s : jsstring) : option (Z * jsstring) :=
  match s with
  | c :: s' =>
      if N.eqb c 101 || N.eqb c 69 then
        let '(neg, s1) :=
          match s' with
          | d :: s'' =>
              if N.eqb d cu_minus then (true, s'')
              else if N.eqb d cu_plus then (false, s'')
              else (false, s')
          | [] => (false, s')
          end in
        let '(v, n, r) := take_digits 0 0 s1 in
        match n with
        | O => None
        | S _ => Some (if neg then (- Z.of_N v)%Z else Z.of_N v, r)
        end
      else Some (0%Z, s)
  | [] => Some (0%Z, [])
  end.

Definition parse_number (s : jsstring) : option (decimal * jsstring) :=
  let '(neg, s1) :=
    match s with
    | c :: s' => if N.eqb c cu_minus then (true, s') else (false, s)
    | [] => (false, s)
    end in
  match parse_int_part s1 with
  | None => None
  | Some (i, s2) =>
      match parse_frac_part i s2 with
      | None => None
      | Some (m, nfrac, s3) =>
          match parse_exp_part s3 with
          | None => None
          | Some (e, s4) =>
              Some ({| num_neg := neg; num_mantissa := m;
                       num_exponent := (e - Z.of_nat nfrac)%Z |}, s4)
          end
      end
  end.

(** Writing a member of an object being parsed: a repeated key takes the
    new value at its first place. *)
Fixpoint members_set (m : list (jsstring * json)) (k : jsstring) (v : json)
  : list (jsstring * json) :=
  match m with
  | [] => [(k, v)]
  | (k', v') :: m' =>
      if jsstring_eqb k' k then (k', v) :: m' else (k', v') :: members_set m' k v
  end.

(** The value parser.  [fuel] bounds the depth of the recursion; the entry
    point [JSON_parse] supplies more than any text can use. *)
Fixpoint parse_value (fuel : nat) (s : jsstring) {struct fuel}
  : option (json * jsstring) :=
  match fuel with
  | O => None
  | S f =>
      match skip_ws s with
      | [] => None
      | c :: s' =>
          if N.eqb c cu_quote then
            match parse_string_body s' with
            | Some (str, r) => Some (JStr str, r)
            | None => None
            end
          else if N.eqb c cu_lbracket then
            match skip_ws s' with
            | d :: r =>
                if N.eqb d cu_rbracket then Some (JArr [], r)
                else
                  match parse_elements f s' with
                  | Some (l, r') => Some (JArr l, r')
                  | None => None
                  end
            | [] => None
            end
          else if N.eqb c cu_lbrace then
            match skip_ws s' with
            | d :: r =>
                if N.eqb d cu_rbrace then Some (JObj [], r)
                else
                  match parse_members f [] s' with
                  | Some (m, r') => Some (JObj m, r')
                  | None => None
                  end
            | [] => None
            end
          else if N.eqb c cu_minus || is_digit c then
            match parse_number (c :: s') with
            | Some (n, r) => Some (JNum n, r)
            | None => None
            end
          else
            match strip_prefix (js "true") (c :: s') with
            | Some r => Some (JBool true, r)
            | None =>
                match strip_prefix (js "false") (c :: s') with
                | Some r => Some (JBool false, r)
                | None =>
                    match strip_prefix (js "null") (c :: s') with
                    | Some r => Some (JNull, r)
                    | None => None
                    end
                end
            end
      end
  end

(** The elements of a non-empty array, up to and including the bracket. *)
with parse_elements (fuel : nat) (s : jsstring) {struct fuel}
  : option (list json * jsstring) :=
  match fuel with
  | O => None
  | S f =>
      match parse_value f s with
      | None => None
      | Some (v, r) =>
          match skip_ws r with
          | c :: r' =>
              if N.eqb c cu_comma then cons_fst v (parse_elements f r')
              else if N.eqb c cu_rbracket then Some ([v], r')
              else None
          | [] => None
          end
      end
  end

(** The members of a non-empty object, up to and including the brace;
    [acc] holds the members read so far. *)
with parse_members (fuel : nat) (acc : list (jsstring * json)) (s : jsstring)
  {struct fuel} : option (list (jsstring * json) * jsstring) :=
  match fuel with
  | O => None
  | S f =>
      match skip_ws s with
      | q :: s1 =>
          if N.eqb q cu_quote then
            match parse_string_body s1 with
            | None => None
            | Some (k, s2) =>
                match skip_ws s2 with
                | c :: s3 =>
                    if N.eqb c cu_colon then
                      match parse_value f s3 with
                      | None => None
                      | Some (v, r) =>
                          match skip_ws r with
                          | d :: r' =>
                              if N.eqb d cu_comma then
                                parse_members f (members_set acc k v) r'
                              else if N.eqb d cu_rbrace then
                                Some (members_set acc k v, r')
                              else None
                          | [] => None
                          end
                      end
                    else None
                | [] => None
                end
            end
          else None
      | [] => None
      end
  end.

(** [JSON.parse text]: one value surrounded by white space; [None] stands
    for the SyntaxError it throws. *)
Definition JSON_parse (text : jsstring) : option json :=
  match parse_value (2 * length text + 1) text with
  | Some (v, r) => match skip_ws r with [] => Some v | _ => None end
  | None => None
  end.

(** A size of a value that no text shorter than it can denote: it bounds
    how far the error unwrapper can descend. *)
Fixpoint jsize (v : json) : nat :=
  match v with
  | JNull | JBool _ | JNum _ => 1
  | JStr s => 2 + length s
  | JArr l =>
      2 + (fix items_size (l : list json) : nat :=
             match l with
             | [] => 0
             | x :: l' => jsize x + items_size l'
             end) l
  | JObj m =>
      2 + (fix members_size (m : list (jsstring * json)) : nat :=
             match m with
             | [] => 0
             | (_, x) :: m' => S (jsize x) + members_size m'
             end) m
  end.

End JS.
Import JS.

(** ** The chat route: [src/app/api/chat/route.ts] *)

Module Route.

(** *** The sink, the console and the control flow of [start] *)

(** A thrown value is a JavaScript value.  The errors of the platform are
    objects with the properties this code reads: [code] and [message]. *)
Definition exn := json.

(** The TypeError of [controller.enqueue] and [controller.close] on a
    controller that is closed. *)
Definition invalid_state_error : exn :=
  JObj [(js "code", JStr (js "ERR_INVALID_STATE"));
        (js "message", JStr (js "Invalid state: Controller is already closed"))].

(** The SyntaxError of [JSON.parse] (the wording of its message is the
    engine's; it is only ever logged). *)
Definition syntax_error : exn :=
  JObj [(js "name", JStr (js "SyntaxError"));
        (js "message", JStr (js "Unexpected token in JSON"))].

(** [e.code !== 'ERR_INVALID_STATE'] *)
Definition code_is_not_invalid_state (e : exn) : bool :=
  match get e (js "code") with
  | Some (JStr c) => negb (jsstring_eqb c (js "ERR_INVALID_STATE"))
  | _ => true
  end.

Inductive log_entry : Type :=
| ErrorProcessingChunk (error : exn) (response : json)
| StreamError (error : exn)
| ErrorSendingErrorEvent (e : exn)
| ErrorClosingController (closeError : exn).

(** The state [start] works on: the controller of the outbound stream
    ([closed], the frames enqueued, the calls of [close] that succeeded),
    the local variable [streamEnded], the console, and the number of
    upstream items taken so far.  A frame [data: <json>] followed by an
    empty line is recorded as the value [<json>]. *)
Record state : Type := {
  closed : bool;
  frames : list json;
  closes : nat;
  streamEnded : bool;
  console : list log_entry;
  pulled : nat
}.

Definition initial_state : state :=
  {| closed := false; frames := []; closes := 0; streamEnded := false;
     console := []; pulled := 0 |}.

(** How a statement completes. *)
Inductive completion (A : Type) : Type :=
| Normal (a : A)
| Throw (e : exn)
| Break
| Continue
| Return.
Arguments Normal {A} a.
Arguments Throw {A} e.
Arguments Break {A}.
Arguments Continue {A}.
Arguments Return {A}.

Definition M (A : Type) : Type := state -> completion A * state.

Definition ret {A : Type} (a : A) : M A := fun st => (Normal a, st).

Definition bind {A B : Type} (m : M A) (k : A -> M B) : M B :=
  fun st =>
    match m st with
    | (Normal a, st') => k a st'
    | (Throw e, st') => (Throw e, st')
    | (Break, st') => (Break, st')
    | (Continue, st') => (Continue, st')
    | (Return, st') => (Return, st')
    end.

Notation "x <- m ;; k" := (bind m (fun x => k))
  (at level 61, m at next level, right associativity).
Notation "m ;; k" := (bind m (fun _ => k))
  (at level 61, right associativity).

Definition throw {A : Type} (e : exn) : M A := fun st => (Throw e, st).
Definition break_ {A : Type} : M A := fun st => (Break, st).
Definition continue_ {A : Type} : M A := fun st => (Continue, st).
Definition return_ {A : Type} : M A := fun st => (Return, st).

(** [try { m } catch (e) { h e }]: only a throw is caught. *)
Definition try_catch {A : Type} (m : M A) (h : exn -> M A) : M A :=
  fun st =>
    match m st with
    | (Throw e, st') => h e st'
    | r => r
    end.

(** [controller.enqueue(frame)] *)
Definition enqueue (frame : json) : M unit :=
  fun st =>
    if closed st then (Throw invalid_state_error, st)
    else (Normal tt,
          {| closed := false; frames := frames st ++ [frame];
             closes := closes st; streamEnded := streamEnded st;
             console := console st; pulled := pulled st |}).

(** [controller.close()] *)
Definition close : M unit :=
  fun st =>
    if closed st then (Throw invalid_state_error, st)
    else (Normal tt,
          {| closed := true; frames := frames st;
             closes := S (closes st); streamEnded := streamEnded st;
             console := console st; pulled := pulled st |}).

(** The consumer cancels the stream: the controller is closed from then on. *)
Definition hangup : M unit :=
  fun st =>
    (Normal tt,
     {| closed := true; frames := frames st; closes := closes st;
        streamEnded := streamEnded st; console := console st;
        pulled := pulled st |}).

Definition console_error (l : log_entry) : M unit :=
  fun st =>
    (Normal tt,
     {| closed := closed st; frames := frames st; closes := closes st;
        streamEnded := streamEnded st; console := console st ++ [l];
        pulled := pulled st |}).

Definition set_streamEnded : M unit :=
  fun st =>
    (Normal tt,
     {| closed := closed st; frames := frames st; closes := closes st;
        streamEnded := true; console := console st; pulled := pulled st |}).

Definition get_streamEnded : M bool := fun st => (Normal (streamEnded st), st).

Definition pull : M unit :=
  fun st =>
    (Normal tt,
     {| closed := closed st; frames := frames st; closes := closes st;
        streamEnded := streamEnded st; console := console st;
        pulled := S (pulled st) |}).

(** *** The upstream stream *)

(** What happens while [start] awaits: the stream of the SDK yields the next
    response, or the consumer hangs up.  The stream then ends or raises. *)
Inductive step : Type :=
| Yield (response : json)
| Hangup.

Inductive ending : Type :=
| Exhausted
| Raises (error : json).

(** [for await (const response of chatStream) body] *)
Fixpoint for_await (steps : list step) (fin : ending) (body : json -> M unit)
  : M unit :=
  match steps with
  | [] =>
      match fin with
      | Exhausted => ret tt
      | Raises error => throw error
      end
  | Hangup :: rest => hangup ;; for_await rest fin body
  | Yield response :: rest =>
      fun st =>
        match (pull ;; body response) st with
        | (Normal _, st') => for_await rest fin body st'
        | (Continue, st') => for_await rest fin body st'
        | (Break, st') => (Normal tt, st')
        | (Throw e, st') => (Throw e, st')
        | (Return, st') => (Return, st')
        end
  end.

(** *** The event transformer *)

(** [responseValue.replace(/^data:\s*/, '')] *)
Definition strip_data_label (s : jsstring) : jsstring :=
  match strip_prefix (js "data:") s with
  | Some r => trim_start r
  | None => s
  end.

(** Lines 45-51: a string is parsed, an object is taken as it is. *)
Definition decode (responseValue : json) : M json :=
  match responseValue with
  | JStr s =>
      match JSON_parse (trim (strip_data_label s)) with
      | Some data => ret data
      | None => throw syntax_error
      end
  | _ => ret responseValue
  end.

(** [data.type === t] *)
Definition type_is (data : json) (t : string) : bool :=
  match get data (js "type") with
  | Some (JStr s) => jsstring_eqb s (js t)
  | _ => false
  end.

(** [a || b] on possibly [undefined] values. *)
Definition or_else (a b : option json) : option json :=
  if truthy_opt a then a else b.

(** Lines 57-89: the [switch (data.type)]. *)
Definition transform (data : json) : M json :=
  if type_is data "message_start" then
    ret (JObj (object_of
      [(js "type", Some (JStr (js "message_start")));
       (js "id", get data (js "id"));
       (js "model", get data (js "model"));
       (js "role", get data (js "role"))]))
  else if type_is data "content_chunk" then
    ret (JObj (object_of
      [(js "type", Some (JStr (js "content_chunk")));
       (js "delta", Some (JObj (object_of
          [(js "content",
            or_else (get_opt (get data (js "delta")) (js "content"))
              (or_else (get data (js "content")) (Some (JStr []))))])))]))
  else if type_is data "citation" then
    ret (JObj (object_of
      [(js "type", Some (JStr (js "citation")));
       (js "citation", get data (js "citation"))]))
  else if type_is data "message_end" then
    set_streamEnded ;;
    ret (JObj (object_of
      [(js "type", Some (JStr (js "message_end")));
       (js "finish_reason", get data (js "finish_reason"));
       (js "usage", get data (js "usage"))]))
  else ret data.

(** *** The error unwrapper (lines 137-179) *)

(** [v?.error?.message] *)
Definition error_message_of (v : json) : option json :=
  get_opt (get v (js "error")) (js "message").

(** The [while (parsed && typeof parsed === 'object')] loop.  [errorMessage]
    is the variable the loop assigns; the result is its value when the loop
    is left, [None] when [fuel] iterations were not enough. *)
Fixpoint unwrap_loop (fuel : nat) (parsed error_message errorMessage : json)
  : option json :=
  match fuel with
  | O => None
  | S f =>
      if truthy parsed && is_object parsed then
        let otherwise :=
          match get parsed (js "message") with
          | Some m =>
              if truthy m then Some m
              else
                match get parsed (js "error") with
                | Some (JStr e) => Some (JStr e)
                | _ => Some error_message
                end
          | None =>
              match get parsed (js "error") with
              | Some (JStr e) => Some (JStr e)
              | _ => Some error_message
              end
          end in
        match error_message_of parsed with
        | Some m =>
            if truthy m then
              match (match m with
                     | JStr text => JSON_parse text
                     | _ => Some m
                     end) with
              | Some innerParsed =>
                  if truthy_opt (error_message_of innerParsed)
                  then unwrap_loop f innerParsed error_message errorMessage
                  else Some m
              | None => Some m
              end
            else otherwise
        | None => otherwise
        end
      else Some errorMessage
  end.

Definition an_error_occurred : json := JStr (js "An error occurred").

(** [errorMessage === 'An error occurred'] *)
Definition is_an_error_occurred (v : json) : bool :=
  match v with
  | JStr s => jsstring_eqb s (js "An error occurred")
  | _ => false
  end.

(** The message of the error event, from the value that was raised. *)
Definition extractErrorMessage (error : exn) : json :=
  match get error (js "message") with
  | Some error_message =>
      if truthy error_message then
        match (match error_message with
               | JStr text => JSON_parse text
               | _ => Some error_message
               end) with
        | Some parsed =>
            match unwrap_loop (S (jsize parsed)) parsed error_message
                    an_error_occurred with
            | Some errorMessage =>
                if is_an_error_occurred errorMessage then error_message
                else errorMessage
            | None => an_error_occurred
            end
        | None => error_message
        end
      else an_error_occurred
  | None => an_error_occurred
  end.

(** *** The stream bridge (lines 30-203) *)

Definition error_frame (errorMessage : json) : json :=
  JObj (object_of [(js "type", Some (JStr (js "error")));
                   (js "message", Some errorMessage)]).

(** The body of the loop, lines 41-120. *)
Definition process_response (response : json) : M unit :=
  if truthy response then
    try_catch
      (data <- decode response ;;
       if negb (truthy data) then continue_
       else
         transformedData <- transform data ;;
         try_catch (enqueue transformedData)
           (fun enqueueError =>
              ended <- get_streamEnded ;;
              if code_is_not_invalid_state enqueueError || negb ended
              then throw enqueueError
              else break_) ;;
         ended <- get_streamEnded ;;
         if ended then
           try_catch close
             (fun closeError =>
                if code_is_not_invalid_state closeError
                then throw closeError
                else ret tt) ;;
           return_
         else ret tt)
      (fun error => console_error (ErrorProcessingChunk error response))
  else ret tt.

Record upstream : Type := { steps : list step; fin : ending }.

(** The [start] callback of the stream. *)
Definition start (chatStream : upstream) : M unit :=
  try_catch
    (for_await (steps chatStream) (fin chatStream) process_response ;;
     ended <- get_streamEnded ;;
     if negb ended then
       try_catch close
         (fun closeError =>
            if code_is_not_invalid_state closeError
            then throw closeError
            else ret tt)
     else ret tt)
    (fun error =>
       console_error (StreamError error) ;;
       try_catch (enqueue (error_frame (extractErrorMessage error)))
         (fun e =>
            if code_is_not_invalid_state e
            then console_error (ErrorSendingErrorEvent e)
            else ret tt) ;;
       try_catch close
         (fun closeError =>
            if code_is_not_invalid_state closeError
            then console_error (ErrorClosingController closeError)
            else ret tt)).

(** The promise [start] returns: fulfilled, or rejected with what escaped. *)
Inductive outcome : Type :=
| Fulfilled
| Rejected (e : exn).

Definition bridge (chatStream : upstream) : outcome * state :=
  match start chatStream initial_state with
  | (Throw e, st) => (Rejected e, st)
  | (_, st) => (Fulfilled, st)
  end.

End Route.
Import Route.

(** ** The chat message block: citation markers *)

Module ChatMessageBlock.

(** Modelled from the spec: the citation types of [@/lib/types], a module
    the component imports and that is not among the sources.  A citation is
    an integer character offset into the content and a list of
    references. *)
Record file_ref : Type := {
  file_id : jsstring;
  file_name : jsstring;
  signed_url : option jsstring
}.

Record reference : Type := {
  ref_file : file_ref;
  pages : list N;
  highlight : option jsstring
}.

Record citation : Type := {
  position : Z;
  references : list reference
}.

(** [Array.prototype.sort(compareFn)]: the sort is stable, an element moves
    before another only when [compareFn] orders it strictly before.  The
    algorithm is the engine's; for the comparison by position the result of
    a stable sort is determined ([array_sort_unique] below). *)
Fixpoint sort_insert {A : Type} (compareFn : A -> A -> Z) (a : A) (l : list A)
  : list A :=
  match l with
  | [] => [a]
  | b :: l' =>
      if (compareFn a b <=? 0)%Z then a :: b :: l'
      else b :: sort_insert compareFn a l'
  end.

Fixpoint array_sort {A : Type} (compareFn : A -> A -> Z) (l : list A) : list A :=
  match l with
  | [] => []
  | a :: l' => sort_insert compareFn a (array_sort compareFn l')
  end.

(** The citation indexer, written twice in the source (lines 240-242 and
    277-279): the citations with a position inside the content, sorted by
    position. *)
Definition position_is_valid (content : jsstring) (c : citation) : bool :=
  (position c >=? 0)%Z && (position c <=? Z.of_nat (length content))%Z.

Definition by_position (a b : citation) : Z := (position a - position b)%Z.

(** [`[CITATION_${i}]`] *)
Definition marker (i : nat) : jsstring :=
  js "[CITATION_" ++ string_of_nat i ++ js "]".

(** The loop of lines 252-257, entered with [k = i + 1]. *)
Fixpoint insert_loop (validCitations : list citation) (k : nat)
  (result : jsstring) : jsstring :=
  match k with
  | O => result
  | S i =>
      match nth_error validCitations i with
      | Some c =>
          insert_loop validCitations i
            (slice result 0 (position c) ++ marker i
               ++ slice_from result (position c))
      | None => result
      end
  end.

(** [insertCitationMarkers(content, citations)]; a missing [citations] is
    the empty list. *)
Definition insertCitationMarkers (content : jsstring)
  (citations : list citation) : jsstring :=
  match citations with
  | [] => content
  | _ =>
      let validCitations :=
        array_sort by_position
          (filter (position_is_valid content) citations) in
      match validCitations with
      | [] => content
      | _ => insert_loop validCitations (length validCitations) content
      end
  end.

(** A [Map] with string keys: [set] overwrites the entry of a key it has. *)
Fixpoint Map_set {V : Type} (m : list (jsstring * V)) (k : jsstring) (v : V)
  : list (jsstring * V) :=
  match m with
  | [] => [(k, v)]
  | (k', v') :: m' =>
      if jsstring_eqb k' k then (k', v) :: m' else (k', v') :: Map_set m' k v
  end.

Fixpoint Map_get {V : Type} (m : list (jsstring * V)) (k : jsstring) : option V :=
  match m with
  | [] => None
  | (k', v) :: m' => if jsstring_eqb k' k then Some v else Map_get m' k
  end.

Record citation_data : Type := {
  number : nat;
  data_citation : citation
}.

(** [validCitations.forEach((citation, idx) => map.set(...))], from [idx]. *)
Fixpoint forEach_set (validCitations : list citation) (idx : nat)
  (map : list (jsstring * citation_data)) : list (jsstring * citation_data) :=
  match validCitations with
  | [] => map
  | c :: rest =>
      forEach_set rest (S idx)
        (Map_set map (js "CITATION_" ++ string_of_nat idx)
           {| number := idx + 1; data_citation := c |})
  end.

(** The [citationMap] of [ChatMessageBlock] (lines 273-284). *)
Definition citationMap (content : jsstring) (citations : list citation)
  : list (jsstring * citation_data) :=
  match citations with
  | [] => []
  | _ =>
      let validCitations :=
        array_sort by_position
          (filter (position_is_valid content) citations) in
      forEach_set validCitations 0 []
  end.

(** The nodes [processNodeForCitations] sees and builds: a string, an
    element with its children (already a flat list, as [React.Children.map]
    presents them), an array, a fragment (an element whose children are its
    parts), an [InlineCitation] element (no children), anything else.  The
    [key] of an element only guides reconciliation and is not recorded. *)
Inductive node : Type :=
| NString (s : jsstring)
| NElement (tag : jsstring) (children : list node)
| NArray (items : list node)
| NFragment (parts : list node)
| NInlineCitation (citationNumber : nat) (c : citation)
| NOther.

(** A maximal run of digits at the head of a string. *)
Fixpoint span_digits (s : jsstring) : jsstring * jsstring :=
  match s with
  | c :: s' =>
      if is_digit c then let '(d, r) := span_digits s' in (c :: d, r)
      else ([], s)
  | [] => ([], [])
  end.

(** The regular expression [\[CITATION_(\d+)\]] matched at the head of a
    string: the digits of group 1 and the text after the match. *)
Definition match_marker (s : jsstring) : option (jsstring * jsstring) :=
  match strip_prefix (js "[CITATION_") s with
  | Some r =>
      match span_digits r with
      | ([], _) => None
      | (d, c :: r') => if N.eqb c cu_rbracket then Some (d, r') else None
      | (_, []) => None
      end
  | None => None
  end.

(** [regex.exec(node)] on [rest = node.slice(regex.lastIndex)]: the leftmost
    match, as the text before it ([node.slice(lastIndex, match.index)]),
    group 1, and the text after it ([node.slice] of the new [lastIndex]). *)
Fixpoint regex_exec (rest : jsstring) : option (jsstring * jsstring * jsstring) :=
  match match_marker rest with
  | Some (d, after) => Some ([], d, after)
  | None =>
      match rest with
      | [] => None
      | c :: rest' =>
          match regex_exec rest' with
          | Some (before, d, after) => Some (c :: before, d, after)
          | None => None
          end
      end
  end.

(** The [while] loop of lines 298-321 and the push of lines 324-326; [rest]
    is the part of the node from [lastIndex] on.  [fuel] bounds the number
    of matches. *)
Fixpoint scan_parts (fuel : nat) (citationMap : list (jsstring * citation_data))
  (rest : jsstring) : list node :=
  match fuel with
  | O => []
  | S f =>
      match regex_exec rest with
      | Some (before, d, after) =>
          (match before with [] => [] | _ => [NString before] end)
          ++ (match Map_get citationMap (js "CITATION_" ++ d) with
              | Some citationData =>
                  NInlineCitation (number citationData)
                    (data_citation citationData)
              | None => NString (js "[CITATION_" ++ d ++ js "]")
              end)
          :: scan_parts f citationMap after
      | None =>
          match rest with [] => [] | _ => [NString rest] end
      end
  end.

(** [processNodeForCitations(node)] *)
Fixpoint processNodeForCitations (citationMap : list (jsstring * citation_data))
  (n : node) : node :=
  match n with
  | NString s =>
      let parts := scan_parts (S (length s)) citationMap s in
      if 1 <? length parts then NFragment parts else NString s
  | NElement tag children =>
      NElement tag (List.map (processNodeForCitations citationMap) children)
  | NFragment parts =>
      NFragment (List.map (processNodeForCitations citationMap) parts)
  | NArray items =>
      NArray (List.map
                (fun item => NFragment [processNodeForCitations citationMap item])
                items)
  | other => other
  end.

End ChatMessageBlock.
Import ChatMessageBlock.

(** ** Notions the properties are stated with *)

(** An error object as the SDK raises it: [new Error(message)]. *)
Definition error_with_message (message : jsstring) : exn :=
  JObj [(js "message", JStr message)].

(** The frame of a content chunk. *)
Definition content_chunk_frame (c : json) : json :=
  JObj [(js "type", JStr (js "content_chunk"));
        (js "delta", JObj [(js "content", c)])].

(** The content of a chunk read by presence of the fields: [delta.content]
    when the field is there, else [content] when it is there, else the
    empty string. *)
Definition content_by_presence (data : json) : json :=
  match get_opt (get data (js "delta")) (js "content") with
  | Some c => c
  | None =>
      match get data (js "content") with
      | Some c => c
      | None => JStr []
      end
  end.

(** The content of a chunk read by truthiness of the fields, as [||] does. *)
Definition content_by_truthiness (data : json) : json :=
  match get_opt (get data (js "delta")) (js "content") with
  | Some c =>
      if truthy c then c
      else
        match get data (js "content") with
        | Some c' => if truthy c' then c' else JStr []
        | None => JStr []
        end
  | None =>
      match get data (js "content") with
      | Some c' => if truthy c' then c' else JStr []
      | None => JStr []
      end
  end.

(** The sizes of the items of an array and of the members of an object. *)
Fixpoint items_size (l : list json) : nat :=
  match l with
  | [] => 0
  | x :: l' => jsize x + items_size l'
  end.

Fixpoint members_size (m : list (jsstring * json)) : nat :=
  match m with
  | [] => 0
  | (_, x) :: m' => S (jsize x) + members_size m'
  end.

(** A message that is not again an envelope: it does not parse, or what it
    parses to (or is) has no truthy [error.message]. *)
Definition not_an_envelope (m : json) : Prop :=
  match m with
  | JStr t =>
      match JSON_parse t with
      | Some q => truthy_opt (error_message_of q) = false
      | None => True
      end
  | _ => truthy_opt (error_message_of m) = false
  end.

(** [nested_envelope n text m]: [text] is an envelope nested [n] levels deep
    around the message [m]: it parses to an object whose [error.message] is
    a text nested [n - 1] levels deep, down to [m]. *)
Inductive nested_envelope : nat -> jsstring -> json -> Prop :=
| nested_one (text : jsstring) (p m : json) :
    JSON_parse text = Some p ->
    error_message_of p = Some m ->
    truthy m = true ->
    not_an_envelope m ->
    nested_envelope 1 text m
| nested_next (n : nat) (text inner : jsstring) (p m : json) :
    JSON_parse text = Some p ->
    error_message_of p = Some (JStr inner) ->
    nested_envelope n inner m ->
    nested_envelope (S n) text m.

(** The [error.message] found at the k-th level of unwrapping. *)
Fixpoint message_at_level (k : nat) (text : jsstring) : option json :=
  match k with
  | O => None
  | S k' =>
      match JSON_parse text with
      | Some p =>
          match k', error_message_of p with
          | O, m => m
          | S _, Some (JStr inner) => message_at_level k' inner
          | S _, _ => None
          end
      | None => None
      end
  end.

(** An envelope three levels deep. *)
Definition three_levels : jsstring :=
  jsq "{'error':{'message':'{\'error\':{\'message\':\'{\\\'error\\\':{\\\'message\\\':\\\'deepest\\\'}}\'}}'}}".

(** *** The bridge *)

(** The data of a response that reaches the [switch]: the response is
    truthy, it parses when it is a string, and what it denotes is truthy. *)
Definition decoded (response : json) : option json :=
  if truthy response then
    match response with
    | JStr s =>
        match JSON_parse (trim (strip_data_label s)) with
        | Some data => if truthy data then Some data else None
        | None => None
        end
    | _ => Some response
    end
  else None.

(** The table of the event transformer. *)
Definition transformed (data : json) : json :=
  if type_is data "message_start" then
    JObj (object_of
      [(js "type", Some (JStr (js "message_start")));
       (js "id", get data (js "id"));
       (js "model", get data (js "model"));
       (js "role", get data (js "role"))])
  else if type_is data "content_chunk" then
    content_chunk_frame (content_by_truthiness data)
  else if type_is data "citation" then
    JObj (object_of
      [(js "type", Some (JStr (js "citation")));
       (js "citation", get data (js "citation"))])
  else if type_is data "message_end" then
    JObj (object_of
      [(js "type", Some (JStr (js "message_end")));
       (js "finish_reason", get data (js "finish_reason"));
       (js "usage", get data (js "usage"))])
  else data.

(** An upstream item that is a [message_end] event. *)
Definition is_message_end (response : json) : bool :=
  match decoded response with
  | Some data => type_is data "message_end"
  | None => false
  end.

(** An upstream item that is an event of the type [error], a type the
    transformer does not know. *)
Definition is_error_event (response : json) : bool :=
  match decoded response with
  | Some data => type_is data "error"
  | None => false
  end.

(** The frames of the items that are forwarded. *)
Definition forwarded_item (response : json) : list json :=
  match decoded response with
  | Some data => [transformed data]
  | None => []
  end.

Fixpoint forwarded (steps : list step) : list json :=
  match steps with
  | [] => []
  | Yield response :: rest => forwarded_item response ++ forwarded rest
  | Hangup :: rest => forwarded rest
  end.

Definition is_yield_of (p : json -> bool) (s : step) : bool :=
  match s with
  | Yield response => p response
  | Hangup => false
  end.

Definition is_hangup (s : step) : bool :=
  match s with
  | Hangup => true
  | Yield _ => false
  end.

(** The consumer does not hang up during these steps. *)
Definition no_hangup (steps : list step) : Prop :=
  existsb is_hangup steps = false.

Definition no_message_end (steps : list step) : Prop :=
  existsb (is_yield_of is_message_end) steps = false.

Definition no_error_event (steps : list step) : Prop :=
  existsb (is_yield_of is_error_event) steps = false.

(** A terminal frame: a frame of the type [message_end] or [error]. *)
Definition is_terminal_frame (frame : json) : bool :=
  type_is frame "message_end" || type_is frame "error".

Definition terminal_frames (fs : list json) : nat :=
  length (filter is_terminal_frame fs).

(** The state after a statement. *)
Definition after {A : Type} (m : M A) (st : state) : state := snd (m st).

(** Events used in the examples. *)
Definition chunk_event (text : string) : json :=
  JObj [(js "type", JStr (js "content_chunk"));
        (js "delta", JObj [(js "content", JStr (js text))])].

Definition message_end_event : json :=
  JObj [(js "type", JStr (js "message_end"));
        (js "finish_reason", JStr (js "stop"))].

Definition error_typed_event : json :=
  JObj [(js "type", JStr (js "error")); (js "message", JStr (js "x"))].

(** How a state relates to an earlier one: a closed sink stays closed and
    is not closed again; an open sink is closed by at most one call. *)
Definition sink_evolves (st st' : state) : Prop :=
  (closed st = true -> closed st' = true /\ closes st' = closes st)
  /\ (closed st = false ->
      (closed st' = false /\ closes st' = closes st)
      \/ (closed st' = true /\ closes st' <= S (closes st))).

(** The number of items the upstream stream yields. *)
Definition yields (steps : list step) : nat :=
  length (filter (fun s => negb (is_hangup s)) steps).

Definition is_stream_error (l : log_entry) : bool :=
  match l with
  | StreamError _ => true
  | _ => false
  end.

(** *** Citations *)

(** The citation indexer: the valid citations in the order of their
    positions, numbered from 0. *)
Definition validCitations (content : jsstring) (citations : list citation)
  : list citation :=
  array_sort by_position (filter (position_is_valid content) citations).

Fixpoint enumerate_from {A : Type} (i : nat) (l : list A) : list (nat * A) :=
  match l with
  | [] => []
  | a :: l' => (i, a) :: enumerate_from (S i) l'
  end.

Definition indexCitations (content : jsstring) (citations : list citation)
  : list (nat * citation) :=
  enumerate_from 0 (validCitations content citations).

(** The key of a marker index in the citation map, and its entry. *)
Definition marker_key (i : nat) : jsstring := js "CITATION_" ++ string_of_nat i.

Definition map_entry (ic : nat * citation) : jsstring * citation_data :=
  (marker_key (fst ic), {| number := fst ic + 1; data_citation := snd ic |}).

Definition ascending (a b : citation) : Prop := (position a <= position b)%Z.

Definition at_position (p : Z) (c : citation) : bool := (position c =? p)%Z.

(** A citation with one reference to a file of the given name. *)
Definition cite_at (p : Z) (name : string) : citation :=
  {| position := p;
     references :=
       [{| ref_file := {| file_id := js name; file_name := js name;
                          signed_url := None |};
           pages := []; highlight := None |}] |}.

(** The parts of a string node, with the fuel [processNodeForCitations]
    gives the scan. *)
Definition scan_node (citationMap : list (jsstring * citation_data))
  (s : jsstring) : list node :=
  scan_parts (S (length s)) citationMap s.

(** The text of a marker whose digits are [d]. *)
Definition marker_text (d : jsstring) : jsstring :=
  js "[CITATION_" ++ d ++ js "]".

Definition text_part (s : jsstring) : list node :=
  match s with
  | [] => []
  | _ => [NString s]
  end.

Definition no_bracket (s : jsstring) : Prop :=
  forall c, In c s -> c <> cu_lbracket.

(** The offset of a citation, as a natural number. *)
Definition offset_of (c : citation) : nat := Z.to_nat (position c).

(** [splice s p m]: [s.slice(0, p) + m + s.slice(p)]. *)
Definition splice (s : jsstring) (p : nat) (m : jsstring) : jsstring :=
  firstn p s ++ m ++ skipn p s.

(** The content with the markers of the indexed citations, written from
    left to right; [s] is the content from the offset [off] on. *)
Fixpoint weave (off : nat) (s : jsstring) (l : list (nat * citation))
  : jsstring :=
  match l with
  | [] => s
  | (i, c) :: l' =>
      firstn (offset_of c - off) s ++ marker i
        ++ weave (offset_of c) (skipn (offset_of c - off) s) l'
  end.

(** The parts expected of the annotated content: the text between the
    offsets of the citations and, at each offset, the reference of the
    citation with its 1-based number. *)
Fixpoint expected_parts (off : nat) (s : jsstring) (l : list (nat * citation))
  : list node :=
  match l with
  | [] => text_part s
  | (i, c) :: l' =>
      text_part (firstn (offset_of c - off) s)
        ++ NInlineCitation (i + 1) c
        :: expected_parts (offset_of c) (skipn (offset_of c - off) s) l'
  end.

(** The text of the string parts, in order. *)
Fixpoint parts_text (parts : list node) : jsstring :=
  match parts with
  | [] => []
  | NString s :: rest => s ++ parts_text rest
  | _ :: rest => parts_text rest
  end.

(** The citation references among the parts, each with the length of the
    text before it, starting from [off]. *)
Fixpoint citation_offsets (off : nat) (parts : list node)
  : list (nat * nat * citation) :=
  match parts with
  | [] => []
  | NString s :: rest => citation_offsets (off + length s) rest
  | NInlineCitation n c :: rest => (off, n, c) :: citation_offsets off rest
  | _ :: rest => citation_offsets off rest
  end.

Definition citation_nodes (n : node) : nat :=
  match n with
  | NFragment parts => length (citation_offsets 0 parts)
  | NInlineCitation _ _ => 1
  | _ => 0
  end.

(** What is expected of each indexed citation: its offset, its number and
    the citation. *)
Definition expected_reference (ic : nat * citation) : nat * nat * citation :=
  (offset_of (snd ic), fst ic + 1, snd ic).

(** The positions do not decrease, from [off] on. *)
Fixpoint ordered_from (off : nat) (l : list (nat * citation)) : Prop :=
  match l with
  | [] => True
  | (_, c) :: l' => off <= offset_of c /\ ordered_from (offset_of c) l'
  end.

(** [s.replace(/\[CITATION_(\d+)\]/g, '')]: every marker token removed. *)
Fixpoint strip_markers_fuel (fuel : nat) (s : jsstring) : jsstring :=
  match fuel with
  | O => s
  | S f =>
      match regex_exec s with
      | Some (before, _, after) => before ++ strip_markers_fuel f after
      | None => s
      end
  end.

Definition strip_markers (s : jsstring) : jsstring :=
  strip_markers_fuel (S (length s)) s.

(** The round trip: the annotated content, seen as one string
    node, resolved against the citation map of the same content and
    citations. *)
Definition resolve (content : jsstring) (citations : list citation) : node :=
  processNodeForCitations (citationMap content citations)
    (NString (insertCitationMarkers content citations)).

(** ** The rest of the route: the [POST] handler around the stream *)

Module Handler.

(** The TypeError of reading a property of [null] or [undefined] and of
    calling what is not a function (the wording of its message is the
    engine's). *)
Definition type_error : exn :=
  JObj [(js "name", JStr (js "TypeError"));
        (js "message", JStr (js "Cannot read properties of undefined"))].

(** Line 8: [const { messages } = await req.json()], on the text of the
    request body.  The text must parse, and what it denotes must not be
    [null]; the property is [undefined] when it is missing. *)
Definition read_messages (request_body : jsstring) : exn + option json :=
  match JSON_parse request_body with
  | None => inl syntax_error
  | Some JNull => inl type_error
  | Some v => inr (get v (js "messages"))
  end.

(** Lines 23-26, one message: [{ role: msg.role, content: msg.content }].
    Properties that are [undefined] are left out, as they are when the
    message is sent on. *)
Definition sanitize_message (msg : json) : exn + json :=
  match msg with
  | JNull => inl type_error
  | _ =>
      inr (JObj (object_of [(js "role", get msg (js "role"));
                            (js "content", get msg (js "content"))]))
  end.

Fixpoint map_sanitize (messages : list json) : exn + list json :=
  match messages with
  | [] => inr []
  | msg :: rest =>
      match sanitize_message msg with
      | inl e => inl e
      | inr m =>
          match map_sanitize rest with
          | inl e => inl e
          | inr ms => inr (m :: ms)
          end
      end
  end.

(** [messages.map(...)]: only an array has [map]. *)
Definition sanitize_messages (messages : option json) : exn + list json :=
  match messages with
  | Some (JArr l) => map_sanitize l
  | _ => inl type_error
  end.

(** What the handler takes from outside the file: the environment variable,
    [getAssistant] of [@/lib/pinecone] ([None] when it returns an assistant,
    the value it throws otherwise), and the stream that
    [assistant.chatStream({ messages, model })] gives. *)
Record environment : Type := {
  PINECONE_ASSISTANT_NAME : option jsstring;
  getAssistant : jsstring -> option exn;
  chatStream : jsstring -> list json -> jsstring -> upstream
}.

Inductive response_body : Type :=
| JsonBody (v : json)
| StreamBody (run : outcome * state).

Record response : Type := {
  status : nat;
  content_type : jsstring;
  body : response_body
}.

(** [new Response(JSON.stringify({ error }), { status: 500, ... })] *)
Definition error_response (message : json) : response :=
  {| status := 500; content_type := js "application/json";
     body := JsonBody (JObj [(js "error", message)]) |}.

(** The [catch] of lines 213-219: [error?.message || 'Internal server error']. *)
Definition caught (error : exn) : response :=
  error_response
    (match get error (js "message") with
     | Some m => if truthy m then m else JStr (js "Internal server error")
     | None => JStr (js "Internal server error")
     end).

(** [POST(req)] *)
Definition POST (env : environment) (request_body : jsstring) : response :=
  match read_messages request_body with
  | inl e => caught e
  | inr messages =>
      match PINECONE_ASSISTANT_NAME env with
      | Some (c :: name) =>
          match getAssistant env (c :: name) with
          | Some e => caught e
          | None =>
              match sanitize_messages messages with
              | inl e => caught e
              | inr sanitizedMessages =>
                  {| status := 200; content_type := js "text/event-stream";
                     body :=
                       StreamBody
                         (bridge (chatStream env (c :: name) sanitizedMessages
                                    (js "gpt-4.1"))) |}
              end
          end
      | _ => error_response (JStr (js "Missing PINECONE_ASSISTANT_NAME"))
      end
  end.

End Handler.
Import Handler.

(** ** The rest of the chat message block *)

Module ChatMessageView.

(** *** [InlineCitation] *)

(** What a click does: a download through the proxy of the server, a new
    window on a direct link, or nothing. *)
Inductive click_action : Type :=
| DownloadThroughProxy (href : jsstring)
| OpenWindow (url : jsstring)
| NoAction.

Definition string_truthy (s : jsstring) : bool :=
  match s with
  | [] => false
  | _ => true
  end.

Definition nullable_truthy (o : option jsstring) : bool :=
  match o with
  | Some s => string_truthy s
  | None => false
  end.

(** [handleFileClick(fileId, signedUrl, e)], lines 156-171. *)
Definition handleFileClick (fileId signedUrl : option jsstring) : click_action :=
  match fileId with
  | Some (c :: id) =>
      DownloadThroughProxy (js "/api/files/" ++ (c :: id) ++ js "/download-file")
  | _ =>
      match signedUrl with
      | Some (c :: url) => OpenWindow (c :: url)
      | _ => NoAction
      end
  end.

(** [ref => ref.file.signed_url || ref.file.id] *)
Definition has_file (ref : reference) : bool :=
  nullable_truthy (signed_url (ref_file ref))
  || string_truthy (file_id (ref_file ref)).

(** The [onClick] of the citation, lines 217-223. *)
Definition onClick (c : citation) : click_action :=
  match find has_file (references c) with
  | Some firstFile =>
      handleFileClick (Some (file_id (ref_file firstFile)))
        (signed_url (ref_file firstFile))
  | None => NoAction
  end.

(** [(a, b) => a - b] on page numbers. *)
Definition by_number (a b : N) : Z := (Z.of_N a - Z.of_N b)%Z.

(** [Array.prototype.join(separator)] *)
Fixpoint join (separator : jsstring) (l : list jsstring) : jsstring :=
  match l with
  | [] => []
  | [x] => x
  | x :: rest => x ++ separator ++ join separator rest
  end.

(** [[...ref.pages].sort((a, b) => a - b)] *)
Definition sortedPages (ref : reference) : list N :=
  array_sort by_number (pages ref).

(** One entry of the tooltip, lines 178-197: the name of the file, the line
    of the pages when there are pages, the highlight when there is one. *)
Record tooltip_entry : Type := {
  entry_file : jsstring;
  entry_pages : option jsstring;
  entry_highlight : option jsstring
}.

Definition tooltip_entry_of (ref : reference) : tooltip_entry :=
  {| entry_file := file_name (ref_file ref);
     entry_pages :=
       match sortedPages ref with
       | [] => None
       | _ :: _ =>
           Some (js "Pages: "
                   ++ join (js ", ")
                        (List.map (fun p => string_of_nat (N.to_nat p))
                           (sortedPages ref)))
       end;
     entry_highlight := highlight ref |}.

(** The content of the tooltip, lines 176-203: an entry for every
    reference, and the hint about downloads when some reference has a
    signed link. *)
Record tooltip : Type := {
  entries : list tooltip_entry;
  download_hint : bool
}.

Definition tooltipContent (c : citation) : tooltip :=
  {| entries := List.map tooltip_entry_of (references c);
     download_hint :=
       existsb (fun ref => nullable_truthy (signed_url (ref_file ref)))
         (references c) |}.

(** *** [ChatMessageBlock] *)

Inductive role : Type :=
| role_assistant
| role_user
| role_error.

(** [role === 'assistant' && content === ''] *)
Definition assistantResponseIsLoading (r : role) (content : jsstring) : bool :=
  match r, content with
  | role_assistant, [] => true
  | _, _ => false
  end.

(** Lines 286-288. *)
Definition contentWithMarkers (r : role) (content : jsstring)
  (citations : list citation) : jsstring :=
  match r, citations with
  | role_assistant, _ :: _ => insertCitationMarkers content citations
  | _, _ => content
  end.

(** The tags whose component maps [processNodeForCitations] over the
    children (lines 356-446). *)
Definition processed_tags : list jsstring :=
  [js "p"; js "h1"; js "h2"; js "h3"; js "h4"; js "h5"; js "h6";
   js "blockquote"; js "li"; js "td"; js "th"; js "strong"; js "em"].

Definition is_processed_tag (tag : jsstring) : bool :=
  existsb (jsstring_eqb tag) processed_tags.

(** What the component of a tag renders from the children it is given:
    those of [processed_tags] process every child; [code] and [pre] (lines
    447-454), the link and every tag without a component of its own render
    the children as they are. *)
Definition customComponent (citationMap : list (jsstring * citation_data))
  (tag : jsstring) (children : list node) : node :=
  if is_processed_tag tag
  then NElement tag (List.map (processNodeForCitations citationMap) children)
  else NElement tag children.

End ChatMessageView.
Import ChatMessageView.

(** ** Notions for the properties of the rest of the code *)

(** The frames a run writes, read off the upstream steps: the frames of the
    items that decode, up to the first [message_end], to the moment the
    consumer hangs up, or to the end, where a raised error gives the error
    frame. *)
Fixpoint written (steps : list step) (fin : ending) : list json :=
  match steps with
  | [] =>
      match fin with
      | Exhausted => []
      | Raises error => [error_frame (extractErrorMessage error)]
      end
  | Hangup :: _ => []
  | Yield response :: rest =>
      match decoded response with
      | Some data =>
          transformed data
          :: (if type_is data "message_end" then [] else written rest fin)
      | None => written rest fin
      end
  end.

(** The calls of [close] that succeed: one, unless the consumer hangs up
    before the bridge is done. *)
Fixpoint closes_expected (steps : list step) : nat :=
  match steps with
  | [] => 1
  | Hangup :: _ => 0
  | Yield response :: rest =>
      if is_message_end response then 1 else closes_expected rest
  end.

(** The items taken from the upstream stream: all of them, up to the first
    [message_end]. *)
Fixpoint pulled_expected (steps : list step) : nat :=
  match steps with
  | [] => 0
  | Hangup :: rest => pulled_expected rest
  | Yield response :: rest =>
      S (if is_message_end response then 0 else pulled_expected rest)
  end.

(** What [start] does with the completion of the loop. *)
Definition after_loop (r : completion unit * state) : completion unit * state :=
  match r with
  | (Normal _, st1) =>
      (Normal tt,
       if streamEnded st1 then st1
       else if closed st1 then st1 else after close st1)
  | (Throw error, st1) =>
      let st2 := after (console_error (StreamError error)) st1 in
      let st3 :=
        if closed st2 then st2
        else after (enqueue (error_frame (extractErrorMessage error))) st2 in
      (Normal tt, if closed st3 then st3 else after close st3)
  | other => other
  end.

(** The text a node stands for, a citation reference written back as the
    marker of its number. *)
Fixpoint node_source (n : node) : jsstring :=
  match n with
  | NString s => s
  | NElement _ children => concat (List.map node_source children)
  | NArray items => concat (List.map node_source items)
  | NFragment parts => concat (List.map node_source parts)
  | NInlineCitation k _ => marker (k - 1)
  | NOther => []
  end.

(** The length of the markers of the indexed citations. *)
Fixpoint markers_length (l : list (nat * citation)) : nat :=
  match l with
  | [] => 0
  | (i, _) :: l' => length (marker i) + markers_length l'
  end.


(** What a node shows: fragments and arrays show their parts one after the
    other, an element shows itself around what its children show. *)
Fixpoint rendered (n : node) : list node :=
  match n with
  | NString s => [NString s]
  | NElement tag children =>
      [NElement tag (concat (List.map rendered children))]
  | NArray items => concat (List.map rendered items)
  | NFragment parts => concat (List.map rendered parts)
  | NInlineCitation k c => [NInlineCitation k c]
  | NOther => [NOther]
  end.

(** A reference without a file to open: no identifier and no signed link. *)
Definition no_file (ref : reference) : Prop :=
  file_id (ref_file ref) = []
  /\ (signed_url (ref_file ref) = None \/ signed_url (ref_file ref) = Some []).

(** The address of the download of a file through the server. *)
Definition download_href (fileId : jsstring) : jsstring :=
  js "/api/files/" ++ fileId ++ js "/download-file".

(** * Properties *)

(** ** Strings *)

Lemma jsstring_eqb_eq (a b : jsstring) : jsstring_eqb a b = true <-> a = b.
Proof.
  revert b; induction a as [|x a IH]; intros [|y b]; simpl; split;
    try congruence; try reflexivity.
  - intros H. apply andb_true_iff in H. destruct H as [H1 H2].
    apply N.eqb_eq in H1. apply IH in H2. congruence.
  - intros H. injection H as -> ->. rewrite N.eqb_refl. simpl.
    apply IH. reflexivity.
Qed.

Lemma jsstring_eqb_refl (a : jsstring) : jsstring_eqb a a = true.
Proof. apply jsstring_eqb_eq. reflexivity. Qed.

Lemma jsstring_eqb_neq (a b : jsstring) : jsstring_eqb a b = false <-> a <> b.
Proof.
  split.
  - intros H E. apply jsstring_eqb_eq in E. congruence.
  - intros H. destruct (jsstring_eqb a b) eqn:E; [|reflexivity].
    apply jsstring_eqb_eq in E. contradiction.
Qed.

(** ** The event transformer *)

Lemma type_is_elim (data : json) (t : string) :
  type_is data t = true -> get data (js "type") = Some (JStr (js t)).
Proof.
  unfold type_is. destruct (get data (js "type")) as [[| | |s| |]|];
    try discriminate.
  intros H. apply jsstring_eqb_eq in H. congruence.
Qed.

Lemma type_is_other (data : json) (t u : string) :
  type_is data t = true -> jsstring_eqb (js t) (js u) = false ->
  type_is data u = false.
Proof.
  intros H Hne. apply type_is_elim in H. unfold type_is. rewrite H. exact Hne.
Qed.

Lemma or_else_content (data : json) :
  or_else (get_opt (get data (js "delta")) (js "content"))
    (or_else (get data (js "content")) (Some (JStr [])))
  = Some (content_by_truthiness data).
Proof.
  unfold or_else, content_by_truthiness, truthy_opt.
  destruct (get_opt (get data (js "delta")) (js "content")) as [c|];
    [destruct (truthy c); [reflexivity|]|];
    (destruct (get data (js "content")) as [c'|];
     [destruct (truthy c'); reflexivity | reflexivity]).
Qed.

(** C9, as the code has it: the content of the downstream chunk is
    [delta.content] when that value is truthy, otherwise the top-level
    [content] when that one is truthy, otherwise the empty string; the
    transformation changes nothing else. *)
Theorem content_chunk_transform (data : json) (st : state) :
  type_is data "content_chunk" = true ->
  transform data st
  = (Normal (content_chunk_frame (content_by_truthiness data)), st).
Proof.
  intros H. unfold transform.
  rewrite (type_is_other data "content_chunk" "message_start" H)
    by reflexivity.
  rewrite H. rewrite or_else_content. reflexivity.
Qed.

Lemma content_chunk_transform_witness :
  let data := JObj [(js "type", JStr (js "content_chunk"));
                    (js "delta", JObj [(js "content", JStr (js "Hi"))])] in
  type_is data "content_chunk" = true /\
  transform data initial_state
  = (Normal (content_chunk_frame (JStr (js "Hi"))), initial_state).
Proof.
  split; [reflexivity|].
  apply (content_chunk_transform
           (JObj [(js "type", JStr (js "content_chunk"));
                  (js "delta", JObj [(js "content", JStr (js "Hi"))])])
           initial_state).
  reflexivity.
Defined.

(** C9 as it is worded fails on a chunk whose [delta.content] is
    present and empty while a top-level [content] is there: the code sends
    the top-level content. *)
Lemma content_chunk_presence_counterexample :
  let data := JObj [(js "type", JStr (js "content_chunk"));
                    (js "delta", JObj [(js "content", JStr [])]);
                    (js "content", JStr (js "x"))] in
  type_is data "content_chunk" = true /\
  get_opt (get data (js "delta")) (js "content") = Some (JStr []) /\
  content_by_presence data = JStr [] /\
  fst (transform data initial_state)
    = Normal (content_chunk_frame (JStr (js "x"))) /\
  fst (transform data initial_state)
    <> Normal (content_chunk_frame (content_by_presence data)).
Proof.
  repeat split; try reflexivity.
  vm_compute. discriminate.
Qed.

(** ** The error unwrapper on the scenarios of the specification *)

(** C7: the four raised messages and the diagnostic message of each. *)
Theorem error_unwrap_scenarios :
  extractErrorMessage (error_with_message (js "oops")) = JStr (js "oops")
  /\ extractErrorMessage
       (error_with_message (jsq "{'error':{'message':'bad input'}}"))
     = JStr (js "bad input")
  /\ extractErrorMessage
       (error_with_message
          (jsq "{'error':{'message':'{\'error\':{\'message\':\'deep\'}}'}}"))
     = JStr (js "deep")
  /\ extractErrorMessage (error_with_message (js "not json"))
     = JStr (js "not json").
Proof. repeat split; vm_compute; reflexivity. Qed.

(** ** JSON.parse: what a text denotes is no larger than the text *)

Lemma skip_ws_length (s : jsstring) : length (skip_ws s) <= length s.
Proof.
  induction s as [|c s IH]; simpl; [lia|].
  destruct (is_json_ws c); simpl; lia.
Qed.

Lemma skip_ws_cons (s : jsstring) (c : N) (r : jsstring) :
  skip_ws s = c :: r -> S (length r) <= length s.
Proof.
  intros H. pose proof (skip_ws_length s) as L. rewrite H in L. exact L.
Qed.

Lemma cons_fst_some {A B : Type} (a : A) (o : option (list A * B)) l b :
  cons_fst a o = Some (l, b) ->
  exists l', o = Some (l', b) /\ l = a :: l'.
Proof.
  destruct o as [[l' b']|]; simpl; [|discriminate].
  intros H. injection H as <- <-. exists l'. split; reflexivity.
Qed.

Lemma strip_prefix_length (p s r : jsstring) :
  strip_prefix p s = Some r -> length s = length p + length r.
Proof.
  revert s; induction p as [|x p IH]; intros [|y s]; simpl; try discriminate.
  - intros H; injection H as <-. reflexivity.
  - intros H; injection H as <-. reflexivity.
  - destruct (N.eqb x y); [|discriminate]. intros H. apply IH in H. lia.
Qed.

Lemma parse_string_body_size_aux (n : nat) :
  forall s str r, length s <= n ->
    parse_string_body s = Some (str, r) ->
    length str + 1 + length r <= length s.
Proof.
  induction n as [|n IH]; intros s str r Hn H.
  - destruct s; [discriminate | simpl in Hn; lia].
  - destruct s as [|c s']; [discriminate|]. simpl in Hn. simpl in H.
    destruct (N.eqb c cu_quote).
    { injection H as <- <-. simpl. lia. }
    destruct (N.eqb c cu_backslash).
    + destruct s' as [|e s'']; [discriminate|].
      destruct (N.eqb e 117).
      * destruct s'' as [|h1 [|h2 [|h3 [|h4 s3]]]]; try discriminate.
        destruct (hex4 h1 h2 h3 h4); [|discriminate].
        apply cons_fst_some in H. destruct H as (l' & H & ->).
        apply IH in H; simpl in *; lia.
      * destruct (unescape e); [|discriminate].
        apply cons_fst_some in H. destruct H as (l' & H & ->).
        apply IH in H; simpl in *; lia.
    + destruct (N.ltb c 32); [discriminate|].
      apply cons_fst_some in H. destruct H as (l' & H & ->).
      apply IH in H; simpl in *; lia.
Qed.

Lemma parse_string_body_size (s str r : jsstring) :
  parse_string_body s = Some (str, r) ->
  length str + 1 + length r <= length s.
Proof. apply (parse_string_body_size_aux (length s)). lia. Qed.

Lemma take_digits_length (s : jsstring) :
  forall acc count v n r,
    take_digits acc count s = (v, n, r) -> length r <= length s.
Proof.
  induction s as [|c s IH]; intros acc count v n r H; simpl in H.
  - injection H as <- <- <-. simpl. lia.
  - destruct (is_digit c).
    + apply IH in H. simpl. lia.
    + injection H as <- <- <-. simpl. lia.
Qed.

Lemma parse_int_part_size (s : jsstring) (v : N) (r : jsstring) :
  parse_int_part s = Some (v, r) -> S (length r) <= length s.
Proof.
  unfold parse_int_part. destruct s as [|c s']; [discriminate|].
  destruct (N.eqb c cu_zero).
  - intros H; injection H as <- <-. simpl. lia.
  - destruct (is_digit c); [|discriminate].
    destruct (take_digits (c - cu_zero) 1 s') as [[v' n'] r'] eqn:E.
    intros H; injection H as <- <-.
    apply take_digits_length in E. simpl. lia.
Qed.

Lemma parse_frac_part_size (mant : N) (s : jsstring) v n r :
  parse_frac_part mant s = Some (v, n, r) -> length r <= length s.
Proof.
  unfold parse_frac_part. destruct s as [|c s'].
  - intros H; injection H as <- <- <-. simpl; lia.
  - destruct (N.eqb c cu_dot).
    + destruct (take_digits mant 0 s') as [[v' n'] r'] eqn:E.
      destruct n'; [discriminate|].
      intros H; injection H as <- <- <-.
      apply take_digits_length in E. simpl. lia.
    + intros H; injection H as <- <- <-. lia.
Qed.

Lemma parse_exp_part_size (s : jsstring) e r :
  parse_exp_part s = Some (e, r) -> length r <= length s.
Proof.
  unfold parse_exp_part. destruct s as [|c s'].
  - intros H; injection H as <- <-. simpl; lia.
  - destruct (N.eqb c 101 || N.eqb c 69).
    + assert (Hs : forall neg s1,
                 (let '(v, n, r0) := take_digits 0 0 s1 in
                  match n with
                  | O => None
                  | S _ => Some (if neg : bool then (- Z.of_N v)%Z
                                 else Z.of_N v, r0)
                  end) = Some (e, r) -> length r <= length s1).
      { intros neg s1. destruct (take_digits 0 0 s1) as [[v' n'] r'] eqn:E.
        destruct n'; [discriminate|]. intros H; injection H as <- <-.
        apply take_digits_length in E. exact E. }
      destruct s' as [|d s''].
      * intros H. apply (Hs false) in H. simpl in *. lia.
      * destruct (N.eqb d cu_minus).
        { intros H. apply (Hs true) in H. simpl in *. lia. }
        destruct (N.eqb d cu_plus); intros H; apply (Hs false) in H;
          simpl in *; lia.
    + intros H; injection H as <- <-. lia.
Qed.

Lemma parse_number_size (s : jsstring) n r :
  parse_number s = Some (n, r) -> S (length r) <= length s.
Proof.
  unfold parse_number.
  assert (Hs : forall neg s1,
             match parse_int_part s1 with
             | None => None
             | Some (i, s2) =>
                 match parse_frac_part i s2 with
                 | None => None
                 | Some (m, nfrac, s3) =>
                     match parse_exp_part s3 with
                     | None => None
                     | Some (e, s4) =>
                         Some ({| num_neg := neg; num_mantissa := m;
                                  num_exponent := (e - Z.of_nat nfrac)%Z |},
                               s4)
                     end
                 end
             end = Some (n, r) -> S (length r) <= length s1).
  { intros neg s1.
    destruct (parse_int_part s1) as [[i s2]|] eqn:E1; [|discriminate].
    destruct (parse_frac_part i s2) as [[[m nf] s3]|] eqn:E2; [|discriminate].
    destruct (parse_exp_part s3) as [[e s4]|] eqn:E3; [|discriminate].
    intros H; injection H as <- <-.
    apply parse_int_part_size in E1. apply parse_frac_part_size in E2.
    apply parse_exp_part_size in E3. lia. }
  destruct s as [|c s'].
  - intros H. apply (Hs false) in H. exact H.
  - destruct (N.eqb c cu_minus); intros H;
      [apply (Hs true) in H | apply (Hs false) in H]; simpl in *; lia.
Qed.

Lemma jsize_arr (l : list json) : jsize (JArr l) = 2 + items_size l.
Proof.
  reflexivity.
Qed.

Lemma jsize_obj (m : list (jsstring * json)) :
  jsize (JObj m) = 2 + members_size m.
Proof.
  reflexivity.
Qed.

Lemma members_set_size (m : list (jsstring * json)) k v :
  members_size (members_set m k v) <= members_size m + S (jsize v).
Proof.
  induction m as [|[k' v'] m IH]; simpl; [lia|].
  destruct (jsstring_eqb k' k); simpl; lia.
Qed.

Lemma members_get_size (m : list (jsstring * json)) k v :
  members_get m k = Some v -> S (jsize v) <= members_size m.
Proof.
  induction m as [|[k' v'] m IH]; simpl; [discriminate|].
  destruct (members_get m k) as [w|].
  - intros H; injection H as ->. specialize (IH eq_refl). lia.
  - destruct (jsstring_eqb k' k); [|discriminate].
    intros H; injection H as ->. lia.
Qed.

Lemma get_size (v : json) k w : get v k = Some w -> jsize w < jsize v.
Proof.
  destruct v; simpl; try discriminate.
  intros H. apply members_get_size in H.
  change (jsize w < jsize (JObj members)). rewrite jsize_obj. lia.
Qed.

Lemma error_message_of_size (v m : json) :
  error_message_of v = Some m -> S (jsize m) < jsize v.
Proof.
  unfold error_message_of, get_opt.
  destruct (get v (js "error")) as [e|] eqn:E; [|discriminate].
  intros H. apply get_size in E. apply get_size in H. lia.
Qed.

Lemma jsize_pos (v : json) : 1 <= jsize v.
Proof. destruct v; cbn; lia. Qed.

Opaque jsize strip_prefix parse_number parse_string_body skip_ws.

Lemma parse_size (fuel : nat) :
  (forall s v r, parse_value fuel s = Some (v, r) ->
                 jsize v + length r <= length s)
  /\ (forall s l r, parse_elements fuel s = Some (l, r) ->
                    items_size l + 1 + length r <= length s)
  /\ (forall acc s m r, parse_members fuel acc s = Some (m, r) ->
                        members_size m + 1 + length r
                        <= members_size acc + length s).
Proof.
  induction fuel as [|f (IHv & IHe & IHm)].
  { repeat split; intros; discriminate. }
  repeat split.
  - intros s v r H. simpl in H.
    destruct (skip_ws s) as [|c s'] eqn:Es; [discriminate|].
    apply skip_ws_cons in Es.
    destruct (N.eqb c cu_quote).
    { destruct (parse_string_body s') as [[str r0]|] eqn:Eb; [|discriminate].
      injection H as <- <-. apply parse_string_body_size in Eb.
      change (jsize (JStr str)) with (2 + length str). lia. }
    destruct (N.eqb c cu_lbracket).
    { destruct (skip_ws s') as [|d r0] eqn:Es'; [discriminate|].
      apply skip_ws_cons in Es'.
      destruct (N.eqb d cu_rbracket).
      - injection H as <- <-. rewrite jsize_arr. simpl. lia.
      - destruct (parse_elements f s') as [[l r']|] eqn:Ee; [|discriminate].
        injection H as <- <-. apply IHe in Ee. rewrite jsize_arr. lia. }
    destruct (N.eqb c cu_lbrace).
    { destruct (skip_ws s') as [|d r0] eqn:Es'; [discriminate|].
      apply skip_ws_cons in Es'.
      destruct (N.eqb d cu_rbrace).
      - injection H as <- <-. rewrite jsize_obj. simpl. lia.
      - destruct (parse_members f [] s') as [[m r']|] eqn:Em; [|discriminate].
        injection H as <- <-. apply IHm in Em. rewrite jsize_obj.
        simpl in Em. lia. }
    destruct (N.eqb c cu_minus || is_digit c).
    { destruct (parse_number (c :: s')) as [[n r0]|] eqn:En; [|discriminate].
      injection H as <- <-. apply parse_number_size in En.
      change (jsize (JNum n)) with 1. simpl in En. lia. }
    destruct (strip_prefix (js "true") (c :: s')) as [r0|] eqn:E1.
    { injection H as <- <-. apply strip_prefix_length in E1.
      change (jsize (JBool true)) with 1. simpl in E1. lia. }
    destruct (strip_prefix (js "false") (c :: s')) as [r0|] eqn:E2.
    { injection H as <- <-. apply strip_prefix_length in E2.
      change (jsize (JBool false)) with 1. simpl in E2. lia. }
    destruct (strip_prefix (js "null") (c :: s')) as [r0|] eqn:E3;
      [|discriminate].
    injection H as <- <-. apply strip_prefix_length in E3.
    change (jsize JNull) with 1. simpl in E3. lia.
  - intros s l r H. simpl in H.
    destruct (parse_value f s) as [[v r0]|] eqn:Ev; [|discriminate].
    apply IHv in Ev.
    destruct (skip_ws r0) as [|c r'] eqn:Es; [discriminate|].
    apply skip_ws_cons in Es.
    destruct (N.eqb c cu_comma).
    + apply cons_fst_some in H. destruct H as (l' & H & ->).
      apply IHe in H. simpl. lia.
    + destruct (N.eqb c cu_rbracket); [|discriminate].
      injection H as <- <-. simpl. lia.
  - intros acc s m r H. simpl in H.
    destruct (skip_ws s) as [|q s1] eqn:Es; [discriminate|].
    apply skip_ws_cons in Es.
    destruct (N.eqb q cu_quote); [|discriminate].
    destruct (parse_string_body s1) as [[k s2]|] eqn:Eb; [|discriminate].
    apply parse_string_body_size in Eb.
    destruct (skip_ws s2) as [|c s3] eqn:Es2; [discriminate|].
    apply skip_ws_cons in Es2.
    destruct (N.eqb c cu_colon); [|discriminate].
    destruct (parse_value f s3) as [[v r0]|] eqn:Ev; [|discriminate].
    apply IHv in Ev.
    destruct (skip_ws r0) as [|d r'] eqn:Es3; [discriminate|].
    apply skip_ws_cons in Es3.
    pose proof (members_set_size acc k v) as Hset.
    destruct (N.eqb d cu_comma).
    + apply IHm in H. lia.
    + destruct (N.eqb d cu_rbrace); [|discriminate].
      injection H as <- <-. lia.
Qed.

(** The fuel [JSON_parse] supplies is enough: with any larger fuel the
    parser gives the same result, so that [None] always is a syntax error of
    the text. *)
Lemma parse_fuel_enough (f1 : nat) :
  (forall f2 s, 2 * length s < f1 -> 2 * length s < f2 ->
                parse_value f1 s = parse_value f2 s)
  /\ (forall f2 s, 2 * length s + 1 < f1 -> 2 * length s + 1 < f2 ->
                   parse_elements f1 s = parse_elements f2 s)
  /\ (forall f2 acc s, 2 * length s + 1 < f1 -> 2 * length s + 1 < f2 ->
                       parse_members f1 acc s = parse_members f2 acc s).
Proof.
  induction f1 as [|f (IHv & IHe & IHm)].
  { repeat split; intros; lia. }
  repeat split.
  - intros [|f'] s H1 H2; [lia|]. simpl.
    destruct (skip_ws s) as [|c s'] eqn:Es; [reflexivity|].
    apply skip_ws_cons in Es.
    destruct (N.eqb c cu_quote); [reflexivity|].
    destruct (N.eqb c cu_lbracket).
    { destruct (skip_ws s') as [|d r0]; [reflexivity|].
      destruct (N.eqb d cu_rbracket); [reflexivity|].
      rewrite (IHe f' s') by lia. reflexivity. }
    destruct (N.eqb c cu_lbrace); [|reflexivity].
    destruct (skip_ws s') as [|d r0]; [reflexivity|].
    destruct (N.eqb d cu_rbrace); [reflexivity|].
    rewrite (IHm f' [] s') by lia. reflexivity.
  - intros [|f'] s H1 H2; [lia|]. simpl.
    rewrite (IHv f' s) by lia.
    destruct (parse_value f' s) as [[v r]|] eqn:Ev; [|reflexivity].
    apply (proj1 (parse_size f')) in Ev. pose proof (jsize_pos v) as Hv.
    destruct (skip_ws r) as [|c r'] eqn:Es; [reflexivity|].
    apply skip_ws_cons in Es.
    destruct (N.eqb c cu_comma); [|reflexivity].
    rewrite (IHe f' r') by lia. reflexivity.
  - intros [|f'] acc s H1 H2; [lia|]. simpl.
    destruct (skip_ws s) as [|q s1] eqn:Es; [reflexivity|].
    apply skip_ws_cons in Es.
    destruct (N.eqb q cu_quote); [|reflexivity].
    destruct (parse_string_body s1) as [[k s2]|] eqn:Eb; [|reflexivity].
    apply parse_string_body_size in Eb.
    destruct (skip_ws s2) as [|c s3] eqn:Es2; [reflexivity|].
    apply skip_ws_cons in Es2.
    destruct (N.eqb c cu_colon); [|reflexivity].
    rewrite (IHv f' s3) by lia.
    destruct (parse_value f' s3) as [[v r]|] eqn:Ev; [|reflexivity].
    apply (proj1 (parse_size f')) in Ev. pose proof (jsize_pos v) as Hv.
    destruct (skip_ws r) as [|d r'] eqn:Es3; [reflexivity|].
    apply skip_ws_cons in Es3.
    destruct (N.eqb d cu_comma); [|reflexivity].
    rewrite (IHm f' (members_set acc k v) r') by lia. reflexivity.
Qed.

Transparent strip_prefix parse_number parse_string_body skip_ws.

Lemma JSON_parse_fuel (fuel : nat) (text : jsstring) :
  2 * length text < fuel ->
  parse_value fuel text = parse_value (2 * length text + 1) text.
Proof.
  intros H. apply (proj1 (parse_fuel_enough fuel)); lia.
Qed.

Lemma JSON_parse_size (text : jsstring) (v : json) :
  JSON_parse text = Some v -> jsize v <= length text.
Proof.
  unfold JSON_parse.
  destruct (parse_value (2 * length text + 1) text) as [[w r]|] eqn:E;
    [|discriminate].
  destruct (skip_ws r); [|discriminate].
  intros H; injection H as <-.
  apply (proj1 (parse_size _)) in E. lia.
Qed.

Lemma JSON_parse_nonempty (text : jsstring) (v : json) :
  JSON_parse text = Some v -> text <> [].
Proof. intros H ->. vm_compute in H. discriminate. Qed.

(** ** The error unwrapper *)

(** The loop always ends: a value of size below the fuel is unwrapped. *)
Lemma unwrap_loop_total (fuel : nat) :
  forall parsed error_message errorMessage,
    jsize parsed < fuel ->
    exists r, unwrap_loop fuel parsed error_message errorMessage = Some r.
Proof.
  induction fuel as [|f IH]; intros parsed em e Hsize; [lia|].
  simpl.
  destruct (truthy parsed && is_object parsed); [|eexists; reflexivity].
  assert (Hother :
    exists r,
      match get parsed (js "message") with
      | Some m =>
          if truthy m then Some m
          else match get parsed (js "error") with
               | Some (JStr e0) => Some (JStr e0)
               | _ => Some em
               end
      | None =>
          match get parsed (js "error") with
          | Some (JStr e0) => Some (JStr e0)
          | _ => Some em
          end
      end = Some r).
  { destruct (get parsed (js "message")) as [m|];
      [destruct (truthy m); [eexists; reflexivity|]|];
      destruct (get parsed (js "error")) as [[| | |s| |]|];
      eexists; reflexivity. }
  destruct (error_message_of parsed) as [m|] eqn:Em; [|exact Hother].
  destruct (truthy m); [|exact Hother].
  apply error_message_of_size in Em.
  assert (Hrec : forall inner, jsize inner < jsize m \/ inner = m ->
            exists r,
              (if truthy_opt (error_message_of inner)
               then unwrap_loop f inner em e else Some m) = Some r).
  { intros inner Hin.
    destruct (truthy_opt (error_message_of inner)); [|eexists; reflexivity].
    apply IH. destruct Hin as [Hin| ->]; lia. }
  destruct m as [| | |text| |]; try (apply Hrec; right; reflexivity).
  destruct (JSON_parse text) as [inner|] eqn:Ep; [|eexists; reflexivity].
  apply Hrec. left. apply JSON_parse_size in Ep.
  change (jsize (JStr text)) with (2 + length text). lia.
Qed.

(** More fuel does not change a result. *)
Lemma unwrap_loop_more_fuel (f : nat) :
  forall f' parsed error_message errorMessage r,
    unwrap_loop f parsed error_message errorMessage = Some r ->
    f <= f' ->
    unwrap_loop f' parsed error_message errorMessage = Some r.
Proof.
  induction f as [|f IH]; intros f' parsed em e r H Hle; [discriminate|].
  destruct f' as [|f']; [lia|].
  simpl in H |- *.
  destruct (truthy parsed && is_object parsed); [|exact H].
  destruct (error_message_of parsed) as [m|]; [|exact H].
  destruct (truthy m); [|exact H].
  destruct (match m with JStr text => JSON_parse text | _ => Some m end)
    as [inner|]; [|exact H].
  destruct (truthy_opt (error_message_of inner)); [|exact H].
  apply IH; [exact H | lia].
Qed.

(** The fallback [An error occurred] of the model's fuel is never taken:
    the message is the one the loop reaches. *)
Lemma extractErrorMessage_loop (error : exn) (error_message parsed : json) :
  get error (js "message") = Some error_message ->
  truthy error_message = true ->
  match error_message with
  | JStr text => JSON_parse text
  | _ => Some error_message
  end = Some parsed ->
  exists errorMessage,
    unwrap_loop (S (jsize parsed)) parsed error_message an_error_occurred
    = Some errorMessage
    /\ extractErrorMessage error
       = if is_an_error_occurred errorMessage then error_message
         else errorMessage.
Proof.
  intros Hget Htruthy Hparsed.
  destruct (unwrap_loop_total (S (jsize parsed)) parsed error_message
              an_error_occurred) as [r Hr]; [lia|].
  exists r. split; [exact Hr|].
  unfold extractErrorMessage. rewrite Hget, Htruthy, Hparsed, Hr.
  reflexivity.
Qed.

Lemma nested_envelope_truthy (n : nat) (text : jsstring) (m : json) :
  nested_envelope n text m ->
  exists p, JSON_parse text = Some p
            /\ truthy_opt (error_message_of p) = true
            /\ truthy p && is_object p = true.
Proof.
  assert (Hobj : forall p x, error_message_of p = Some x ->
                             truthy p && is_object p = true).
  { intros p x. unfold error_message_of. destruct p; simpl; try discriminate.
    reflexivity. }
  intros H. destruct H as [text p m Hp Hm Ht _ | n text inner p m Hp Hm Hn].
  - exists p. rewrite Hm. simpl. eauto.
  - exists p. rewrite Hm. simpl.
    destruct inner as [|c inner'].
    + inversion Hn; subst;
        match goal with
        | [ H : JSON_parse [] = Some _ |- _ ] =>
            apply JSON_parse_nonempty in H; contradiction
        end.
    + eauto.
Qed.

(** The loop descends through every level of a nested envelope. *)
Lemma unwrap_loop_nested (n : nat) :
  forall text m p error_message errorMessage,
    nested_envelope n text m ->
    JSON_parse text = Some p ->
    unwrap_loop n p error_message errorMessage = Some m.
Proof.
  induction n as [|n IH]; intros text m p em e Hn Hp.
  - inversion Hn.
  - inversion Hn as [text' p' m' Hp' Hm Ht Hne | n' text' inner p' m' Hp' Hm Hn'];
      subst; rewrite Hp in Hp'; injection Hp' as <-.
    + simpl.
      assert (Hobj : truthy p && is_object p = true).
      { unfold error_message_of in Hm. destruct p; simpl in *;
          try discriminate; reflexivity. }
      rewrite Hobj, Hm, Ht.
      unfold not_an_envelope in Hne.
      destruct m as [| | |t| |];
        try (rewrite Hne; reflexivity).
      destruct (JSON_parse t) as [q|]; [rewrite Hne|]; reflexivity.
    + destruct (nested_envelope_truthy _ _ _ Hn') as (q & Hq & Hqt & _).
      destruct (nested_envelope_truthy _ _ _ Hn) as (p2 & Hp2 & _ & Hobj).
      rewrite Hp in Hp2. injection Hp2 as <-.
      cbn [unwrap_loop]. rewrite Hobj, Hm.
      assert (Hti : truthy (JStr inner) = true).
      { destruct inner; [|reflexivity].
        apply JSON_parse_nonempty in Hq. contradiction. }
      rewrite Hti, Hq, Hqt.
      apply (IH inner m q em e Hn' Hq).
Qed.

(** C8, as the code has it: the unwrapper descends through every level of a
    nested envelope, however deep, and emits the innermost message (the
    raw text when that message is the literal [An error occurred]). *)
Theorem unwrap_nested_envelope (n : nat) (text : jsstring) (m : json) :
  nested_envelope n text m ->
  extractErrorMessage (error_with_message text)
  = if is_an_error_occurred m then JStr text else m.
Proof.
  intros Hn.
  destruct (nested_envelope_truthy _ _ _ Hn) as (p & Hp & _ & _).
  assert (Htext : truthy (JStr text) = true).
  { destruct text; [|reflexivity].
    apply JSON_parse_nonempty in Hp. contradiction. }
  destruct (extractErrorMessage_loop (error_with_message text) (JStr text) p)
    as (r & Hr & ->); [reflexivity | exact Htext | exact Hp |].
  pose proof (unwrap_loop_nested _ _ _ _ (JStr text) an_error_occurred Hn Hp) as Hm.
  destruct (unwrap_loop_total (S (Nat.max n (jsize p))) p (JStr text)
              an_error_occurred) as [r' Hr']; [lia|].
  assert (r' = m).
  { apply unwrap_loop_more_fuel with (f' := S (Nat.max n (jsize p))) in Hm;
      [congruence | lia]. }
  assert (r' = r).
  { apply unwrap_loop_more_fuel with (f' := S (Nat.max n (jsize p))) in Hr;
      [congruence | lia]. }
  subst; reflexivity.
Qed.

Lemma unwrap_nested_envelope_witness :
  nested_envelope 3 three_levels (JStr (js "deepest"))
  /\ extractErrorMessage (error_with_message three_levels)
     = JStr (js "deepest").
Proof.
  assert (H : nested_envelope 3 three_levels (JStr (js "deepest"))).
  { eapply nested_next; [vm_compute; reflexivity | vm_compute; reflexivity |].
    eapply nested_next; [vm_compute; reflexivity | vm_compute; reflexivity |].
    eapply nested_one;
      [vm_compute; reflexivity | vm_compute; reflexivity | reflexivity |].
    vm_compute. exact I. }
  split; [exact H|].
  exact (unwrap_nested_envelope 3 three_levels (JStr (js "deepest")) H).
Defined.

(** C8 as it is worded fails on an envelope three levels deep: the
    message emitted is the one of the third level, not the one found at the
    second level. *)
Lemma unwrap_three_levels_counterexample :
  message_at_level 2 three_levels
    = Some (JStr (jsq "{'error':{'message':'deepest'}}"))
  /\ message_at_level 3 three_levels = Some (JStr (js "deepest"))
  /\ extractErrorMessage (error_with_message three_levels)
     = JStr (js "deepest")
  /\ Some (extractErrorMessage (error_with_message three_levels))
     <> message_at_level 2 three_levels.
Proof.
  repeat split; try (vm_compute; reflexivity).
  vm_compute. discriminate.
Qed.

(** ** The stream bridge *)

Lemma transform_eq (data : json) (st : state) :
  transform data st
  = (Normal (transformed data),
     if type_is data "message_end" then after set_streamEnded st else st).
Proof.
  unfold transform, transformed.
  destruct (type_is data "message_start") eqn:E1.
  { rewrite (type_is_other data "message_start" "message_end" E1)
      by reflexivity. reflexivity. }
  destruct (type_is data "content_chunk") eqn:E2.
  { rewrite (type_is_other data "content_chunk" "message_end" E2)
      by reflexivity.
    rewrite or_else_content. reflexivity. }
  destruct (type_is data "citation") eqn:E3.
  { rewrite (type_is_other data "citation" "message_end" E3)
      by reflexivity. reflexivity. }
  destruct (type_is data "message_end"); reflexivity.
Qed.

(** What the body of the loop does, case by case. *)
Lemma process_response_eq (response : json) (st : state) :
  process_response response st
  = if truthy response then
      match (match response with
             | JStr s => JSON_parse (trim (strip_data_label s))
             | _ => Some response
             end) with
      | None =>
          console_error (ErrorProcessingChunk syntax_error response) st
      | Some data =>
          if truthy data then
            let st1 := if type_is data "message_end"
                       then after set_streamEnded st else st in
            if closed st then
              if streamEnded st1 then (Break, st1)
              else console_error
                     (ErrorProcessingChunk invalid_state_error response) st1
            else
              if streamEnded st1
              then (Return, after close (after (enqueue (transformed data)) st1))
              else (Normal tt, after (enqueue (transformed data)) st1)
          else (Continue, st)
      end
    else (Normal tt, st).
Proof.
  unfold process_response.
  destruct (truthy response); [|reflexivity].
  unfold try_catch at 1. unfold bind at 1. unfold decode.
  destruct (match response with
            | JStr s => JSON_parse (trim (strip_data_label s))
            | _ => Some response
            end) as [data|] eqn:Ed.
  - assert (Hd : (match response with
                  | JStr s =>
                      match JSON_parse (trim (strip_data_label s)) with
                      | Some data => ret data
                      | None => throw syntax_error
                      end
                  | _ => ret response
                  end) st = (Normal data, st)).
    { destruct response; try (injection Ed as <-; reflexivity).
      rewrite Ed. reflexivity. }
    rewrite Hd.
    destruct (truthy data); [|reflexivity]. cbn [negb].
    unfold bind at 1. rewrite transform_eq.
    set (st1 := if type_is data "message_end"
                then after set_streamEnded st else st).
    assert (Hc : closed st1 = closed st).
    { unfold st1. destruct (type_is data "message_end"); reflexivity. }
    unfold bind at 1. unfold try_catch at 1. unfold enqueue at 1.
    cbv zeta. rewrite Hc.
    destruct (closed st) eqn:Ec.
    + unfold bind at 1. unfold get_streamEnded at 1.
      change (code_is_not_invalid_state invalid_state_error) with false.
      cbn [orb]. destruct (streamEnded st1); reflexivity.
    + unfold bind at 1. unfold get_streamEnded at 1.
      unfold after, enqueue. rewrite Hc. cbn [snd streamEnded].
      destruct (streamEnded st1) eqn:Ee; [|reflexivity].
      unfold bind, try_catch, close. cbn [closed]. reflexivity.
  - assert (Hd : (match response with
                  | JStr s =>
                      match JSON_parse (trim (strip_data_label s)) with
                      | Some data => ret data
                      | None => throw syntax_error
                      end
                  | _ => ret response
                  end) st = (Throw syntax_error, st)).
    { destruct response; try discriminate. rewrite Ed. reflexivity. }
    rewrite Hd. reflexivity.
Qed.

Lemma pull_then (body : M unit) (st : state) :
  (pull ;; body) st = body (after pull st).
Proof. reflexivity. Qed.

Lemma for_await_yield (response : json) (rest : list step) (fin : ending)
  (body : json -> M unit) (st : state) :
  for_await (Yield response :: rest) fin body st
  = match (pull ;; body response) st with
    | (Normal _, st') => for_await rest fin body st'
    | (Continue, st') => for_await rest fin body st'
    | (Break, st') => (Normal tt, st')
    | (Throw e, st') => (Throw e, st')
    | (Return, st') => (Return, st')
    end.
Proof. reflexivity. Qed.

Lemma for_await_hangup (rest : list step) (fin : ending)
  (body : json -> M unit) (st : state) :
  for_await (Hangup :: rest) fin body st
  = for_await rest fin body (after hangup st).
Proof. reflexivity. Qed.

(** An item that is not [message_end], on an open sink: its frame, if it
    has one, is written and the loop goes on. *)
Lemma step_forwarded (response : json) (st : state) :
  closed st = false -> streamEnded st = false ->
  is_message_end response = false ->
  exists c st',
    (pull ;; process_response response) st = (c, st')
    /\ (c = Normal tt \/ c = Continue)
    /\ closed st' = false /\ streamEnded st' = false
    /\ frames st' = frames st ++ forwarded_item response
    /\ closes st' = closes st /\ pulled st' = S (pulled st).
Proof.
  intros Hc He Hend. rewrite pull_then, process_response_eq.
  unfold is_message_end, forwarded_item, decoded in *.
  destruct (truthy response) eqn:Et.
  2:{ do 2 eexists. split; [reflexivity|]. cbn. rewrite app_nil_r. auto 10. }
  assert (Hgo : forall data,
             truthy data = true -> type_is data "message_end" = false ->
             exists c st',
               (let st1 := if type_is data "message_end"
                           then after set_streamEnded (after pull st)
                           else after pull st in
                if closed (after pull st) then
                  if streamEnded st1 then (Break, st1)
                  else console_error
                         (ErrorProcessingChunk invalid_state_error response)
                         st1
                else
                  if streamEnded st1
                  then (Return,
                        after close (after (enqueue (transformed data)) st1))
                  else (Normal tt, after (enqueue (transformed data)) st1))
               = (c, st')
               /\ (c = Normal tt \/ c = Continue)
               /\ closed st' = false /\ streamEnded st' = false
               /\ frames st' = frames st ++ [transformed data]
               /\ closes st' = closes st /\ pulled st' = S (pulled st)).
  { intros data Hd Hne. rewrite Hne. cbv zeta.
    change (closed (after pull st)) with (closed st).
    change (streamEnded (after pull st)) with (streamEnded st).
    rewrite Hc, He. do 2 eexists. split; [reflexivity|].
    unfold after, enqueue. cbn. rewrite Hc. cbn. auto 10. }
  destruct response as [| | |s| |];
    try discriminate;
    try (rewrite Et; apply Hgo; [exact Et | exact Hend]).
  destruct (JSON_parse (trim (strip_data_label s))) as [data|].
  - destruct (truthy data) eqn:Ed.
    + apply Hgo; [exact Ed | exact Hend].
    + do 2 eexists. split; [reflexivity|]. cbn. rewrite app_nil_r. auto 10.
  - do 2 eexists. split; [reflexivity|]. cbn. rewrite app_nil_r. auto 10.
Qed.

(** A [message_end] item on an open sink: its frame is written, the sink is
    closed and [start] returns. *)
Lemma step_message_end (response data : json) (st : state) :
  closed st = false ->
  decoded response = Some data -> type_is data "message_end" = true ->
  exists st',
    (pull ;; process_response response) st = (Return, st')
    /\ closed st' = true /\ streamEnded st' = true
    /\ frames st' = frames st ++ [transformed data]
    /\ closes st' = S (closes st) /\ pulled st' = S (pulled st).
Proof.
  intros Hc Hd Hend. rewrite pull_then, process_response_eq.
  unfold decoded in Hd.
  destruct (truthy response) eqn:Et; [|discriminate].
  assert (Hgo :
    exists st',
      (let st1 := if type_is data "message_end"
                  then after set_streamEnded (after pull st)
                  else after pull st in
       if closed (after pull st) then
         if streamEnded st1 then (Break, st1)
         else console_error
                (ErrorProcessingChunk invalid_state_error response) st1
       else
         if streamEnded st1
         then (Return, after close (after (enqueue (transformed data)) st1))
         else (Normal tt, after (enqueue (transformed data)) st1))
      = (Return, st')
      /\ closed st' = true /\ streamEnded st' = true
      /\ frames st' = frames st ++ [transformed data]
      /\ closes st' = S (closes st) /\ pulled st' = S (pulled st)).
  { rewrite Hend. cbv zeta.
    change (closed (after pull st)) with (closed st). rewrite Hc.
    change (streamEnded (after set_streamEnded (after pull st))) with true.
    eexists. split; [reflexivity|].
    unfold after, close, enqueue. cbn. rewrite Hc. cbn. auto 10. }
  destruct response as [| | |s| |]; try discriminate;
    try (injection Hd as <-; rewrite Et; exact Hgo).
  cbv beta iota.
  destruct (JSON_parse (trim (strip_data_label s))) as [d|]; [|discriminate].
  destruct (truthy d) eqn:Ed; [|discriminate].
  injection Hd as Hd. subst d. exact Hgo.
Qed.

Lemma no_hangup_cons (s : step) (l : list step) :
  no_hangup (s :: l) -> is_hangup s = false /\ no_hangup l.
Proof. unfold no_hangup. cbn. intros H. apply orb_false_iff in H. exact H. Qed.

Lemma no_message_end_cons (s : step) (l : list step) :
  no_message_end (s :: l) ->
  is_yield_of is_message_end s = false /\ no_message_end l.
Proof.
  unfold no_message_end. cbn. intros H. apply orb_false_iff in H. exact H.
Qed.

Lemma no_error_event_cons (s : step) (l : list step) :
  no_error_event (s :: l) ->
  is_yield_of is_error_event s = false /\ no_error_event l.
Proof.
  unfold no_error_event. cbn. intros H. apply orb_false_iff in H. exact H.
Qed.

(** The loop over items that are forwarded, on an open sink. *)
Lemma for_await_forwarded (pre : list step) :
  forall (rest : list step) (fin : ending) (st : state),
    no_hangup pre -> no_message_end pre ->
    closed st = false -> streamEnded st = false ->
    exists st',
      for_await (pre ++ rest) fin process_response st
      = for_await rest fin process_response st'
      /\ closed st' = false /\ streamEnded st' = false
      /\ frames st' = frames st ++ forwarded pre
      /\ closes st' = closes st /\ pulled st' = pulled st + length pre.
Proof.
  induction pre as [|s pre IH]; intros rest fin st Hh Hm Hc He.
  - exists st. cbn. rewrite app_nil_r, Nat.add_0_r. auto 10.
  - apply no_hangup_cons in Hh. destruct Hh as [Hs Hh].
    apply no_message_end_cons in Hm. destruct Hm as [Hsm Hm].
    destruct s as [response|]; [|discriminate].
    cbn in Hsm.
    destruct (step_forwarded response st Hc He Hsm)
      as (c & st1 & Hstep & Hcase & Hc1 & He1 & Hf1 & Hcl1 & Hp1).
    destruct (IH rest fin st1 Hh Hm Hc1 He1)
      as (st' & Hloop & Hc' & He' & Hf' & Hcl' & Hp').
    exists st'. split.
    + cbn [app]. rewrite for_await_yield, Hstep. destruct Hcase as [-> | ->]; exact Hloop.
    + cbn [forwarded length]. rewrite Hf', Hf1, Hcl', Hcl1, Hp', Hp1.
      rewrite app_assoc. repeat split; auto; lia.
Qed.

(** The type of a frame of the table. *)
Lemma is_terminal_frame_transformed (data : json) :
  is_terminal_frame (transformed data)
  = type_is data "message_end" || type_is data "error".
Proof.
  unfold transformed.
  destruct (type_is data "message_start") eqn:E1.
  { rewrite (type_is_other data "message_start" "message_end" E1),
      (type_is_other data "message_start" "error" E1) by reflexivity.
    destruct (get data (js "id")), (get data (js "model")),
      (get data (js "role")); reflexivity. }
  destruct (type_is data "content_chunk") eqn:E2.
  { rewrite (type_is_other data "content_chunk" "message_end" E2),
      (type_is_other data "content_chunk" "error" E2) by reflexivity.
    reflexivity. }
  destruct (type_is data "citation") eqn:E3.
  { rewrite (type_is_other data "citation" "message_end" E3),
      (type_is_other data "citation" "error" E3) by reflexivity.
    destruct (get data (js "citation")); reflexivity. }
  destruct (type_is data "message_end") eqn:E4.
  - destruct (get data (js "finish_reason")), (get data (js "usage"));
      reflexivity.
  - unfold is_terminal_frame. rewrite E4. reflexivity.
Qed.

Lemma terminal_frames_app (a b : list json) :
  terminal_frames (a ++ b) = terminal_frames a + terminal_frames b.
Proof.
  unfold terminal_frames. rewrite filter_app, length_app. reflexivity.
Qed.

Lemma terminal_frames_forwarded (steps : list step) :
  no_message_end steps -> no_error_event steps ->
  terminal_frames (forwarded steps) = 0.
Proof.
  induction steps as [|s steps IH]; intros Hm He; [reflexivity|].
  apply no_message_end_cons in Hm. destruct Hm as [Hsm Hm].
  apply no_error_event_cons in He. destruct He as [Hse He].
  destruct s as [response|]; cbn [forwarded]; [|auto].
  rewrite terminal_frames_app, (IH Hm He).
  cbn in Hsm, Hse. unfold is_message_end in Hsm. unfold is_error_event in Hse.
  unfold forwarded_item. destruct (decoded response) as [data|];
    [|reflexivity].
  unfold terminal_frames. cbn [filter].
  rewrite is_terminal_frame_transformed, Hsm, Hse. reflexivity.
Qed.

(** A [close] whose ERR_INVALID_STATE is absorbed: the sink is closed
    afterwards, and it is closed by this call only when it was open. *)
Lemma guarded_close_eq (h : exn -> M unit) (st : state) :
  h invalid_state_error = ret tt ->
  try_catch close h st
  = (Normal tt, if closed st then st else after close st).
Proof.
  intros Hh. unfold try_catch, close, after.
  destruct (closed st) eqn:Ec; cbn; rewrite ?Ec; cbn.
  - rewrite Hh. reflexivity.
  - reflexivity.
Qed.

Lemma guarded_enqueue_eq (frame : json) (h : exn -> M unit) (st : state) :
  h invalid_state_error = ret tt ->
  try_catch (enqueue frame) h st
  = (Normal tt, if closed st then st else after (enqueue frame) st).
Proof.
  intros Hh. unfold try_catch, enqueue, after.
  destruct (closed st) eqn:Ec; cbn; rewrite ?Ec; cbn.
  - rewrite Hh. reflexivity.
  - reflexivity.
Qed.

(** The part of [start] after the loop. *)
Lemma start_eq (chatStream : upstream) (st : state) :
  start chatStream st
  = match for_await (steps chatStream) (fin chatStream) process_response st
    with
    | (Normal _, st1) =>
        (Normal tt,
         if streamEnded st1 then st1
         else if closed st1 then st1 else after close st1)
    | (Throw error, st1) =>
        let st2 := after (console_error (StreamError error)) st1 in
        let st3 :=
          if closed st2 then st2
          else after (enqueue (error_frame (extractErrorMessage error))) st2 in
        (Normal tt, if closed st3 then st3 else after close st3)
    | (Break, st1) => (Break, st1)
    | (Continue, st1) => (Continue, st1)
    | (Return, st1) => (Return, st1)
    end.
Proof.
  unfold start. unfold try_catch at 1. unfold bind at 1.
  destruct (for_await (steps chatStream) (fin chatStream) process_response st)
    as [[[]|error| | |] st1]; try reflexivity.
  - unfold bind, get_streamEnded.
    destruct (streamEnded st1); [reflexivity|]. cbn [negb].
    rewrite guarded_close_eq by reflexivity. reflexivity.
  - unfold bind at 1.
    change (console_error (StreamError error) st1)
      with (Normal tt, after (console_error (StreamError error)) st1).
    cbv iota beta. unfold bind at 1.
    rewrite guarded_enqueue_eq by reflexivity. cbv iota beta.
    rewrite guarded_close_eq by reflexivity. reflexivity.
Qed.

(** C1, as the code has it.  On a sink the consumer leaves open:
    - when the first [message_end] of the upstream sequence is the item [e],
      the frames written are those of the items before it and then the
      [message_end] frame, which is the last one; no item after [e] is
      taken; the sink is closed by one call of [close]; when no item before
      [e] is an event of the type [error] (which would be passed through),
      the [message_end] frame is the only terminal frame;
    - when the sequence is exhausted without a [message_end], the frames of
      all items are written and the sink is closed by one call of [close],
      without a terminal frame of the bridge's own. *)
Theorem bridge_terminates_once (upstream_steps : list step) (ending_ : ending) :
  no_hangup upstream_steps ->
  (forall pre e data post,
      upstream_steps = pre ++ Yield e :: post ->
      no_message_end pre ->
      decoded e = Some data -> type_is data "message_end" = true ->
      let '(out, st) :=
        bridge {| steps := upstream_steps; fin := ending_ |} in
      out = Fulfilled
      /\ frames st = forwarded pre ++ [transformed data]
      /\ pulled st = length pre + 1
      /\ closed st = true /\ closes st = 1
      /\ (no_error_event pre -> terminal_frames (frames st) = 1))
  /\ (no_message_end upstream_steps -> ending_ = Exhausted ->
      let '(out, st) :=
        bridge {| steps := upstream_steps; fin := ending_ |} in
      out = Fulfilled
      /\ frames st = forwarded upstream_steps
      /\ pulled st = length upstream_steps
      /\ closed st = true /\ closes st = 1).
Proof.
  intros Hh. split.
  - intros pre e data post -> Hm Hd Hend.
    assert (Hhpre : no_hangup pre).
    { unfold no_hangup in *. rewrite existsb_app in Hh.
      apply orb_false_iff in Hh. tauto. }
    unfold bridge. rewrite start_eq. cbn [steps fin].
    destruct (for_await_forwarded pre (Yield e :: post) ending_ initial_state
                Hhpre Hm eq_refl eq_refl)
      as (st1 & Hloop & Hc1 & He1 & Hf1 & Hcl1 & Hp1).
    rewrite Hloop.
    destruct (step_message_end e data st1 Hc1 Hd Hend)
      as (st2 & Hstep & Hc2 & He2 & Hf2 & Hcl2 & Hp2).
    rewrite for_await_yield, Hstep.
    rewrite Hf2, Hf1, Hp2, Hp1, Hcl2, Hcl1. cbn [frames pulled closes
      initial_state app].
    repeat split; auto; try lia.
    intros Herr. rewrite terminal_frames_app.
    rewrite (terminal_frames_forwarded pre Hm Herr).
    unfold terminal_frames. cbn [filter].
    rewrite is_terminal_frame_transformed, Hend. reflexivity.
  - intros Hm ->.
    unfold bridge. rewrite start_eq. cbn [steps fin].
    destruct (for_await_forwarded upstream_steps [] Exhausted initial_state
                Hh Hm eq_refl eq_refl)
      as (st1 & Hloop & Hc1 & He1 & Hf1 & Hcl1 & Hp1).
    rewrite app_nil_r in Hloop. rewrite Hloop.
    cbn [for_await]. unfold ret. rewrite He1, Hc1.
    unfold after, close. rewrite Hc1. cbn.
    rewrite Hf1, Hcl1, Hp1. cbn. auto 10.
Qed.

Lemma bridge_terminates_once_witness :
  let upstream_steps :=
    [Yield (chunk_event "Hi"); Yield message_end_event;
     Yield (chunk_event "late")] in
  no_hangup upstream_steps
  /\ no_message_end [Yield (chunk_event "Hi")]
  /\ no_error_event [Yield (chunk_event "Hi")]
  /\ decoded message_end_event = Some message_end_event
  /\ type_is message_end_event "message_end" = true
  /\ (let '(out, st) :=
        bridge {| steps := upstream_steps; fin := Exhausted |} in
      out = Fulfilled
      /\ frames st = forwarded [Yield (chunk_event "Hi")]
                     ++ [transformed message_end_event]
      /\ pulled st = 2
      /\ closed st = true /\ closes st = 1
      /\ terminal_frames (frames st) = 1).
Proof.
  repeat (split; [reflexivity|]).
  pose proof (bridge_terminates_once
                [Yield (chunk_event "Hi"); Yield message_end_event;
                 Yield (chunk_event "late")] Exhausted eq_refl) as [H _].
  specialize (H [Yield (chunk_event "Hi")] message_end_event
                message_end_event [Yield (chunk_event "late")]
                eq_refl eq_refl eq_refl eq_refl).
  destruct (bridge _) as [out st].
  destruct H as (H1 & H2 & H3 & H4 & H5 & H6).
  repeat split; auto.
Defined.

(** C1 as it is worded fails on a sequence with one [message_end]
    after an event of the unknown type [error]: that event is passed through
    as it is, so two frames of a terminal type are written. *)
Lemma bridge_passthrough_error_counterexample :
  let upstream_steps := [Yield error_typed_event; Yield message_end_event] in
  no_hangup upstream_steps
  /\ length (filter (is_yield_of is_message_end) upstream_steps) = 1
  /\ frames (snd (bridge {| steps := upstream_steps; fin := Exhausted |}))
     = [error_typed_event; transformed message_end_event]
  /\ terminal_frames
       (frames (snd (bridge {| steps := upstream_steps; fin := Exhausted |})))
     = 2.
Proof. repeat split; vm_compute; reflexivity. Qed.

(** C5, as the code has it.  When the upstream stream raises [error] after
    items none of which is [message_end], on a sink the consumer leaves
    open: the frames of the items are followed by one error frame whose
    message is the one the unwrapper extracts from [error]; the sink is
    closed by one call of [close]; [start] is fulfilled. *)
Theorem bridge_upstream_raises (upstream_steps : list step) (error : json) :
  no_hangup upstream_steps -> no_message_end upstream_steps ->
  let '(out, st) :=
    bridge {| steps := upstream_steps; fin := Raises error |} in
  out = Fulfilled
  /\ frames st = forwarded upstream_steps
                 ++ [error_frame (extractErrorMessage error)]
  /\ is_terminal_frame (error_frame (extractErrorMessage error)) = true
  /\ (no_error_event upstream_steps -> terminal_frames (frames st) = 1)
  /\ pulled st = length upstream_steps
  /\ closed st = true /\ closes st = 1
  /\ In (StreamError error) (console st).
Proof.
  intros Hh Hm. unfold bridge. rewrite start_eq. cbn [steps fin].
  destruct (for_await_forwarded upstream_steps [] (Raises error)
              initial_state Hh Hm eq_refl eq_refl)
    as (st1 & Hloop & Hc1 & He1 & Hf1 & Hcl1 & Hp1).
  rewrite app_nil_r in Hloop. rewrite Hloop.
  cbn [for_await]. unfold throw. cbv zeta.
  change (closed (after (console_error (StreamError error)) st1))
    with (closed st1).
  rewrite Hc1.
  unfold after at 1 2. unfold close, enqueue, console_error. cbn.
  rewrite Hc1. cbn. rewrite Hf1, Hcl1, Hp1. cbn.
  repeat split; auto.
  - intros Herr.
    change (terminal_frames
              (forwarded upstream_steps
                 ++ [error_frame (extractErrorMessage error)]) = 1).
    rewrite terminal_frames_app.
    rewrite (terminal_frames_forwarded upstream_steps Hm Herr). reflexivity.
  - apply in_or_app. right. left. reflexivity.
Qed.

Lemma bridge_upstream_raises_witness :
  let upstream_steps := [Yield (chunk_event "a"); Yield (chunk_event "b")] in
  let error := error_with_message (jsq "{'error':{'message':'bad input'}}") in
  no_hangup upstream_steps /\ no_message_end upstream_steps
  /\ (let '(out, st) :=
        bridge {| steps := upstream_steps; fin := Raises error |} in
      out = Fulfilled
      /\ frames st = forwarded upstream_steps
                     ++ [error_frame (JStr (js "bad input"))]
      /\ closed st = true /\ closes st = 1).
Proof.
  repeat (split; [reflexivity|]).
  pose proof (bridge_upstream_raises
                [Yield (chunk_event "a"); Yield (chunk_event "b")]
                (error_with_message (jsq "{'error':{'message':'bad input'}}"))
                eq_refl eq_refl) as H.
  destruct (bridge _) as [out st].
  destruct H as (H1 & H2 & _ & _ & _ & H3 & H4 & _).
  repeat split; auto.
Defined.

(** C5 as it is worded fails when it is the transformation of an item
    that raises: the error is logged, the item is skipped, the stream goes
    on and ends without an error frame. *)
Lemma bridge_transform_error_counterexample :
  let upstream_steps :=
    [Yield (chunk_event "a"); Yield (JStr (js "not json"));
     Yield (chunk_event "b")] in
  fst (decode (JStr (js "not json")) initial_state) = Throw syntax_error
  /\ bridge {| steps := upstream_steps; fin := Exhausted |}
     = (Fulfilled,
        {| closed := true;
           frames := [transformed (chunk_event "a");
                      transformed (chunk_event "b")];
           closes := 1; streamEnded := false;
           console := [ErrorProcessingChunk syntax_error
                         (JStr (js "not json"))];
           pulled := 3 |})
  /\ terminal_frames
       (frames (snd (bridge {| steps := upstream_steps; fin := Exhausted |})))
     = 0.
Proof. repeat split; vm_compute; reflexivity. Qed.

(** *** The sink on every run, whatever the consumer does *)

Lemma sink_evolves_refl (st : state) : sink_evolves st st.
Proof. unfold sink_evolves. split; intros H; [|left]; auto. Qed.

Lemma sink_evolves_trans (a b c : state) :
  closes a <= 1 -> (closes a = 1 -> closed a = true) ->
  sink_evolves a b -> sink_evolves b c -> sink_evolves a c.
Proof.
  unfold sink_evolves. intros Hle Hone [H1 H2] [H3 H4]. split.
  - intros Ha. destruct (H1 Ha) as [Hb Hcl]. destruct (H3 Hb) as [Hc Hcl'].
    split; [exact Hc | lia].
  - intros Ha. destruct (H2 Ha) as [[Hb Hcl] | [Hb Hcl]].
    + destruct (H4 Hb) as [[Hc Hcl'] | [Hc Hcl']]; [left | right];
        split; auto; lia.
    + destruct (H3 Hb) as [Hc Hcl']. right. split; auto; lia.
Qed.

(** The body of the loop never throws: what it rethrows from the write of a
    frame is caught by its own handler, logged, and the loop goes on. *)
Lemma process_response_completion (response : json) (st : state) :
  match process_response response st with
  | (Throw _, _) => False
  | (Normal _, st') | (Continue, st') =>
      sink_evolves st st' /\ closes st' = closes st
      /\ (streamEnded st = false -> streamEnded st' = false)
  | (Break, st') =>
      closed st = true /\ closed st' = true /\ closes st' = closes st
  | (Return, st') =>
      closed st = false /\ closed st' = true /\ closes st' = S (closes st)
  end.
Proof.
  rewrite process_response_eq.
  assert (Hsame : sink_evolves st st /\ closes st = closes st
                  /\ (streamEnded st = false -> streamEnded st = false)).
  { split; [apply sink_evolves_refl | auto]. }
  destruct (truthy response); [|exact Hsame].
  destruct (match response with
            | JStr s => JSON_parse (trim (strip_data_label s))
            | _ => Some response
            end) as [data|].
  2:{ cbn. split; [|auto]. unfold sink_evolves. cbn.
      split; intros H; [|left]; auto. }
  destruct (truthy data); [|exact Hsame].
  cbv zeta.
  destruct (type_is data "message_end").
  - change (streamEnded (after set_streamEnded st)) with true.
    destruct (closed st) eqn:Ec.
    + cbn. auto.
    + unfold after, close, enqueue. cbn. rewrite Ec. cbn. auto.
  - destruct (closed st) eqn:Ec.
    + destruct (streamEnded st) eqn:Ee.
      * auto.
      * cbn. split; [|auto]. unfold sink_evolves. cbn. rewrite Ec.
        split; intros H; [|discriminate]; auto.
    + destruct (streamEnded st) eqn:Ee.
      * unfold after, close, enqueue. cbn. rewrite Ec. cbn. auto.
      * unfold after, enqueue. rewrite Ec. cbn. split; [|auto].
        unfold sink_evolves. cbn. rewrite Ec.
        split; intros H; [discriminate | left]; auto.
Qed.

(** The loop: it ends normally with [streamEnded] unset or with the sink
    closed, or returns with the sink closed, or throws what the upstream
    stream raised. *)
Lemma for_await_completion (upstream_steps : list step) :
  forall (ending_ : ending) (st : state),
    streamEnded st = false ->
    closes st <= 1 -> (closes st = 1 -> closed st = true) ->
    match for_await upstream_steps ending_ process_response st with
    | (Normal _, st') =>
        sink_evolves st st' /\ (streamEnded st' = false \/ closed st' = true)
    | (Return, st') => sink_evolves st st' /\ closed st' = true
    | (Throw e, st') => sink_evolves st st' /\ ending_ = Raises e
    | (Break, _) | (Continue, _) => False
    end.
Proof.
  induction upstream_steps as [|s rest IH]; intros ending_ st He Hle Hone.
  - cbn. destruct ending_; cbn; split; auto using sink_evolves_refl.
  - destruct s as [response|].
    + rewrite for_await_yield, pull_then.
      pose proof (process_response_completion response (after pull st)) as Hb.
      change (closed (after pull st)) with (closed st) in Hb.
      change (closes (after pull st)) with (closes st) in Hb.
      change (streamEnded (after pull st)) with (streamEnded st) in Hb.
      destruct (process_response response (after pull st))
        as [[[]|e| | |] st1]; try contradiction.
      * destruct Hb as (Hev & Hcl & Hend).
        assert (Hone1 : closes st1 = 1 -> closed st1 = true).
        { intros H1. rewrite Hcl in H1. specialize (Hone H1).
          destruct Hev as [Hev _]. apply Hev. exact Hone. }
        specialize (IH ending_ st1 (Hend He) ltac:(lia) Hone1).
        destruct (for_await rest ending_ process_response st1)
          as [[[]|e| | |] st2]; try contradiction;
          destruct IH as [IH1 IH2]; split; auto;
          apply (sink_evolves_trans st st1 st2); auto.
      * destruct Hb as (Hc & Hc1 & Hcl).
        split; [|right; exact Hc1].
        unfold sink_evolves. rewrite Hc. split; intros H; [|discriminate].
        auto.
      * destruct Hb as (Hev & Hcl & Hend).
        assert (Hone1 : closes st1 = 1 -> closed st1 = true).
        { intros H1. rewrite Hcl in H1. specialize (Hone H1).
          destruct Hev as [Hev _]. apply Hev. exact Hone. }
        specialize (IH ending_ st1 (Hend He) ltac:(lia) Hone1).
        destruct (for_await rest ending_ process_response st1)
          as [[[]|e| | |] st2]; try contradiction;
          destruct IH as [IH1 IH2]; split; auto;
          apply (sink_evolves_trans st st1 st2); auto.
      * destruct Hb as (Hc & Hc1 & Hcl).
        split; [|exact Hc1].
        unfold sink_evolves. rewrite Hc. split; intros H; [discriminate|].
        right. split; [exact Hc1 | lia].
    + rewrite for_await_hangup.
      assert (Hev : sink_evolves st (after hangup st)).
      { unfold sink_evolves. cbn. split; intros H; [|right]; auto. }
      specialize (IH ending_ (after hangup st) He Hle ltac:(reflexivity)).
      destruct (for_await rest ending_ process_response (after hangup st))
        as [[[]|e| | |] st2]; try contradiction;
        destruct IH as [IH1 IH2]; split; auto;
        apply (sink_evolves_trans st (after hangup st) st2); auto.
Qed.

(** On every upstream sequence and whatever the consumer does, [start] is
    fulfilled (no exception escapes), the sink is closed in the end, and
    [close] succeeded at most once. *)
Lemma bridge_fulfilled_and_closed (chatStream : upstream) :
  let '(out, st) := bridge chatStream in
  out = Fulfilled /\ closed st = true /\ closes st <= 1.
Proof.
  unfold bridge. rewrite start_eq.
  pose proof (for_await_completion (steps chatStream) (fin chatStream)
                initial_state eq_refl ltac:(cbn; lia)
                ltac:(cbn; discriminate)) as H.
  destruct (for_await (steps chatStream) (fin chatStream) process_response
              initial_state) as [[[]|e| | |] st1]; try contradiction.
  - destruct H as [[_ Hev] Hend]. specialize (Hev eq_refl). cbn in Hev.
    destruct (streamEnded st1) eqn:Ee.
    + destruct Hend as [Hend|Hend]; [discriminate|].
      split; [reflexivity|]. split; [exact Hend|].
      destruct Hev as [[_ H]|[_ H]]; lia.
    + destruct (closed st1) eqn:Ec.
      * split; [reflexivity|]. split; [exact Ec|].
        destruct Hev as [[_ H]|[_ H]]; lia.
      * unfold after, close. rewrite Ec. cbn.
        destruct Hev as [[_ H]|[H _]]; [|discriminate]. repeat split; lia.
  - destruct H as [[_ Hev] _]. specialize (Hev eq_refl). cbn in Hev.
    cbv zeta.
    change (closed (after (console_error (StreamError e)) st1))
      with (closed st1).
    destruct (closed st1) eqn:Ec.
    + change (closed (after (console_error (StreamError e)) st1))
        with (closed st1). rewrite Ec. cbn.
      split; [reflexivity|]. split; [exact Ec|].
      destruct Hev as [[_ H]|[_ H]]; lia.
    + unfold after, close, enqueue, console_error. cbn. rewrite Ec. cbn.
      destruct Hev as [[_ H]|[H _]]; [|discriminate]. repeat split; lia.
  - destruct H as [[_ Hev] Hc]. specialize (Hev eq_refl). cbn in Hev.
    split; [reflexivity|]. split; [exact Hc|].
    destruct Hev as [[_ H]|[_ H]]; lia.
Qed.

(** Once the consumer has hung up and no [message_end] comes, every item
    is still taken, nothing is written, and the only thing logged for an
    item is an error of that chunk. *)
Lemma for_await_after_hangup (upstream_steps : list step) :
  forall st,
    closed st = true -> streamEnded st = false ->
    no_message_end upstream_steps ->
    exists st',
      for_await upstream_steps Exhausted process_response st = (Normal tt, st')
      /\ closed st' = true /\ streamEnded st' = false
      /\ frames st' = frames st /\ closes st' = closes st
      /\ pulled st' = pulled st + yields upstream_steps
      /\ existsb is_stream_error (console st')
         = existsb is_stream_error (console st).
Proof.
  induction upstream_steps as [|s rest IH]; intros st Hc He Hm.
  - exists st. cbn. rewrite Nat.add_0_r. auto 10.
  - apply no_message_end_cons in Hm. destruct Hm as [Hsm Hm].
    destruct s as [response|].
    + rewrite for_await_yield, pull_then, process_response_eq.
      cbn in Hsm. unfold is_message_end, decoded in Hsm.
      change (closed (after pull st)) with (closed st). rewrite Hc.
      assert (Hlog : forall l,
                 is_stream_error l = false ->
                 exists st',
                   for_await rest Exhausted process_response
                     (after (console_error l) (after pull st))
                   = (Normal tt, st')
                   /\ closed st' = true /\ streamEnded st' = false
                   /\ frames st' = frames st /\ closes st' = closes st
                   /\ pulled st' = pulled st + yields (Yield response :: rest)
                   /\ existsb is_stream_error (console st')
                      = existsb is_stream_error (console st)).
      { intros l Hl.
        destruct (IH (after (console_error l) (after pull st)) Hc He Hm)
          as (st' & H1 & H2 & H3 & H4 & H5 & H6 & H7).
        exists st'. split; [exact H1|]. rewrite H4, H5, H6, H7.
        cbn [after snd console_error pull console pulled frames closes
             yields filter negb is_hangup length].
        rewrite existsb_app. cbn [existsb]. rewrite Hl, !orb_false_r.
        repeat split; auto; lia. }
      assert (Hskip :
                 exists st',
                   for_await rest Exhausted process_response (after pull st)
                   = (Normal tt, st')
                   /\ closed st' = true /\ streamEnded st' = false
                   /\ frames st' = frames st /\ closes st' = closes st
                   /\ pulled st' = pulled st + yields (Yield response :: rest)
                   /\ existsb is_stream_error (console st')
                      = existsb is_stream_error (console st)).
      { destruct (IH (after pull st) Hc He Hm)
          as (st' & H1 & H2 & H3 & H4 & H5 & H6 & H7).
        exists st'. split; [exact H1|]. rewrite H4, H5, H6, H7.
        cbn [after snd pull console pulled frames closes
             yields filter negb is_hangup length].
        repeat split; auto; lia. }
      destruct (truthy response) eqn:Et; [|exact Hskip].
      assert (Hdata : forall data,
                 truthy data = true -> type_is data "message_end" = false ->
                 exists st',
                   (let '(c, st1) :=
                      (let st1 := if type_is data "message_end"
                                  then after set_streamEnded (after pull st)
                                  else after pull st in
                       if streamEnded st1 then (Break, st1)
                       else console_error
                              (ErrorProcessingChunk invalid_state_error
                                 response) st1) in
                    match c with
                    | Normal _ | Continue =>
                        for_await rest Exhausted process_response st1
                    | Break => (Normal tt, st1)
                    | Throw e => (Throw e, st1)
                    | Return => (Return, st1)
                    end)
                   = (Normal tt, st')
                   /\ closed st' = true /\ streamEnded st' = false
                   /\ frames st' = frames st /\ closes st' = closes st
                   /\ pulled st' = pulled st + yields (Yield response :: rest)
                   /\ existsb is_stream_error (console st')
                      = existsb is_stream_error (console st)).
      { intros data Hd Hne. rewrite Hne. cbv zeta.
        change (streamEnded (after pull st)) with (streamEnded st).
        rewrite He.
        apply (Hlog (ErrorProcessingChunk invalid_state_error response)
                 eq_refl). }
      destruct response as [| | |s| |]; try discriminate;
        try (rewrite Et; apply Hdata; [exact Et | exact Hsm]).
      cbv beta iota.
      destruct (JSON_parse (trim (strip_data_label s))) as [data|].
      * destruct (truthy data) eqn:Ed.
        -- apply Hdata; [exact Ed | exact Hsm].
        -- exact Hskip.
      * apply (Hlog (ErrorProcessingChunk syntax_error (JStr s)) eq_refl).
    + rewrite for_await_hangup.
      destruct (IH (after hangup st) eq_refl He Hm)
        as (st' & H1 & H2 & H3 & H4 & H5 & H6 & H7).
      exists st'. split; [exact H1|]. rewrite H4, H5, H6, H7.
      cbn. auto 10.
Qed.

Lemma bridge_after_hangup (upstream_steps : list step) :
  no_message_end upstream_steps ->
  let '(out, st) :=
    bridge {| steps := Hangup :: upstream_steps; fin := Exhausted |} in
  out = Fulfilled /\ frames st = [] /\ closes st = 0
  /\ pulled st = yields upstream_steps
  /\ existsb is_stream_error (console st) = false.
Proof.
  intros Hm. unfold bridge. rewrite start_eq. cbn [steps fin].
  rewrite for_await_hangup.
  destruct (for_await_after_hangup upstream_steps (after hangup initial_state)
              eq_refl eq_refl Hm)
    as (st' & H1 & H2 & H3 & H4 & H5 & H6 & H7).
  rewrite H1, H3, H2, H4, H5, H6, H7. cbn. auto.
Qed.

(** C6, the case the code misses: the consumer hangs up before any terminal
    condition.  Each write fails with ERR_INVALID_STATE and is rethrown, but
    the rethrown error is caught by the handler of the item: it is logged as
    an error of the chunk, the next item is taken, and the handler of stream
    errors never runs. *)
Theorem bridge_sink_closed_before_end :
  let upstream_steps :=
    [Hangup; Yield (chunk_event "a"); Yield (chunk_event "b")] in
  bridge {| steps := upstream_steps; fin := Exhausted |}
  = (Fulfilled,
     {| closed := true; frames := []; closes := 0; streamEnded := false;
        console :=
          [ErrorProcessingChunk invalid_state_error (chunk_event "a");
           ErrorProcessingChunk invalid_state_error (chunk_event "b")];
        pulled := 2 |})
  /\ existsb is_stream_error
       (console
          (snd (bridge {| steps := upstream_steps; fin := Exhausted |})))
     = false.
Proof. split; vm_compute; reflexivity. Qed.

(** The write that fails after the terminal condition is absorbed: the loop
    is left, nothing is logged. *)
Lemma bridge_sink_closed_at_message_end :
  bridge {| steps := [Yield (chunk_event "a"); Hangup;
                      Yield message_end_event; Yield (chunk_event "b")];
            fin := Exhausted |}
  = (Fulfilled,
     {| closed := true; frames := [transformed (chunk_event "a")];
        closes := 0; streamEnded := true; console := []; pulled := 2 |}).
Proof. vm_compute. reflexivity. Qed.

(** ** The citation indexer *)

Lemma sort_insert_perm {A : Type} (cmp : A -> A -> Z) (a : A) (l : list A) :
  Permutation (sort_insert cmp a l) (a :: l).
Proof.
  induction l as [|b l IH]; cbn; [reflexivity|].
  destruct (cmp a b <=? 0)%Z; [reflexivity|].
  rewrite IH. apply perm_swap.
Qed.

Lemma array_sort_perm {A : Type} (cmp : A -> A -> Z) (l : list A) :
  Permutation (array_sort cmp l) l.
Proof.
  induction l as [|a l IH]; cbn; [reflexivity|].
  rewrite sort_insert_perm. constructor. exact IH.
Qed.

Lemma sort_insert_sorted (a : citation) (l : list citation) :
  StronglySorted ascending l ->
  StronglySorted ascending (sort_insert by_position a l).
Proof.
  induction l as [|b l IH]; intros Hs; cbn.
  - constructor; constructor.
  - inversion Hs as [|b' l' Hl Hb]; subst.
    destruct (by_position a b <=? 0)%Z eqn:E.
    + apply Z.leb_le in E. unfold by_position in E.
      constructor; [exact Hs|]. constructor.
      * unfold ascending. lia.
      * eapply Forall_impl; [|exact Hb]. unfold ascending. intros c Hc. lia.
    + apply Z.leb_gt in E. unfold by_position in E.
      constructor; [apply IH; exact Hl|].
      eapply Permutation_Forall;
        [symmetry; apply sort_insert_perm|].
      constructor; [unfold ascending; lia | exact Hb].
Qed.

Lemma array_sort_sorted (l : list citation) :
  StronglySorted ascending (array_sort by_position l).
Proof.
  induction l as [|a l IH]; cbn; [constructor|].
  apply sort_insert_sorted. exact IH.
Qed.

(** The sort is stable: the citations of one position keep their order. *)
Lemma sort_insert_stable (p : Z) (a : citation) (l : list citation) :
  filter (at_position p) (sort_insert by_position a l)
  = filter (at_position p) (a :: l).
Proof.
  induction l as [|b l IH]; [reflexivity|].
  cbn [sort_insert].
  destruct (by_position a b <=? 0)%Z eqn:E; [reflexivity|].
  apply Z.leb_gt in E. unfold by_position in E.
  cbn [filter] in *. rewrite IH.
  unfold at_position.
  destruct (position a =? p)%Z eqn:Ea, (position b =? p)%Z eqn:Eb;
    try reflexivity.
  apply Z.eqb_eq in Ea, Eb. lia.
Qed.

Lemma array_sort_stable (p : Z) (l : list citation) :
  filter (at_position p) (array_sort by_position l)
  = filter (at_position p) l.
Proof.
  induction l as [|a l IH]; [reflexivity|].
  cbn [array_sort]. rewrite sort_insert_stable. cbn [filter].
  rewrite IH. reflexivity.
Qed.

(** Two sorted lists that agree position by position are equal: the result
    of a stable sort by position does not depend on the sorting algorithm
    of the engine. *)
Lemma stable_sorted_unique (l1 : list citation) :
  forall l2,
    StronglySorted ascending l1 -> StronglySorted ascending l2 ->
    (forall p, filter (at_position p) l1 = filter (at_position p) l2) ->
    l1 = l2.
Proof.
  induction l1 as [|a l1 IH]; intros l2 Hs1 Hs2 Hf.
  - destruct l2 as [|b l2]; [reflexivity|].
    specialize (Hf (position b)). cbn [filter] in Hf.
    unfold at_position in Hf. rewrite Z.eqb_refl in Hf. discriminate.
  - destruct l2 as [|b l2].
    { specialize (Hf (position a)). cbn [filter] in Hf.
      unfold at_position in Hf. rewrite Z.eqb_refl in Hf. discriminate. }
    inversion Hs1 as [|a' l1' Hs1' Ha]; subst.
    inversion Hs2 as [|b' l2' Hs2' Hb]; subst.
    assert (Hpos : position a = position b).
    { assert (Hab : (position a <= position b)%Z).
      { assert (Hin : In b (filter (at_position (position b)) (a :: l1))).
        { rewrite Hf. apply filter_In.
          split; [left; reflexivity | apply Z.eqb_refl]. }
        apply filter_In in Hin. destruct Hin as [[->|Hin] _]; [lia|].
        rewrite Forall_forall in Ha. apply (Ha b Hin). }
      assert (Hba : (position b <= position a)%Z).
      { assert (Hin : In a (filter (at_position (position a)) (b :: l2))).
        { rewrite <- Hf. apply filter_In.
          split; [left; reflexivity | apply Z.eqb_refl]. }
        apply filter_In in Hin. destruct Hin as [[->|Hin] _]; [lia|].
        rewrite Forall_forall in Hb. apply (Hb a Hin). }
      lia. }
    assert (Hhead : a = b).
    { pose proof (Hf (position a)) as H. cbn [filter] in H.
      assert (Ea : at_position (position a) a = true) by apply Z.eqb_refl.
      assert (Eb : at_position (position a) b = true).
      { unfold at_position. rewrite Hpos. apply Z.eqb_refl. }
      rewrite Ea, Eb in H. injection H as H _. exact H. }
    subst b. f_equal. apply IH; [exact Hs1' | exact Hs2' |].
    intros p. specialize (Hf p). cbn [filter] in Hf.
    destruct (at_position p a); [injection Hf as Hf|]; exact Hf.
Qed.

Lemma array_sort_unique (l sorted : list citation) :
  StronglySorted ascending sorted ->
  (forall p, filter (at_position p) sorted = filter (at_position p) l) ->
  sorted = array_sort by_position l.
Proof.
  intros Hs Hf. apply stable_sorted_unique.
  - exact Hs.
  - apply array_sort_sorted.
  - intros p. rewrite array_sort_stable. apply Hf.
Qed.

Lemma position_is_valid_iff (content : jsstring) (c : citation) :
  position_is_valid content c = true
  <-> (0 <= position c <= Z.of_nat (length content))%Z.
Proof.
  unfold position_is_valid. rewrite andb_true_iff, Z.geb_le, Z.leb_le.
  reflexivity.
Qed.

(** *** The decimal rendering of an index *)

Lemma js_inj (a b : string) : js a = js b -> a = b.
Proof.
  unfold js. intros H.
  rewrite <- (string_of_list_ascii_of_string a),
    <- (string_of_list_ascii_of_string b).
  f_equal.
  revert H. generalize (list_ascii_of_string a) (list_ascii_of_string b).
  intros l1. induction l1 as [|x l1 IH]; intros [|y l2] H;
    try discriminate; [reflexivity|].
  cbn in H. injection H as Hxy Hl.
  f_equal; [|apply IH; exact Hl].
  rewrite <- (ascii_N_embedding x), <- (ascii_N_embedding y), Hxy.
  reflexivity.
Qed.

Lemma to_uint_nonnil (n : nat) : Nat.to_uint n <> Decimal.Nil.
Proof.
  rewrite <- (DecimalNat.Unsigned.of_to n) at 1.
  rewrite DecimalNat.Unsigned.to_of.
  unfold Decimal.unorm. destruct (Decimal.nzhead (Nat.to_uint n));
    discriminate.
Qed.

Lemma string_of_nat_inj (i j : nat) : string_of_nat i = string_of_nat j -> i = j.
Proof.
  unfold string_of_nat. intros H. apply js_inj in H.
  apply DecimalNat.Unsigned.to_uint_inj.
  pose proof (NilZero.usu (Nat.to_uint i) (to_uint_nonnil i)) as Hi.
  pose proof (NilZero.usu (Nat.to_uint j) (to_uint_nonnil j)) as Hj.
  rewrite H in Hi. rewrite Hi in Hj. injection Hj as Hj. exact Hj.
Qed.

Lemma string_of_uint_digits (d : Decimal.uint) :
  forallb is_digit (js (NilEmpty.string_of_uint d)) = true.
Proof. induction d; cbn; auto. Qed.

Lemma string_of_nat_digits (i : nat) :
  forallb is_digit (string_of_nat i) = true.
Proof.
  unfold string_of_nat, NilZero.string_of_uint.
  destruct (Nat.to_uint i); try reflexivity;
    apply (string_of_uint_digits (_ _)).
Qed.

Lemma string_of_nat_nonempty (i : nat) : string_of_nat i <> [].
Proof.
  unfold string_of_nat, NilZero.string_of_uint.
  destruct (Nat.to_uint i); discriminate.
Qed.

Lemma marker_key_inj (i j : nat) : marker_key i = marker_key j -> i = j.
Proof.
  unfold marker_key. intros H. apply app_inv_head in H.
  apply string_of_nat_inj. exact H.
Qed.

(** *** The citation map *)

Lemma Map_set_fresh {V : Type} (m : list (jsstring * V)) (k : jsstring) (v : V) :
  (forall e, In e m -> fst e <> k) -> Map_set m k v = m ++ [(k, v)].
Proof.
  induction m as [|[k' v'] m IH]; intros Hf; [reflexivity|].
  cbn. assert (Hk : jsstring_eqb k' k = false).
  { apply jsstring_eqb_neq. apply (Hf (k', v')). left. reflexivity. }
  rewrite Hk. f_equal. apply IH. intros e He. apply Hf. right. exact He.
Qed.

Lemma Map_get_app {V : Type} (m1 m2 : list (jsstring * V)) (k : jsstring) :
  Map_get (m1 ++ m2) k
  = match Map_get m1 k with
    | Some v => Some v
    | None => Map_get m2 k
    end.
Proof.
  induction m1 as [|[k' v'] m1 IH]; [reflexivity|].
  cbn. destruct (jsstring_eqb k' k); [reflexivity | exact IH].
Qed.

Lemma in_enumerate_from {A : Type} (l : list A) :
  forall i j a, In (j, a) (enumerate_from i l) ->
                i <= j < i + length l /\ nth_error l (j - i) = Some a.
Proof.
  induction l as [|x l IH]; intros i j a H; [contradiction|].
  cbn in H. destruct H as [H|H].
  - injection H as <- <-. rewrite Nat.sub_diag. cbn. split; [lia|reflexivity].
  - apply IH in H. destruct H as [H1 H2]. cbn [length]. split; [lia|].
    replace (j - i) with (S (j - S i)) by lia. exact H2.
Qed.

Lemma forEach_set_eq (l : list citation) :
  forall idx map,
    (forall e, In e map -> exists j, j < idx /\ fst e = marker_key j) ->
    forEach_set l idx map
    = map ++ List.map map_entry (enumerate_from idx l).
Proof.
  induction l as [|c l IH]; intros idx map Hm.
  - cbn. rewrite app_nil_r. reflexivity.
  - cbn [forEach_set enumerate_from List.map].
    change (js "CITATION_" ++ string_of_nat idx) with (marker_key idx).
    rewrite Map_set_fresh.
    + rewrite IH.
      * rewrite <- app_assoc. reflexivity.
      * intros e He. apply in_app_or in He. destruct He as [He|[<-|[]]].
        -- destruct (Hm e He) as (j & Hj & Hk). exists j. split; [lia|auto].
        -- exists idx. split; [lia | reflexivity].
    + intros e He Hk. destruct (Hm e He) as (j & Hj & Hkj).
      rewrite Hkj in Hk. apply marker_key_inj in Hk. lia.
Qed.

(** The citation map lists the indexed citations in their order: the i-th
    valid citation under the key of i, with the number i + 1. *)
Lemma citationMap_eq (content : jsstring) (citations : list citation) :
  citationMap content citations
  = List.map map_entry (indexCitations content citations).
Proof.
  unfold citationMap, indexCitations, validCitations.
  destruct citations as [|c citations]; [reflexivity|].
  rewrite forEach_set_eq; [reflexivity|]. intros e [].
Qed.

Lemma Map_get_entries (l : list citation) :
  forall idx i c,
    nth_error l i = Some c ->
    Map_get (List.map map_entry (enumerate_from idx l)) (marker_key (idx + i))
    = Some {| number := idx + i + 1; data_citation := c |}.
Proof.
  induction l as [|x l IH]; intros idx i c H.
  - destruct i; discriminate.
  - cbn [enumerate_from List.map Map_get map_entry fst snd].
    destruct i as [|i].
    + cbn in H. injection H as ->. rewrite Nat.add_0_r.
      rewrite jsstring_eqb_refl. reflexivity.
    + assert (Hne : jsstring_eqb (marker_key idx) (marker_key (idx + S i))
                    = false).
      { apply jsstring_eqb_neq. intros E. apply marker_key_inj in E. lia. }
      rewrite Hne. cbn in H.
      replace (idx + S i) with (S idx + i) by lia.
      apply IH. exact H.
Qed.

Lemma Map_get_entries_none (l : list citation) (k : jsstring) :
  forall idx,
    (forall i, i < length l -> k <> marker_key (idx + i)) ->
    Map_get (List.map map_entry (enumerate_from idx l)) k = None.
Proof.
  induction l as [|x l IH]; intros idx H; [reflexivity|].
  cbn [enumerate_from List.map Map_get map_entry fst snd].
  assert (Hne : jsstring_eqb (marker_key idx) k = false).
  { apply jsstring_eqb_neq. intros E. apply (H 0); [cbn; lia|].
    rewrite Nat.add_0_r. auto. }
  rewrite Hne. apply IH. intros i Hi.
  replace (S idx + i) with (idx + S i) by lia. apply H. cbn. lia.
Qed.

(** C2: the citation indexer keeps exactly the citations whose position is
    inside the content, sorts them by position, stably, and numbers them
    0, 1, 2, ... in that order; the two scenarios of the specification. *)
Theorem citation_indexer (content : jsstring) (citations : list citation) :
  let valid := validCitations content citations in
  (forall c, In c valid <->
             In c citations
             /\ (0 <= position c <= Z.of_nat (length content))%Z)
  /\ Permutation valid (filter (position_is_valid content) citations)
  /\ StronglySorted ascending valid
  /\ (forall p, filter (at_position p) valid
                = filter (at_position p)
                    (filter (position_is_valid content) citations))
  /\ List.map fst (indexCitations content citations) = seq 0 (length valid)
  /\ List.map snd (indexCitations content citations) = valid
  /\ citationMap content citations
     = List.map map_entry (indexCitations content citations)
  /\ indexCitations (js "hello world")
       [cite_at 5 "a"; cite_at 2 "b"; cite_at 5 "c"]
     = [(0, cite_at 2 "b"); (1, cite_at 5 "a"); (2, cite_at 5 "c")]
  /\ validCitations (js "hi") [cite_at 0 "a"; cite_at 2 "b"; cite_at 3 "c"]
     = [cite_at 0 "a"; cite_at 2 "b"].
Proof.
  cbv zeta. unfold indexCitations.
  assert (Hp : Permutation (validCitations content citations)
                 (filter (position_is_valid content) citations)).
  { apply array_sort_perm. }
  assert (Henum : forall (l : list citation) i,
             List.map fst (enumerate_from i l) = seq i (length l)
             /\ List.map snd (enumerate_from i l) = l).
  { induction l as [|x l IH]; intros i; cbn; [auto|].
    destruct (IH (S i)) as [H1 H2]. rewrite H1, H2. auto. }
  assert (Hin : forall c,
             In c (validCitations content citations) <->
             In c citations
             /\ (0 <= position c <= Z.of_nat (length content))%Z).
  { intros c. split.
    - intros H. apply (Permutation_in _ Hp) in H. apply filter_In in H.
      destruct H as [H1 H2]. apply position_is_valid_iff in H2. tauto.
    - intros [H1 H2]. apply (Permutation_in _ (Permutation_sym Hp)).
      apply filter_In. split; [exact H1|]. apply position_is_valid_iff.
      exact H2. }
  refine (conj Hin (conj Hp (conj _ (conj _ (conj _ (conj _ (conj _
            (conj _ _)))))))).
  - apply array_sort_sorted.
  - intros p. apply array_sort_stable.
  - apply Henum.
  - apply Henum.
  - apply citationMap_eq.
  - reflexivity.
  - reflexivity.
Qed.

(** ** Markers *)

Lemma strip_prefix_app (p s : jsstring) : strip_prefix p (p ++ s) = Some s.
Proof.
  induction p as [|x p IH]; cbn; [destruct s; reflexivity|].
  rewrite N.eqb_refl. exact IH.
Qed.

Lemma strip_prefix_elim (p s r : jsstring) :
  strip_prefix p s = Some r -> s = p ++ r.
Proof.
  revert s; induction p as [|x p IH]; intros [|y s]; cbn; try discriminate.
  - intros H; injection H as <-; reflexivity.
  - intros H; injection H as <-; reflexivity.
  - destruct (N.eqb x y) eqn:E; [|discriminate]. apply N.eqb_eq in E.
    intros H. apply IH in H. congruence.
Qed.

Lemma span_digits_app (d : jsstring) (c : N) (r : jsstring) :
  forallb is_digit d = true -> is_digit c = false ->
  span_digits (d ++ c :: r) = (d, c :: r).
Proof.
  intros Hd Hc. induction d as [|x d IH]; cbn.
  - rewrite Hc. reflexivity.
  - cbn in Hd. apply andb_true_iff in Hd. destruct Hd as [Hx Hd].
    rewrite Hx, (IH Hd). reflexivity.
Qed.

Lemma span_digits_elim (s d r : jsstring) :
  span_digits s = (d, r) ->
  s = d ++ r /\ forallb is_digit d = true.
Proof.
  revert d r. induction s as [|c s IH]; intros d r H; cbn in H.
  - injection H as <- <-. auto.
  - destruct (is_digit c) eqn:E.
    + destruct (span_digits s) as [d' r'].
      injection H as <- <-. destruct (IH d' r' eq_refl) as [-> Hd].
      cbn. rewrite E. auto.
    + injection H as <- <-. auto.
Qed.

Lemma match_marker_intro (d rest : jsstring) :
  d <> [] -> forallb is_digit d = true ->
  match_marker (marker_text d ++ rest) = Some (d, rest).
Proof.
  intros Hne Hd. unfold match_marker, marker_text.
  rewrite <- app_assoc, strip_prefix_app, <- app_assoc.
  change (js "]" ++ rest) with (cu_rbracket :: rest).
  rewrite (span_digits_app d cu_rbracket rest Hd eq_refl).
  destruct d; [contradiction|]. rewrite N.eqb_refl. reflexivity.
Qed.

Lemma match_marker_elim (s d rest : jsstring) :
  match_marker s = Some (d, rest) ->
  s = marker_text d ++ rest /\ d <> [] /\ forallb is_digit d = true.
Proof.
  unfold match_marker, marker_text.
  destruct (strip_prefix (js "[CITATION_") s) as [r|] eqn:E; [|discriminate].
  apply strip_prefix_elim in E.
  destruct (span_digits r) as [d' r'] eqn:Es.
  apply span_digits_elim in Es. destruct Es as [-> Hd].
  destruct d' as [|x d']; [discriminate|].
  destruct r' as [|c r']; [discriminate|].
  destruct (N.eqb c cu_rbracket) eqn:Ec; [|discriminate].
  apply N.eqb_eq in Ec. subst c.
  intros H. injection H as <- <-.
  split; [|split; [discriminate | exact Hd]].
  rewrite E, <- !app_assoc. reflexivity.
Qed.

Lemma marker_is_marker_text (i : nat) : marker i = marker_text (string_of_nat i).
Proof. reflexivity. Qed.

Lemma insertCitationMarkers_eq (content : jsstring) (citations : list citation) :
  insertCitationMarkers content citations
  = insert_loop (validCitations content citations)
      (length (validCitations content citations)) content.
Proof.
  unfold insertCitationMarkers, validCitations.
  destruct citations as [|c citations]; [reflexivity|].
  destruct (array_sort by_position
              (filter (position_is_valid content) (c :: citations)));
    reflexivity.
Qed.



(** ** The regular expression of the markers *)

Lemma regex_exec_elim (s b d a : jsstring) :
  regex_exec s = Some (b, d, a) ->
  s = b ++ marker_text d ++ a /\ d <> [] /\ forallb is_digit d = true.
Proof.
  revert b. induction s as [|c s IH]; intros b H.
  - cbn in H. discriminate.
  - cbn [regex_exec] in H.
    destruct (match_marker (c :: s)) as [[d' a']|] eqn:Em.
    + injection H as <- <- <-. apply match_marker_elim in Em. exact Em.
    + destruct (regex_exec s) as [[[b' d'] a']|]; [|discriminate].
      injection H as <- <- <-.
      destruct (IH b' eq_refl) as (-> & Hne & Hd). auto.
Qed.

Lemma regex_exec_shorter (s b d a : jsstring) :
  regex_exec s = Some (b, d, a) -> length a < length s.
Proof.
  intros H. apply regex_exec_elim in H. destruct H as (-> & _ & _).
  unfold marker_text. rewrite !length_app. cbn. lia.
Qed.

Lemma match_marker_no_bracket (c : N) (s : jsstring) :
  c <> cu_lbracket -> match_marker (c :: s) = None.
Proof.
  intros H. unfold match_marker.
  change (strip_prefix (js "[CITATION_") (c :: s))
    with (if N.eqb cu_lbracket c then strip_prefix (js "CITATION_") s
          else None).
  destruct (N.eqb cu_lbracket c) eqn:E; [|reflexivity].
  apply N.eqb_eq in E. symmetry in E. contradiction.
Qed.

Lemma regex_exec_skip (t s : jsstring) :
  no_bracket t ->
  regex_exec (t ++ s)
  = match regex_exec s with
    | Some (b, d, a) => Some (t ++ b, d, a)
    | None => None
    end.
Proof.
  intros Ht. induction t as [|c t IH].
  - cbn. destruct (regex_exec s) as [[[b d] a]|]; reflexivity.
  - cbn [app regex_exec].
    rewrite match_marker_no_bracket by (apply Ht; left; reflexivity).
    rewrite IH by (intros x Hx; apply Ht; right; exact Hx).
    destruct (regex_exec s) as [[[b d] a]|]; reflexivity.
Qed.

Lemma regex_exec_no_bracket (t : jsstring) :
  no_bracket t -> regex_exec t = None.
Proof.
  intros Ht. rewrite <- (app_nil_r t), (regex_exec_skip t [] Ht).
  reflexivity.
Qed.

Lemma regex_exec_marker (d rest : jsstring) :
  d <> [] -> forallb is_digit d = true ->
  regex_exec (marker_text d ++ rest) = Some ([], d, rest).
Proof.
  intros Hne Hd. pose proof (match_marker_intro d rest Hne Hd) as H.
  unfold marker_text in *. cbn [js app List.map list_ascii_of_string] in *.
  cbn [regex_exec]. rewrite H. reflexivity.
Qed.

(** ** The scan of a string node against a citation map *)

Section ScanWithMap.

Variable m : list (jsstring * citation_data).

Lemma scan_parts_fuel (f1 : nat) :
  forall f2 s, length s < f1 -> length s < f2 ->
               scan_parts f1 m s = scan_parts f2 m s.
Proof.
  induction f1 as [|f1 IH]; intros f2 s H1 H2; [lia|].
  destruct f2 as [|f2]; [lia|].
  cbn [scan_parts].
  destruct (regex_exec s) as [[[b d] a]|] eqn:E; [|reflexivity].
  apply regex_exec_shorter in E.
  rewrite (IH f2 a) by lia. reflexivity.
Qed.

(** The loop, one match at a time. *)
Lemma scan_node_eq (s : jsstring) :
  scan_node m s
  = match regex_exec s with
    | Some (before, d, after) =>
        text_part before
        ++ (match Map_get m (js "CITATION_" ++ d) with
            | Some citationData =>
                NInlineCitation (number citationData)
                  (data_citation citationData)
            | None => NString (marker_text d)
            end)
        :: scan_node m after
    | None => text_part s
    end.
Proof.
  unfold scan_node at 1. cbn [scan_parts].
  destruct (regex_exec s) as [[[b d] a]|] eqn:E; [|reflexivity].
  apply regex_exec_shorter in E.
  rewrite (scan_parts_fuel (length s) (S (length a)) a) by lia.
  reflexivity.
Qed.

Lemma processNode_string (s : jsstring) :
  processNodeForCitations m (NString s)
  = if 1 <? length (scan_node m s) then NFragment (scan_node m s)
    else NString s.
Proof. reflexivity. Qed.

(** C10: a string node that is exactly one marker whose digits are in the
    citation map is returned as it is, the literal marker, because the scan
    yields one part; with text before or after it, or another marker, in
    the same node the marker is replaced by the citation reference. *)
Theorem lone_marker_not_replaced (d : jsstring)
  (citationData : citation_data) :
  d <> [] -> forallb is_digit d = true ->
  Map_get m (js "CITATION_" ++ d) = Some citationData ->
  scan_node m (marker_text d)
  = [NInlineCitation (number citationData) (data_citation citationData)]
  /\ processNodeForCitations m (NString (marker_text d))
     = NString (marker_text d)
  /\ (forall t, t <> [] -> no_bracket t ->
        processNodeForCitations m (NString (t ++ marker_text d))
        = NFragment
            [NString t;
             NInlineCitation (number citationData)
               (data_citation citationData)])
  /\ (forall t, t <> [] -> no_bracket t ->
        processNodeForCitations m (NString (marker_text d ++ t))
        = NFragment
            [NInlineCitation (number citationData)
               (data_citation citationData);
             NString t])
  /\ (forall d' citationData',
        d' <> [] -> forallb is_digit d' = true ->
        Map_get m (js "CITATION_" ++ d') = Some citationData' ->
        processNodeForCitations m (NString (marker_text d ++ marker_text d'))
        = NFragment
            [NInlineCitation (number citationData)
               (data_citation citationData);
             NInlineCitation (number citationData')
               (data_citation citationData')]).
Proof.
  intros Hne Hd Hm.
  assert (Hlone : scan_node m (marker_text d)
                  = [NInlineCitation (number citationData)
                       (data_citation citationData)]).
  { rewrite scan_node_eq.
    rewrite <- (app_nil_r (marker_text d)) at 1.
    rewrite (regex_exec_marker d [] Hne Hd), Hm. reflexivity. }
  repeat split.
  - exact Hlone.
  - rewrite processNode_string, Hlone. reflexivity.
  - intros t Htne Ht.
    assert (Hs : scan_node m (t ++ marker_text d)
                 = [NString t;
                    NInlineCitation (number citationData)
                      (data_citation citationData)]).
    { rewrite scan_node_eq, (regex_exec_skip t (marker_text d) Ht).
      rewrite <- (app_nil_r (marker_text d)) at 1.
      rewrite (regex_exec_marker d [] Hne Hd), Hm, app_nil_r.
      destruct t; [contradiction|]. reflexivity. }
    rewrite processNode_string, Hs. reflexivity.
  - intros t Htne Ht.
    assert (Hs : scan_node m (marker_text d ++ t)
                 = [NInlineCitation (number citationData)
                      (data_citation citationData);
                    NString t]).
    { rewrite scan_node_eq, (regex_exec_marker d t Hne Hd), Hm.
      rewrite scan_node_eq, (regex_exec_no_bracket t Ht).
      destruct t; [contradiction|]. reflexivity. }
    rewrite processNode_string, Hs. reflexivity.
  - intros d' citationData' Hne' Hd' Hm'.
    assert (Hs : scan_node m (marker_text d ++ marker_text d')
                 = [NInlineCitation (number citationData)
                      (data_citation citationData);
                    NInlineCitation (number citationData')
                      (data_citation citationData')]).
    { rewrite scan_node_eq, (regex_exec_marker d _ Hne Hd), Hm.
      rewrite scan_node_eq.
      rewrite <- (app_nil_r (marker_text d')) at 1.
      rewrite (regex_exec_marker d' [] Hne' Hd'), Hm'. reflexivity. }
    rewrite processNode_string, Hs. reflexivity.
Qed.

End ScanWithMap.

Lemma lone_marker_not_replaced_witness :
  let m := citationMap (js "") [cite_at 0 "a"] in
  Map_get m (js "CITATION_0")
    = Some {| number := 1; data_citation := cite_at 0 "a" |}
  /\ processNodeForCitations m (NString (js "[CITATION_0]"))
     = NString (js "[CITATION_0]").
Proof.
  split; [reflexivity|].
  exact (proj1 (proj2 (lone_marker_not_replaced
                         (citationMap (js "") [cite_at 0 "a"]) (js "0")
                         {| number := 1; data_citation := cite_at 0 "a" |}
                         ltac:(discriminate) eq_refl eq_refl))).
Defined.

(** ** The marker inserter *)

Lemma slice_prefix (s : jsstring) (p : Z) :
  (0 <= p)%Z -> slice s 0 p = firstn (Z.to_nat p) s.
Proof.
  intros Hp. unfold slice, slice_index.
  assert (E : (p <? 0)%Z = false) by (apply Z.ltb_ge; lia).
  rewrite E. cbn. rewrite Nat.sub_0_r.
  destruct (Nat.le_ge_cases (Z.to_nat p) (length s)) as [H|H].
  - rewrite Nat.min_l by exact H. reflexivity.
  - rewrite Nat.min_r by exact H.
    rewrite !firstn_all2 by lia. reflexivity.
Qed.

Lemma slice_from_suffix (s : jsstring) (p : Z) :
  (0 <= p)%Z -> slice_from s p = skipn (Z.to_nat p) s.
Proof.
  intros Hp. unfold slice_from, slice_index.
  assert (E : (p <? 0)%Z = false) by (apply Z.ltb_ge; lia).
  rewrite E.
  destruct (Nat.le_ge_cases (Z.to_nat p) (length s)) as [H|H].
  - rewrite Nat.min_l by exact H. reflexivity.
  - rewrite Nat.min_r by exact H.
    rewrite !skipn_all2 by lia. reflexivity.
Qed.

Lemma splice_length (s : jsstring) (p : nat) (m : jsstring) :
  length (splice s p m) = length s + length m.
Proof.
  unfold splice. rewrite !length_app.
  rewrite <- (firstn_skipn p s) at 3. rewrite length_app. lia.
Qed.

Lemma firstn_splice (s : jsstring) (a b : nat) (m : jsstring) :
  a <= b -> b <= length s -> firstn a (splice s b m) = firstn a s.
Proof.
  intros Hab Hb. unfold splice.
  rewrite firstn_app, length_firstn, Nat.min_l by exact Hb.
  replace (a - b) with 0 by lia. cbn. rewrite app_nil_r.
  rewrite firstn_firstn, Nat.min_l by exact Hab. reflexivity.
Qed.

Lemma skipn_splice (s : jsstring) (a b : nat) (m : jsstring) :
  a <= b -> b <= length s ->
  skipn a (splice s b m) = splice (skipn a s) (b - a) m.
Proof.
  intros Hab Hb. unfold splice.
  rewrite skipn_app, length_firstn, Nat.min_l by exact Hb.
  replace (a - b) with 0 by lia. cbn [skipn].
  rewrite skipn_skipn. replace (b - a + a) with b by lia.
  f_equal.
  rewrite <- (firstn_skipn a s) at 1.
  rewrite firstn_app, length_firstn, Nat.min_l by lia.
  rewrite (firstn_all2 (firstn a s)) by (rewrite length_firstn; lia).
  rewrite skipn_app, length_firstn, Nat.min_l by lia.
  rewrite Nat.sub_diag. cbn [skipn].
  rewrite skipn_all2 by (rewrite length_firstn; lia). reflexivity.
Qed.

(** Splicing the marker of the last citation first does not move the
    places of the citations before it. *)
Lemma weave_snoc (l : list (nat * citation)) :
  forall (off : nat) (s : jsstring) (k : nat) (c : citation),
    ordered_from off (l ++ [(k, c)]) ->
    offset_of c - off <= length s ->
    weave off (splice s (offset_of c - off) (marker k)) l
    = weave off s (l ++ [(k, c)]).
Proof.
  induction l as [|[i ci] l IH]; intros off s k c Ho Hlen.
  - cbn [app weave]. reflexivity.
  - cbn [app weave]. cbn [app ordered_from] in Ho. destruct Ho as [Hoff Ho].
    assert (Hle : offset_of ci <= offset_of c).
    { clear - Ho. revert Ho. generalize (offset_of ci).
      induction l as [|[j cj] l IHl]; intros n Ho; cbn in Ho.
      - tauto.
      - destruct Ho as [H1 H2]. apply IHl in H2. lia. }
    rewrite firstn_splice by lia.
    rewrite skipn_splice by lia.
    replace (offset_of c - off - (offset_of ci - off))
      with (offset_of c - offset_of ci) by lia.
    rewrite IH; [reflexivity | exact Ho |].
    rewrite length_skipn. lia.
Qed.

Lemma enumerate_from_app {A : Type} (l1 l2 : list A) :
  forall i, enumerate_from i (l1 ++ l2)
            = enumerate_from i l1 ++ enumerate_from (i + length l1) l2.
Proof.
  induction l1 as [|x l1 IH]; intros i; cbn.
  - rewrite Nat.add_0_r. reflexivity.
  - rewrite IH. replace (S i + length l1) with (i + S (length l1)) by lia.
    reflexivity.
Qed.

Lemma firstn_succ_nth {A : Type} (l : list A) :
  forall k x, nth_error l k = Some x -> firstn (S k) l = firstn k l ++ [x].
Proof.
  induction l as [|y l IH]; intros [|k] x H; try discriminate.
  - cbn in H. injection H as ->. reflexivity.
  - cbn in H. change (y :: firstn (S k) l = y :: (firstn k l ++ [x])).
    f_equal. apply IH. exact H.
Qed.

Lemma ordered_from_app (l1 l2 : list (nat * citation)) :
  forall off, ordered_from off (l1 ++ l2) -> ordered_from off l1.
Proof.
  induction l1 as [|[i c] l1 IH]; intros off H; cbn in *; [exact I|].
  destruct H as [H1 H2]. split; [exact H1 | apply IH; exact H2].
Qed.

Lemma ordered_from_sorted (l : list citation) :
  forall i off,
    StronglySorted ascending l ->
    Forall (fun c => (0 <= position c)%Z /\ off <= offset_of c) l ->
    ordered_from off (enumerate_from i l).
Proof.
  induction l as [|c l IH]; intros i off Hs Hf; cbn; [exact I|].
  inversion Hs as [|c' l' Hs' Hc]; subst.
  inversion Hf as [|c' l' [Hc0 Hoff] Hf']; subst.
  split; [exact Hoff|].
  apply IH; [exact Hs'|].
  rewrite Forall_forall in *. intros x Hx.
  destruct (Hf' x Hx) as [Hx0 _]. split; [exact Hx0|].
  specialize (Hc x Hx). unfold ascending in Hc. unfold offset_of. lia.
Qed.

Lemma validCitations_bounds (content : jsstring) (citations : list citation) :
  Forall (fun c => (0 <= position c)%Z /\ offset_of c <= length content)
    (validCitations content citations).
Proof.
  apply Forall_forall. intros c Hc.
  apply (Permutation_in _ (array_sort_perm by_position _)) in Hc.
  apply filter_In in Hc. destruct Hc as [_ Hc].
  apply position_is_valid_iff in Hc. unfold offset_of. lia.
Qed.

Lemma insert_loop_weave (valid : list citation) :
  StronglySorted ascending valid ->
  forall k result,
    k <= length valid ->
    Forall (fun c => (0 <= position c)%Z /\ offset_of c <= length result)
      valid ->
    insert_loop valid k result
    = weave 0 result (enumerate_from 0 (firstn k valid)).
Proof.
  intros Hs. induction k as [|k IH]; intros result Hk Hb; [reflexivity|].
  cbn [insert_loop].
  destruct (nth_error valid k) as [c|] eqn:En.
  2:{ apply nth_error_None in En. lia. }
  assert (Hc : (0 <= position c)%Z /\ offset_of c <= length result).
  { rewrite Forall_forall in Hb. apply Hb.
    apply nth_error_In with (n := k). exact En. }
  destruct Hc as [Hc0 Hcl].
  rewrite slice_prefix, slice_from_suffix by exact Hc0.
  change (firstn (Z.to_nat (position c)) result ++ marker k
            ++ skipn (Z.to_nat (position c)) result)
    with (splice result (offset_of c) (marker k)).
  rewrite IH.
  - assert (Henum : enumerate_from 0 (firstn (S k) valid)
                    = enumerate_from 0 (firstn k valid) ++ [(k, c)]).
    { rewrite (firstn_succ_nth valid k c En), enumerate_from_app.
      rewrite length_firstn, Nat.min_l by lia. reflexivity. }
    rewrite Henum.
    rewrite <- (Nat.sub_0_r (offset_of c)) at 1.
    apply weave_snoc; [|lia].
    rewrite <- Henum.
    apply ordered_from_sorted.
    + clear - Hs. revert valid Hs. generalize (S k) as n.
      induction n as [|n IHn]; intros valid Hs; [constructor|].
      destruct valid as [|x valid]; [constructor|].
      inversion Hs as [|x' l' Hs' Hx]; subst. cbn [firstn]. constructor.
      * apply IHn. exact Hs'.
      * rewrite Forall_forall in *. intros y Hy. apply Hx.
        rewrite <- (firstn_skipn n valid). apply in_or_app. left. exact Hy.
    + rewrite Forall_forall in *. intros x Hx.
      assert (Hin : In x valid).
      { rewrite <- (firstn_skipn (S k) valid). apply in_or_app. left.
        exact Hx. }
      destruct (Hb x Hin) as [H0 _]. split; [exact H0 | lia].
  - lia.
  - rewrite Forall_forall in *. intros x Hx. destruct (Hb x Hx) as [H0 Hl].
    split; [exact H0|]. rewrite splice_length. lia.
Qed.

(** The annotated content is the content with the marker of each indexed
    citation at the offset of that citation. *)
Lemma insertCitationMarkers_weave (content : jsstring)
  (citations : list citation) :
  insertCitationMarkers content citations
  = weave 0 content (indexCitations content citations).
Proof.
  rewrite insertCitationMarkers_eq. unfold indexCitations.
  rewrite insert_loop_weave.
  - rewrite firstn_all. reflexivity.
  - apply array_sort_sorted.
  - lia.
  - apply validCitations_bounds.
Qed.

(** ** The marker resolver on the annotated content *)

Lemma marker_text_shape (d : jsstring) :
  forallb is_digit d = true ->
  exists tail, marker_text d = cu_lbracket :: tail /\ no_bracket tail.
Proof.
  intros Hd. exists (js "CITATION_" ++ d ++ js "]"). split; [reflexivity|].
  intros c Hc E. subst c.
  apply in_app_or in Hc. destruct Hc as [Hc|Hc].
  - cbn in Hc. repeat (destruct Hc as [Hc|Hc]; [discriminate|]).
    contradiction.
  - apply in_app_or in Hc. destruct Hc as [Hc|Hc].
    + rewrite forallb_forall in Hd. specialize (Hd _ Hc). discriminate.
    + cbn in Hc. destruct Hc as [Hc|[]]. discriminate.
Qed.

Lemma marker_shape (i : nat) : exists tail, marker i = cu_lbracket :: tail.
Proof. eexists. reflexivity. Qed.

Lemma match_marker_more (t y d r : jsstring) :
  match_marker t = Some (d, r) -> match_marker (t ++ y) = Some (d, r ++ y).
Proof.
  intros H. apply match_marker_elim in H. destruct H as (-> & Hne & Hd).
  rewrite <- app_assoc. apply match_marker_intro; assumption.
Qed.

(** A match that starts in a text followed by an opening bracket lies
    inside the text. *)
Lemma match_marker_within (t x d r : jsstring) :
  t <> [] ->
  match_marker (t ++ cu_lbracket :: x) = Some (d, r) ->
  exists r0, match_marker t = Some (d, r0).
Proof.
  intros Ht H. apply match_marker_elim in H. destruct H as (E & Hne & Hd).
  destruct (marker_text_shape d Hd) as (tail & Hshape & Htail).
  apply app_eq_app in E. destruct E as [l [[E1 E2]|[E1 E2]]].
  - exists l. rewrite E1. apply match_marker_intro; assumption.
  - destruct l as [|c l].
    + exists []. rewrite app_nil_r in E1. rewrite <- E1.
      rewrite <- (app_nil_r (marker_text d)).
      apply match_marker_intro; assumption.
    + exfalso. cbn in E2. injection E2 as <- _.
      rewrite Hshape in E1. destruct t as [|c t]; [contradiction|].
      cbn in E1. injection E1 as _ E1.
      apply (Htail cu_lbracket); [|reflexivity].
      rewrite E1. apply in_or_app. right. left. reflexivity.
Qed.

Lemma regex_exec_none_cons (c : N) (s : jsstring) :
  regex_exec (c :: s) = None ->
  match_marker (c :: s) = None /\ regex_exec s = None.
Proof.
  cbn [regex_exec].
  destruct (match_marker (c :: s)) as [[d a]|]; [discriminate|].
  destruct (regex_exec s) as [[[b d] a]|]; [discriminate|]. auto.
Qed.

Lemma regex_exec_none_suffix (t y : jsstring) :
  regex_exec (t ++ y) = None -> regex_exec y = None.
Proof.
  induction t as [|c t IH]; intros H; [exact H|].
  apply regex_exec_none_cons in H. apply IH. tauto.
Qed.

(** In a text without a marker, followed by an opening bracket, the first
    match is the first one from the bracket on. *)
Lemma regex_exec_before_bracket (t y x : jsstring) :
  regex_exec (t ++ y) = None ->
  regex_exec (t ++ cu_lbracket :: x)
  = match regex_exec (cu_lbracket :: x) with
    | Some (b, d, a) => Some (t ++ b, d, a)
    | None => None
    end.
Proof.
  remember (regex_exec (cu_lbracket :: x)) as R eqn:ER.
  induction t as [|c t IH]; intros H.
  - cbn [app]. rewrite <- ER. destruct R as [[[b d] a]|]; reflexivity.
  - cbn [app] in H. apply regex_exec_none_cons in H. destruct H as [Hm Hr].
    change ((c :: t) ++ cu_lbracket :: x)
      with (c :: (t ++ cu_lbracket :: x)).
    cbn [regex_exec].
    destruct (match_marker (c :: t ++ cu_lbracket :: x)) as [[d r]|] eqn:E.
    + exfalso.
      destruct (match_marker_within (c :: t) x d r ltac:(discriminate) E)
        as [r0 Hr0].
      apply (match_marker_more (c :: t) y) in Hr0.
      cbn [app] in Hr0. congruence.
    + rewrite (IH Hr).
      destruct R as [[[b d] a]|]; reflexivity.
Qed.

Lemma regex_exec_before_marker (t y rest : jsstring) (i : nat) :
  regex_exec (t ++ y) = None ->
  regex_exec (t ++ marker i ++ rest) = Some (t, string_of_nat i, rest).
Proof.
  intros H.
  assert (Hm : regex_exec (marker i ++ rest) = Some ([], string_of_nat i, rest)).
  { rewrite marker_is_marker_text. apply regex_exec_marker;
      [apply string_of_nat_nonempty | apply string_of_nat_digits]. }
  destruct (marker_shape i) as [tail Hshape].
  rewrite Hshape in *. cbn [app] in *.
  rewrite (regex_exec_before_bracket t y (tail ++ rest) H), Hm.
  rewrite app_nil_r. reflexivity.
Qed.

(** The scan of the woven text finds each marker, and nothing else, when
    the content has no marker of its own. *)
Lemma scan_node_weave (m : list (jsstring * citation_data))
  (l : list (nat * citation)) :
  (forall i c, In (i, c) l ->
               Map_get m (marker_key i)
               = Some {| number := i + 1; data_citation := c |}) ->
  forall off s,
    regex_exec s = None ->
    scan_node m (weave off s l) = expected_parts off s l.
Proof.
  induction l as [|[i c] l IH]; intros Hm off s Hs.
  - cbn [weave expected_parts]. rewrite scan_node_eq, Hs. reflexivity.
  - cbn [weave expected_parts].
    assert (Hsplit : regex_exec (firstn (offset_of c - off) s
                                   ++ skipn (offset_of c - off) s) = None).
    { rewrite firstn_skipn. exact Hs. }
    rewrite scan_node_eq.
    rewrite (regex_exec_before_marker _ _ _ i Hsplit).
    change (js "CITATION_" ++ string_of_nat i) with (marker_key i).
    rewrite (Hm i c (or_introl eq_refl)). cbn [number data_citation].
    rewrite IH; [reflexivity | |].
    + intros j cj Hj. apply Hm. right. exact Hj.
    + apply (regex_exec_none_suffix _ _ Hsplit).
Qed.

Lemma parts_text_app (a b : list node) :
  parts_text (a ++ b) = parts_text a ++ parts_text b.
Proof.
  induction a as [|x a IH]; [reflexivity|].
  destruct x; cbn; rewrite ?IH, ?app_assoc; reflexivity.
Qed.

Lemma parts_text_text_part (s : jsstring) : parts_text (text_part s) = s.
Proof. destruct s; cbn; rewrite ?app_nil_r; reflexivity. Qed.

Lemma parts_text_expected (l : list (nat * citation)) :
  forall off s, parts_text (expected_parts off s l) = s.
Proof.
  induction l as [|[i c] l IH]; intros off s; cbn [expected_parts].
  - apply parts_text_text_part.
  - rewrite parts_text_app, parts_text_text_part. cbn [parts_text].
    rewrite IH. apply firstn_skipn.
Qed.

Lemma citation_offsets_text_part (off : nat) (s : jsstring)
  (rest : list node) :
  citation_offsets off (text_part s ++ rest)
  = citation_offsets (off + length s) rest.
Proof.
  destruct s; cbn [text_part app citation_offsets length].
  - rewrite Nat.add_0_r. reflexivity.
  - reflexivity.
Qed.

(** Each reference stands after as much text as the offset of its
    citation. *)
Lemma citation_offsets_expected (l : list (nat * citation)) :
  forall off s,
    ordered_from off l ->
    Forall (fun ic => offset_of (snd ic) <= off + length s) l ->
    citation_offsets off (expected_parts off s l)
    = List.map expected_reference l.
Proof.
  induction l as [|[i c] l IH]; intros off s Ho Hb; cbn [expected_parts].
  - rewrite <- (app_nil_r (text_part s)), citation_offsets_text_part.
    reflexivity.
  - cbn [ordered_from] in Ho. destruct Ho as [Hoff Ho].
    inversion Hb as [|x l' Hc Hb']; subst. cbn [snd] in Hc.
    rewrite citation_offsets_text_part.
    rewrite length_firstn, Nat.min_l by lia.
    replace (off + (offset_of c - off)) with (offset_of c) by lia.
    cbn [citation_offsets List.map]. unfold expected_reference at 1.
    cbn [fst snd]. f_equal.
    apply IH; [exact Ho|].
    rewrite Forall_forall in *. intros x Hx. specialize (Hb' x Hx).
    rewrite length_skipn. lia.
Qed.

Lemma strip_markers_fuel_enough (f1 : nat) :
  forall f2 s, length s < f1 -> length s < f2 ->
               strip_markers_fuel f1 s = strip_markers_fuel f2 s.
Proof.
  induction f1 as [|f1 IH]; intros f2 s H1 H2; [lia|].
  destruct f2 as [|f2]; [lia|].
  cbn [strip_markers_fuel].
  destruct (regex_exec s) as [[[b d] a]|] eqn:E; [|reflexivity].
  apply regex_exec_shorter in E.
  rewrite (IH f2 a) by lia. reflexivity.
Qed.

Lemma strip_markers_eq (s : jsstring) :
  strip_markers s
  = match regex_exec s with
    | Some (before, _, after) => before ++ strip_markers after
    | None => s
    end.
Proof.
  unfold strip_markers at 1. cbn [strip_markers_fuel].
  destruct (regex_exec s) as [[[b d] a]|] eqn:E; [|reflexivity].
  apply regex_exec_shorter in E.
  rewrite (strip_markers_fuel_enough (length s) (S (length a)) a) by lia.
  reflexivity.
Qed.

Lemma strip_markers_weave (l : list (nat * citation)) :
  forall off s, regex_exec s = None -> strip_markers (weave off s l) = s.
Proof.
  induction l as [|[i c] l IH]; intros off s Hs; cbn [weave].
  - rewrite strip_markers_eq, Hs. reflexivity.
  - assert (Hsplit : regex_exec (firstn (offset_of c - off) s
                                   ++ skipn (offset_of c - off) s) = None).
    { rewrite firstn_skipn. exact Hs. }
    rewrite strip_markers_eq.
    rewrite (regex_exec_before_marker _ _ _ i Hsplit).
    rewrite IH by (apply (regex_exec_none_suffix _ _ Hsplit)).
    apply firstn_skipn.
Qed.

Lemma parts_length (parts : list node) :
  forall off,
    length (citation_offsets off parts)
    + (match parts_text parts with [] => 0 | _ => 1 end)
    <= length parts.
Proof.
  induction parts as [|x parts IH]; intros off; [cbn; lia|].
  destruct x; cbn [citation_offsets parts_text length];
    try (specialize (IH off); lia).
  specialize (IH (off + length s)).
  destruct (s ++ parts_text parts); lia.
Qed.

(** C3, as the code has it.  For a content that holds no marker token of
    its own, the scan of the annotated content yields, in order, the text
    between the offsets and one citation reference for each valid citation,
    with its 1-based number; each reference stands after exactly as much
    text as the offset of its citation; the text of the parts is the
    content, and so is the annotated content with the markers removed.  The
    resolver returns these parts as a fragment whenever there are at least
    two of them. *)
Theorem citation_round_trip (content : jsstring) (citations : list citation) :
  regex_exec content = None ->
  let indexed := indexCitations content citations in
  let parts :=
    scan_node (citationMap content citations)
      (insertCitationMarkers content citations) in
  parts = expected_parts 0 content indexed
  /\ citation_offsets 0 parts = List.map expected_reference indexed
  /\ parts_text parts = content
  /\ strip_markers (insertCitationMarkers content citations) = content
  /\ (indexed = [] -> resolve content citations = NString content)
  /\ (indexed <> [] -> content <> [] \/ length indexed <> 1 ->
      resolve content citations = NFragment parts).
Proof.
  intros Hc. cbv zeta.
  assert (Hparts : scan_node (citationMap content citations)
                     (insertCitationMarkers content citations)
                   = expected_parts 0 content
                       (indexCitations content citations)).
  { rewrite insertCitationMarkers_weave.
    apply scan_node_weave; [|exact Hc].
    intros i c Hin. rewrite citationMap_eq. unfold indexCitations in *.
    apply in_enumerate_from in Hin. destruct Hin as [Hi Hn].
    rewrite Nat.sub_0_r in Hn.
    apply (Map_get_entries _ 0 i c Hn). }
  assert (Hoffsets :
    citation_offsets 0
      (expected_parts 0 content (indexCitations content citations))
    = List.map expected_reference (indexCitations content citations)).
  { apply citation_offsets_expected.
    - unfold indexCitations. apply ordered_from_sorted.
      + apply array_sort_sorted.
      + eapply Forall_impl; [|apply validCitations_bounds].
        cbn. intros c [H0 _]. split; [exact H0 | lia].
    - apply Forall_forall. intros [i c] Hin. unfold indexCitations in Hin.
      apply in_enumerate_from in Hin. destruct Hin as [_ Hn].
      apply nth_error_In in Hn.
      pose proof (validCitations_bounds content citations) as Hb.
      rewrite Forall_forall in Hb. destruct (Hb c Hn) as [_ Hl].
      cbn [snd]. lia. }
  rewrite Hparts, Hoffsets, parts_text_expected.
  refine (conj eq_refl (conj eq_refl (conj eq_refl (conj _ (conj _ _))))).
  - rewrite insertCitationMarkers_weave.
    apply strip_markers_weave. exact Hc.
  - intros Hnil. unfold resolve. rewrite processNode_string, Hparts.
    rewrite insertCitationMarkers_weave, Hnil. cbn [expected_parts weave].
    destruct content; reflexivity.
  - intros Hne Hmore. unfold resolve. rewrite processNode_string, Hparts.
    pose proof (parts_length
                  (expected_parts 0 content
                     (indexCitations content citations)) 0) as Hlen.
    rewrite Hoffsets, length_map, parts_text_expected in Hlen.
    assert (H2 : 1 < length (expected_parts 0 content
                               (indexCitations content citations))).
    { destruct (indexCitations content citations) as [|x [|y l]];
        [contradiction| |].
      - destruct Hmore as [Hcn|Hl]; [|cbn in Hl; lia].
        destruct content; [contradiction|]. cbn [length] in Hlen. lia.
      - cbn [length] in Hlen. lia. }
    apply Nat.ltb_lt in H2. rewrite H2. reflexivity.
Qed.

Lemma citation_round_trip_witness :
  let content := js "hello world" in
  let citations := [cite_at 5 "a"; cite_at 2 "b"; cite_at 5 "c"] in
  regex_exec content = None
  /\ resolve content citations
     = NFragment
         [NString (js "he"); NInlineCitation 1 (cite_at 2 "b");
          NString (js "llo"); NInlineCitation 2 (cite_at 5 "a");
          NInlineCitation 3 (cite_at 5 "c"); NString (js " world")]
  /\ strip_markers (insertCitationMarkers content citations) = content.
Proof.
  split; [reflexivity|].
  pose proof (citation_round_trip (js "hello world")
                [cite_at 5 "a"; cite_at 2 "b"; cite_at 5 "c"] eq_refl) as H.
  cbv zeta in H. destruct H as (Hp & _ & _ & Hs & _ & Hr).
  split; [|exact Hs].
  rewrite Hr, Hp; [reflexivity | discriminate | left; discriminate].
Defined.

(** C3 as it is worded fails on a content that holds a marker token
    of its own: with one valid citation the resolver yields two citation
    references, and removing the marker tokens of the annotated content
    does not give the content back. *)
Lemma citation_round_trip_counterexample :
  let content := js "[CITATION_0]" in
  let citations := [cite_at 0 "a"] in
  length (validCitations content citations) = 1
  /\ insertCitationMarkers content citations = js "[CITATION_0][CITATION_0]"
  /\ resolve content citations
     = NFragment [NInlineCitation 1 (cite_at 0 "a");
                  NInlineCitation 1 (cite_at 0 "a")]
  /\ citation_nodes (resolve content citations) = 2
  /\ strip_markers (insertCitationMarkers content citations) <> content.
Proof.
  repeat split; try (vm_compute; reflexivity).
  vm_compute. discriminate.
Qed.

(** ** The whole run of the bridge, whatever the consumer does *)

Lemma start_after_loop (chatStream : upstream) (st : state) :
  start chatStream st
  = after_loop
      (for_await (steps chatStream) (fin chatStream) process_response st).
Proof.
  rewrite start_eq. unfold after_loop.
  destruct (for_await (steps chatStream) (fin chatStream) process_response st)
    as [[[]|e| | |] st1]; reflexivity.
Qed.

(** An item on a sink that is closed: nothing is written; the loop is left
    at a [message_end] and goes on otherwise. *)
Lemma step_closed (response : json) (st : state) :
  closed st = true -> streamEnded st = false ->
  exists c st',
    (pull ;; process_response response) st = (c, st')
    /\ frames st' = frames st /\ closes st' = closes st
    /\ closed st' = true /\ pulled st' = S (pulled st)
    /\ (if is_message_end response then c = Break
        else (c = Normal tt \/ c = Continue) /\ streamEnded st' = false).
Proof.
  intros Hc He. rewrite pull_then, process_response_eq.
  unfold is_message_end, decoded.
  change (closed (after pull st)) with (closed st). rewrite Hc.
  destruct (truthy response) eqn:Et.
  2:{ do 2 eexists. split; [reflexivity|]. cbn. auto 10. }
  assert (Hdata : forall data,
             truthy data = true ->
             exists c st',
               (let st1 := if type_is data "message_end"
                           then after set_streamEnded (after pull st)
                           else after pull st in
                if streamEnded st1 then (Break, st1)
                else console_error
                       (ErrorProcessingChunk invalid_state_error response)
                       st1) = (c, st')
               /\ frames st' = frames st /\ closes st' = closes st
               /\ closed st' = true /\ pulled st' = S (pulled st)
               /\ (if type_is data "message_end" then c = Break
                   else (c = Normal tt \/ c = Continue)
                        /\ streamEnded st' = false)).
  { intros data Hd. cbv zeta. destruct (type_is data "message_end").
    - do 2 eexists. split; [reflexivity|]. cbn. auto 10.
    - change (streamEnded (after pull st)) with (streamEnded st). rewrite He.
      do 2 eexists. split; [reflexivity|]. cbn. auto 10. }
  destruct response as [| | |s| |]; try discriminate;
    try (rewrite Et; apply Hdata; exact Et).
  cbv beta iota.
  destruct (JSON_parse (trim (strip_data_label s))) as [data|].
  - destruct (truthy data) eqn:Ed.
    + apply Hdata. exact Ed.
    + do 2 eexists. split; [reflexivity|]. cbn. auto 10.
  - do 2 eexists. split; [reflexivity|]. cbn. auto 10.
Qed.

Lemma for_await_closed (upstream_steps : list step) :
  forall (ending_ : ending) (st : state),
    closed st = true -> streamEnded st = false ->
    exists c st',
      for_await upstream_steps ending_ process_response st = (c, st')
      /\ (c = Normal tt \/ exists e, c = Throw e)
      /\ frames st' = frames st /\ closes st' = closes st
      /\ closed st' = true
      /\ pulled st' = pulled st + pulled_expected upstream_steps.
Proof.
  induction upstream_steps as [|s rest IH]; intros ending_ st Hc He.
  - destruct ending_ as [|error]; do 2 eexists;
      (split; [reflexivity|]); cbn; rewrite Nat.add_0_r; eauto 10.
  - destruct s as [response|].
    + rewrite for_await_yield.
      destruct (step_closed response st Hc He)
        as (c & st1 & Hstep & Hf & Hcl & Hc1 & Hp & Hcase).
      rewrite Hstep. cbn [pulled_expected].
      destruct (is_message_end response).
      * subst c. do 2 eexists. split; [reflexivity|].
        rewrite Hf, Hcl, Hp. repeat split; auto; lia.
      * destruct Hcase as [Hcase He1].
        destruct (IH ending_ st1 Hc1 He1)
          as (c' & st' & Hloop & Hc' & Hf' & Hcl' & Hcd' & Hp').
        exists c', st'. split.
        { destruct Hcase as [-> | ->]; exact Hloop. }
        rewrite Hf', Hcl', Hp', Hf, Hcl, Hp. repeat split; auto; lia.
    + rewrite for_await_hangup.
      destruct (IH ending_ (after hangup st) eq_refl He)
        as (c' & st' & Hloop & Hc' & Hf' & Hcl' & Hcd' & Hp').
      exists c', st'. split; [exact Hloop|].
      rewrite Hf', Hcl', Hp'. cbn. auto 10.
Qed.

Lemma after_loop_closed (c : completion unit) (st : state) :
  closed st = true -> (c = Normal tt \/ exists e, c = Throw e) ->
  fst (after_loop (c, st)) = Normal tt
  /\ frames (snd (after_loop (c, st))) = frames st
  /\ closes (snd (after_loop (c, st))) = closes st
  /\ closed (snd (after_loop (c, st))) = true
  /\ pulled (snd (after_loop (c, st))) = pulled st.
Proof.
  intros Hc [-> | [e ->]]; unfold after_loop.
  - rewrite Hc. destruct (streamEnded st); cbn; auto.
  - cbv zeta.
    change (closed (after (console_error (StreamError e)) st))
      with (closed st).
    rewrite Hc.
    change (closed (after (console_error (StreamError e)) st))
      with (closed st).
    rewrite Hc. cbn. auto.
Qed.

(** The run from an open sink. *)
Lemma run_from_open (upstream_steps : list step) :
  forall (ending_ : ending) (st : state),
    closed st = false -> streamEnded st = false ->
    let r := after_loop
               (for_await upstream_steps ending_ process_response st) in
    (fst r = Normal tt \/ fst r = Return)
    /\ frames (snd r) = frames st ++ written upstream_steps ending_
    /\ closes (snd r) = closes st + closes_expected upstream_steps
    /\ closed (snd r) = true
    /\ pulled (snd r) = pulled st + pulled_expected upstream_steps.
Proof.
  induction upstream_steps as [|s rest IH]; intros ending_ st Hc He; cbv zeta.
  - destruct ending_ as [|error]; cbn [for_await written closes_expected
                                         pulled_expected].
    + unfold ret, after_loop. rewrite He, Hc.
      unfold after, close. rewrite Hc. cbn.
      rewrite app_nil_r. repeat split; auto; lia.
    + unfold throw, after_loop. cbv zeta.
      change (closed (after (console_error (StreamError error)) st))
        with (closed st).
      rewrite Hc. unfold after, close, enqueue, console_error. cbn.
      rewrite Hc. cbn. repeat split; auto; lia.
  - destruct s as [response|].
    + rewrite for_await_yield. cbn [written closes_expected pulled_expected].
      destruct (is_message_end response) eqn:Eend.
      * unfold is_message_end in Eend.
        destruct (decoded response) as [data|] eqn:Ed; [|discriminate].
        destruct (step_message_end response data st Hc Ed Eend)
          as (st1 & Hstep & Hc1 & He1 & Hf1 & Hcl1 & Hp1).
        rewrite Hstep, Eend. cbn [after_loop fst snd].
        rewrite Hf1, Hcl1, Hp1. repeat split; auto; lia.
      * destruct (step_forwarded response st Hc He Eend)
          as (c & st1 & Hstep & Hcase & Hc1 & He1 & Hf1 & Hcl1 & Hp1).
        rewrite Hstep.
        specialize (IH ending_ st1 Hc1 He1). cbv zeta in IH.
        destruct IH as (IH1 & IH2 & IH3 & IH4 & IH5).
        assert (Hw : forwarded_item response ++ written rest ending_
                     = match decoded response with
                       | Some data =>
                           transformed data
                           :: (if type_is data "message_end" then []
                               else written rest ending_)
                       | None => written rest ending_
                       end).
        { unfold forwarded_item. unfold is_message_end in Eend.
          destruct (decoded response) as [data|]; [|reflexivity].
          rewrite Eend. reflexivity. }
        rewrite <- Hw.
        destruct Hcase as [-> | ->];
          (split; [exact IH1|]);
          rewrite IH2, IH3, IH4, IH5, Hf1, Hcl1, Hp1, <- app_assoc;
          repeat split; auto; lia.
    + rewrite for_await_hangup. cbn [written closes_expected pulled_expected].
      destruct (for_await_closed rest ending_ (after hangup st) eq_refl He)
        as (c & st' & Hloop & Hcase & Hf & Hcl & Hcd & Hp).
      rewrite Hloop.
      destruct (after_loop_closed c st' Hcd Hcase)
        as (A1 & A2 & A3 & A4 & A5).
      rewrite A1, A2, A3, A4, A5, Hf, Hcl, Hp. cbn.
      rewrite app_nil_r. repeat split; auto; lia.
Qed.

(** Every run of the bridge. *)
Lemma bridge_run (upstream_steps : list step) (ending_ : ending) :
  exists st,
    bridge {| steps := upstream_steps; fin := ending_ |} = (Fulfilled, st)
    /\ frames st = written upstream_steps ending_
    /\ closes st = closes_expected upstream_steps
    /\ closed st = true
    /\ pulled st = pulled_expected upstream_steps.
Proof.
  unfold bridge. rewrite start_after_loop. cbn [steps fin].
  pose proof (run_from_open upstream_steps ending_ initial_state
                eq_refl eq_refl) as H. cbv zeta in H.
  destruct (after_loop
              (for_await upstream_steps ending_ process_response
                 initial_state)) as [c st].
  cbn [fst snd] in H. destruct H as (H1 & H2 & H3 & H4 & H5).
  exists st. cbn in H2, H3, H5.
  destruct H1 as [-> | ->]; auto.
Qed.

(** X1: on every upstream sequence, whatever it raises and whenever the
    consumer hangs up, [start] is fulfilled and the frames written are those
    of the items that decode, in their order, up to the first [message_end]
    or to the hang-up, followed by the error frame when the stream raises
    while the sink is open. *)
Theorem bridge_writes (upstream_steps : list step) (ending_ : ending) :
  fst (bridge {| steps := upstream_steps; fin := ending_ |}) = Fulfilled
  /\ frames (snd (bridge {| steps := upstream_steps; fin := ending_ |}))
     = written upstream_steps ending_.
Proof.
  destruct (bridge_run upstream_steps ending_) as (st & -> & H & _).
  split; [reflexivity | exact H].
Qed.

Lemma closes_expected_le (upstream_steps : list step) :
  closes_expected upstream_steps <= 1.
Proof.
  induction upstream_steps as [|[response|] rest IH]; cbn; try lia.
  destruct (is_message_end response); lia.
Qed.

Lemma closes_expected_no_hangup (upstream_steps : list step) :
  no_hangup upstream_steps -> closes_expected upstream_steps = 1.
Proof.
  induction upstream_steps as [|[response|] rest IH]; intros H; cbn.
  - reflexivity.
  - destruct (is_message_end response); [reflexivity|].
    apply IH. apply no_hangup_cons in H. tauto.
  - apply no_hangup_cons in H. destruct H as [H _]. discriminate.
Qed.

(** X2: every run leaves the sink closed; [close] succeeds once when the
    consumer does not hang up before the bridge is done (in particular when
    it never hangs up), and not at all when it does: the sink is never
    closed twice. *)
Theorem bridge_closes (upstream_steps : list step) (ending_ : ending) :
  let st := snd (bridge {| steps := upstream_steps; fin := ending_ |}) in
  closed st = true
  /\ closes st = closes_expected upstream_steps
  /\ closes st <= 1
  /\ (no_hangup upstream_steps -> closes st = 1)
  /\ (forall pre post,
         upstream_steps = pre ++ Hangup :: post ->
         no_hangup pre -> no_message_end pre -> closes st = 0).
Proof.
  cbv zeta.
  destruct (bridge_run upstream_steps ending_) as (st & -> & _ & Hc & Hd & _).
  cbn [snd]. rewrite Hc.
  repeat split; auto using closes_expected_le, closes_expected_no_hangup.
  intros pre post -> _ Hm. clear -Hm.
  induction pre as [|[response|] pre IH]; cbn; [reflexivity| |].
  - apply no_message_end_cons in Hm. destruct Hm as [H1 H2].
    cbn in H1. rewrite H1. apply IH. exact H2.
  - reflexivity.
Qed.

Lemma pulled_expected_all (upstream_steps : list step) :
  no_message_end upstream_steps ->
  pulled_expected upstream_steps = yields upstream_steps.
Proof.
  unfold yields.
  induction upstream_steps as [|[response|] rest IH]; intros H; cbn.
  - reflexivity.
  - apply no_message_end_cons in H. destruct H as [H1 H2].
    cbn in H1. rewrite H1, (IH H2). reflexivity.
  - apply no_message_end_cons in H. destruct H as [_ H2].
    exact (IH H2).
Qed.

Lemma pulled_expected_stop (pre post : list step) (e : json) :
  no_message_end pre -> is_message_end e = true ->
  pulled_expected (pre ++ Yield e :: post) = yields pre + 1.
Proof.
  unfold yields. intros Hm He.
  induction pre as [|[response|] pre IH]; cbn.
  - rewrite He. reflexivity.
  - apply no_message_end_cons in Hm. destruct Hm as [H1 H2].
    cbn in H1. rewrite H1, (IH H2). reflexivity.
  - apply no_message_end_cons in Hm. destruct Hm as [_ H2].
    exact (IH H2).
Qed.

(** X3: the loop takes no item after the first [message_end], whether its
    frame could be written or not; without a [message_end] it takes every
    item the stream yields, also after the consumer has hung up. *)
Theorem bridge_takes (upstream_steps : list step) (ending_ : ending) :
  let st := snd (bridge {| steps := upstream_steps; fin := ending_ |}) in
  (no_message_end upstream_steps -> pulled st = yields upstream_steps)
  /\ (forall pre e post,
         upstream_steps = pre ++ Yield e :: post ->
         no_message_end pre -> is_message_end e = true ->
         pulled st = yields pre + 1).
Proof.
  cbv zeta.
  destruct (bridge_run upstream_steps ending_) as (st & -> & _ & _ & _ & Hp).
  cbn [snd]. rewrite Hp. split.
  - apply pulled_expected_all.
  - intros pre e post -> Hm He. apply pulled_expected_stop; assumption.
Qed.

Lemma written_congruent (pre post : list step) (r1 r2 : json)
  (ending_ : ending) :
  decoded r1 = decoded r2 ->
  written (pre ++ Yield r1 :: post) ending_
  = written (pre ++ Yield r2 :: post) ending_.
Proof.
  intros H. induction pre as [|[response|] pre IH]; cbn.
  - rewrite H. reflexivity.
  - rewrite IH. reflexivity.
  - reflexivity.
Qed.

Lemma written_skip (pre post : list step) (r : json) (ending_ : ending) :
  decoded r = None ->
  written (pre ++ Yield r :: post) ending_ = written (pre ++ post) ending_.
Proof.
  intros H. induction pre as [|[response|] pre IH]; cbn.
  - rewrite H. reflexivity.
  - rewrite IH. reflexivity.
  - reflexivity.
Qed.

(** X4: an item that is falsy, that does not parse, or that parses to a
    falsy value leaves no trace in the output: the frames written are those
    of the sequence without the item, in every run. *)
Theorem bridge_skips_item (pre post : list step) (bad : json)
  (ending_ : ending) :
  decoded bad = None ->
  frames (snd (bridge {| steps := pre ++ Yield bad :: post; fin := ending_ |}))
  = frames (snd (bridge {| steps := pre ++ post; fin := ending_ |})).
Proof.
  intros H.
  destruct (bridge_run (pre ++ Yield bad :: post) ending_)
    as (st1 & -> & H1 & _).
  destruct (bridge_run (pre ++ post) ending_) as (st2 & -> & H2 & _).
  cbn [snd]. rewrite H1, H2. apply written_skip. exact H.
Qed.

Lemma bridge_skips_item_witness :
  let pre := [Yield (chunk_event "a")] in
  let post := [Hangup; Yield (chunk_event "b")] in
  decoded (JStr (js "data: {broken")) = None
  /\ frames (snd (bridge {| steps := pre ++ Yield (JStr (js "data: {broken"))
                                       :: post;
                            fin := Raises JNull |}))
     = frames (snd (bridge {| steps := pre ++ post; fin := Raises JNull |})).
Proof.
  split; [reflexivity|].
  exact (bridge_skips_item [Yield (chunk_event "a")]
           [Hangup; Yield (chunk_event "b")] (JStr (js "data: {broken"))
           (Raises JNull) eq_refl).
Defined.

(** ** The event transformer, more *)

Lemma trim_start_idempotent (s : jsstring) :
  trim_start (trim_start s) = trim_start s.
Proof.
  induction s as [|c s IH]; [reflexivity|].
  cbn. destruct (is_js_space c) eqn:E; [exact IH|].
  cbn. rewrite E. reflexivity.
Qed.

Lemma decoded_label (s : jsstring) :
  strip_prefix (js "data:") s = None ->
  decoded (JStr (js "data:" ++ s)) = decoded (JStr s).
Proof.
  intros H. unfold decoded.
  assert (E1 : strip_data_label (js "data:" ++ s) = trim_start s).
  { unfold strip_data_label. rewrite strip_prefix_app. reflexivity. }
  assert (E2 : strip_data_label s = s).
  { unfold strip_data_label. rewrite H. reflexivity. }
  rewrite E1, E2.
  assert (E3 : trim (trim_start s) = trim s).
  { unfold trim. rewrite trim_start_idempotent. reflexivity. }
  rewrite E3.
  change (truthy (JStr (js "data:" ++ s))) with true.
  destruct s as [|c s]; [reflexivity|]. reflexivity.
Qed.

(** X5: the label [data:] of a string item is optional: with the label in
    front, and any white space after it, the item is decoded to the same
    data and every run writes the same frames. *)
Theorem data_label_optional (pre post : list step) (s : jsstring)
  (ending_ : ending) :
  strip_prefix (js "data:") s = None ->
  decoded (JStr (js "data:" ++ s)) = decoded (JStr s)
  /\ frames (snd (bridge {| steps := pre ++ Yield (JStr (js "data:" ++ s))
                                       :: post;
                            fin := ending_ |}))
     = frames (snd (bridge {| steps := pre ++ Yield (JStr s) :: post;
                              fin := ending_ |})).
Proof.
  intros H. pose proof (decoded_label s H) as Hd. split; [exact Hd|].
  destruct (bridge_run (pre ++ Yield (JStr (js "data:" ++ s)) :: post)
              ending_) as (st1 & -> & H1 & _).
  destruct (bridge_run (pre ++ Yield (JStr s) :: post) ending_)
    as (st2 & -> & H2 & _).
  cbn [snd]. rewrite H1, H2. apply written_congruent. exact Hd.
Qed.

Lemma data_label_optional_witness :
  let s := jsq "  {'type':'content_chunk','content':'Hi'} " in
  strip_prefix (js "data:") s = None
  /\ decoded (JStr (js "data:" ++ s)) = decoded (JStr s).
Proof.
  split; [reflexivity|].
  exact (proj1 (data_label_optional [] []
                  (jsq "  {'type':'content_chunk','content':'Hi'} ")
                  Exhausted eq_refl)).
Defined.

Lemma content_by_truthiness_falsy (data : json) :
  truthy (content_by_truthiness data) = false ->
  content_by_truthiness data = JStr [].
Proof.
  unfold content_by_truthiness.
  destruct (get_opt (get data (js "delta")) (js "content")) as [c|];
    [destruct (truthy c) eqn:E; [congruence|]|];
    (destruct (get data (js "content")) as [c'|];
     [destruct (truthy c') eqn:E'; [congruence|]|]); reflexivity.
Qed.

(** X6: the transformer never changes the discriminant: the frame of an
    event has the [type] of the event, present or not. *)
Theorem transform_keeps_type (data : json) (st : state) :
  exists frame st',
    transform data st = (Normal frame, st')
    /\ get frame (js "type") = get data (js "type").
Proof.
  rewrite transform_eq. do 2 eexists. split; [reflexivity|].
  unfold transformed.
  destruct (type_is data "message_start") eqn:E1.
  { rewrite (type_is_elim data "message_start" E1).
    destruct (get data (js "id")), (get data (js "model")),
      (get data (js "role")); reflexivity. }
  destruct (type_is data "content_chunk") eqn:E2.
  { rewrite (type_is_elim data "content_chunk" E2). reflexivity. }
  destruct (type_is data "citation") eqn:E3.
  { rewrite (type_is_elim data "citation" E3).
    destruct (get data (js "citation")); reflexivity. }
  destruct (type_is data "message_end") eqn:E4; [|reflexivity].
  rewrite (type_is_elim data "message_end" E4).
  destruct (get data (js "finish_reason")), (get data (js "usage"));
    reflexivity.
Qed.

(** X7: a frame of the transformer is a fixed point of the transformer:
    transforming it again gives the same frame. *)
Theorem transform_idempotent (data : json) (st : state) :
  exists frame st',
    transform data st = (Normal frame, st')
    /\ transform frame st' = (Normal frame, st').
Proof.
  rewrite transform_eq. do 2 eexists. split; [reflexivity|].
  rewrite transform_eq.
  assert (Hf : transformed (transformed data) = transformed data
               /\ type_is (transformed data) "message_end"
                  = type_is data "message_end").
  { destruct (type_is data "message_start") eqn:E1.
    { assert (Ht : transformed data
                   = JObj (object_of
                       [(js "type", Some (JStr (js "message_start")));
                        (js "id", get data (js "id"));
                        (js "model", get data (js "model"));
                        (js "role", get data (js "role"))])).
      { unfold transformed. rewrite E1. reflexivity. }
      rewrite Ht.
      rewrite (type_is_other data "message_start" "message_end" E1)
        by reflexivity.
      destruct (get data (js "id")), (get data (js "model")),
        (get data (js "role")); split; reflexivity. }
    destruct (type_is data "content_chunk") eqn:E2.
    { assert (Ht : transformed data
                   = content_chunk_frame (content_by_truthiness data)).
      { unfold transformed. rewrite E1, E2. reflexivity. }
      rewrite Ht.
      rewrite (type_is_other data "content_chunk" "message_end" E2)
        by reflexivity.
      split; [|reflexivity].
      unfold transformed.
      change (type_is (content_chunk_frame (content_by_truthiness data))
                "message_start") with false.
      change (type_is (content_chunk_frame (content_by_truthiness data))
                "content_chunk") with true.
      cbv iota. f_equal.
      unfold content_by_truthiness at 1.
      change (get_opt (get (content_chunk_frame (content_by_truthiness data))
                         (js "delta")) (js "content"))
        with (Some (content_by_truthiness data)).
      change (get (content_chunk_frame (content_by_truthiness data))
                (js "content")) with (@None json).
      cbv beta iota.
      destruct (truthy (content_by_truthiness data)) eqn:Et; [reflexivity|].
      symmetry. apply content_by_truthiness_falsy. exact Et. }
    destruct (type_is data "citation") eqn:E3.
    { assert (Ht : transformed data
                   = JObj (object_of
                       [(js "type", Some (JStr (js "citation")));
                        (js "citation", get data (js "citation"))])).
      { unfold transformed. rewrite E1, E2, E3. reflexivity. }
      rewrite Ht.
      rewrite (type_is_other data "citation" "message_end" E3)
        by reflexivity.
      destruct (get data (js "citation")); split; reflexivity. }
    destruct (type_is data "message_end") eqn:E4.
    { assert (Ht : transformed data
                   = JObj (object_of
                       [(js "type", Some (JStr (js "message_end")));
                        (js "finish_reason", get data (js "finish_reason"));
                        (js "usage", get data (js "usage"))])).
      { unfold transformed. rewrite E1, E2, E3, E4. reflexivity. }
      rewrite Ht.
      destruct (get data (js "finish_reason")), (get data (js "usage"));
        split; reflexivity. }
    assert (Ht : transformed data = data).
    { unfold transformed. rewrite E1, E2, E3, E4. reflexivity. }
    rewrite Ht. rewrite Ht, E4. auto. }
  destruct Hf as [Hf1 Hf2]. rewrite Hf1, Hf2.
  destruct (type_is data "message_end"); reflexivity.
Qed.

(** ** The error unwrapper, more *)

Lemma unwrap_loop_lower (f : nat) (p error_message errorMessage : json) :
  truthy p && is_object p = true ->
  truthy_opt (error_message_of p) = false ->
  unwrap_loop (S f) p error_message errorMessage
  = match get p (js "message") with
    | Some m =>
        if truthy m then Some m
        else
          match get p (js "error") with
          | Some (JStr e) => Some (JStr e)
          | _ => Some error_message
          end
    | None =>
        match get p (js "error") with
        | Some (JStr e) => Some (JStr e)
        | _ => Some error_message
        end
    end.
Proof.
  intros Hobj Hem. cbn [unwrap_loop]. rewrite Hobj.
  destruct (error_message_of p) as [m|]; [|reflexivity].
  cbn in Hem. rewrite Hem. reflexivity.
Qed.

(** X8: a raised message that is not JSON, or that is JSON for something
    other than an object or an array, is the diagnostic message as it is. *)
Theorem unwrap_raw_message (text : jsstring) :
  text <> [] ->
  match JSON_parse text with
  | None => True
  | Some p => truthy p && is_object p = false
  end ->
  extractErrorMessage (error_with_message text) = JStr text.
Proof.
  intros Hne H. unfold extractErrorMessage.
  change (get (error_with_message text) (js "message"))
    with (Some (JStr text)).
  cbv beta iota.
  assert (Ht : truthy (JStr text) = true).
  { destruct text; [exfalso; apply Hne; reflexivity | reflexivity]. }
  rewrite Ht.
  destruct (JSON_parse text) as [p|]; [|reflexivity].
  cbn [unwrap_loop]. rewrite H. reflexivity.
Qed.

Lemma unwrap_raw_message_witness :
  extractErrorMessage (error_with_message (js "429")) = JStr (js "429")
  /\ extractErrorMessage (error_with_message (js "Request timed out"))
     = JStr (js "Request timed out").
Proof.
  split.
  - exact (unwrap_raw_message (js "429") ltac:(discriminate) eq_refl).
  - exact (unwrap_raw_message (js "Request timed out") ltac:(discriminate) I).
Defined.

(** X9: the lower priorities.  When the raised message is JSON for an object
    that has no truthy [error.message]: a truthy [message] of the object is
    the diagnostic message; failing that, an [error] that is a string is,
    even when it is empty; failing that, the raised message as it is.  (A
    message that is the literal [An error occurred] gives the raised message
    instead.) *)
Theorem unwrap_lower_priorities (text : jsstring) (p : json) :
  JSON_parse text = Some p ->
  truthy p && is_object p = true ->
  truthy_opt (error_message_of p) = false ->
  (forall m, get p (js "message") = Some m -> truthy m = true ->
             extractErrorMessage (error_with_message text)
             = if is_an_error_occurred m then JStr text else m)
  /\ (forall e, truthy_opt (get p (js "message")) = false ->
                get p (js "error") = Some (JStr e) ->
                extractErrorMessage (error_with_message text)
                = if is_an_error_occurred (JStr e) then JStr text
                  else JStr e)
  /\ (truthy_opt (get p (js "message")) = false ->
      match get p (js "error") with
      | Some (JStr _) => False
      | _ => True
      end ->
      extractErrorMessage (error_with_message text) = JStr text).
Proof.
  intros Hp Hobj Hem.
  assert (Hne : truthy (JStr text) = true).
  { destruct text; [|reflexivity].
    apply JSON_parse_nonempty in Hp. contradiction. }
  destruct (extractErrorMessage_loop (error_with_message text) (JStr text) p
              eq_refl Hne Hp) as (r & Hr & ->).
  rewrite (unwrap_loop_lower _ _ _ _ Hobj Hem) in Hr.
  repeat split.
  - intros m Hm Ht. rewrite Hm, Ht in Hr. injection Hr as <-. reflexivity.
  - intros e Hm He. rewrite He in Hr.
    destruct (get p (js "message")) as [m|].
    + cbn in Hm. rewrite Hm in Hr. injection Hr as <-. reflexivity.
    + injection Hr as <-. reflexivity.
  - intros Hm He.
    assert (Hraw : r = JStr text).
    { destruct (get p (js "message")) as [m|].
      - cbn in Hm. rewrite Hm in Hr.
        destruct (get p (js "error")) as [[| | |e| |]|];
          try contradiction; injection Hr as <-; reflexivity.
      - destruct (get p (js "error")) as [[| | |e| |]|];
          try contradiction; injection Hr as <-; reflexivity. }
    rewrite Hraw. destruct (is_an_error_occurred (JStr text)); reflexivity.
Qed.

Lemma unwrap_lower_priorities_witness :
  extractErrorMessage
    (error_with_message (jsq "{'message':'quota exceeded','error':'E1'}"))
    = JStr (js "quota exceeded")
  /\ extractErrorMessage
       (error_with_message (jsq "{'error':'E1','status':429}"))
     = JStr (js "E1")
  /\ extractErrorMessage (error_with_message (jsq "{'status':429}"))
     = JStr (jsq "{'status':429}").
Proof.
  pose proof (unwrap_lower_priorities
                (jsq "{'message':'quota exceeded','error':'E1'}")
                (JObj [(js "message", JStr (js "quota exceeded"));
                       (js "error", JStr (js "E1"))])
                eq_refl eq_refl eq_refl) as (H1 & _ & _).
  pose proof (unwrap_lower_priorities
                (jsq "{'error':'E1','status':429}")
                (JObj [(js "error", JStr (js "E1"));
                       (js "status",
                        JNum {| num_neg := false; num_mantissa := 429;
                                num_exponent := 0 |})])
                eq_refl eq_refl eq_refl) as (_ & H2 & _).
  pose proof (unwrap_lower_priorities
                (jsq "{'status':429}")
                (JObj [(js "status",
                        JNum {| num_neg := false; num_mantissa := 429;
                                num_exponent := 0 |})])
                eq_refl eq_refl eq_refl) as (_ & _ & H3).
  split; [exact (H1 _ eq_refl eq_refl)|].
  split; [exact (H2 _ eq_refl eq_refl) | exact (H3 eq_refl I)].
Defined.

(** ** The handler around the stream *)

Lemma caught_shape (e : exn) :
  status (caught e) = 500
  /\ content_type (caught e) = js "application/json"
  /\ exists m, body (caught e) = JsonBody (JObj [(js "error", m)])
               /\ truthy m = true.
Proof.
  unfold caught.
  destruct (get e (js "message")) as [m|]; [destruct (truthy m) eqn:E|];
    (split; [reflexivity | split; [reflexivity|]]);
    eexists; (split; [reflexivity|]); auto.
Qed.

Lemma map_sanitize_no_null (l sanitized : list json) :
  map_sanitize l = inr sanitized -> Forall (fun msg => msg <> JNull) l.
Proof.
  revert sanitized. induction l as [|msg l IH]; intros sanitized H.
  - constructor.
  - cbn in H. destruct (sanitize_message msg) as [e|m] eqn:Em;
      [discriminate|].
    destruct (map_sanitize l) as [e|ms] eqn:El; [discriminate|].
    constructor; [|apply (IH ms eq_refl)].
    intros ->. discriminate.
Qed.

(** X10: the handler always answers.  It answers with the event stream, with
    the status 200, only when the body of the request parses to something
    other than [null] whose [messages] is an array without [null], the
    assistant name is configured and [getAssistant] returns; the stream is
    then the run of the bridge on the chat stream of the sanitized
    messages, and that run is fulfilled.  In every other case it answers
    with the status 500 and a JSON body [{ error }] whose message is
    truthy. *)
Theorem POST_response (env : environment) (request_body : jsstring) :
  match body (POST env request_body) with
  | StreamBody run =>
      status (POST env request_body) = 200
      /\ content_type (POST env request_body) = js "text/event-stream"
      /\ exists v l name sanitizedMessages,
           JSON_parse request_body = Some v /\ v <> JNull
           /\ get v (js "messages") = Some (JArr l)
           /\ Forall (fun msg => msg <> JNull) l
           /\ PINECONE_ASSISTANT_NAME env = Some name /\ name <> []
           /\ getAssistant env name = None
           /\ map_sanitize l = inr sanitizedMessages
           /\ run = bridge (chatStream env name sanitizedMessages
                              (js "gpt-4.1"))
           /\ fst run = Fulfilled
  | JsonBody b =>
      status (POST env request_body) = 500
      /\ content_type (POST env request_body) = js "application/json"
      /\ exists m, b = JObj [(js "error", m)] /\ truthy m = true
  end.
Proof.
  set (P := fun r : response =>
    match body r with
    | StreamBody run =>
        status r = 200
        /\ content_type r = js "text/event-stream"
        /\ exists v l name sanitizedMessages,
             JSON_parse request_body = Some v /\ v <> JNull
             /\ get v (js "messages") = Some (JArr l)
             /\ Forall (fun msg => msg <> JNull) l
             /\ PINECONE_ASSISTANT_NAME env = Some name /\ name <> []
             /\ getAssistant env name = None
             /\ map_sanitize l = inr sanitizedMessages
             /\ run = bridge (chatStream env name sanitizedMessages
                                (js "gpt-4.1"))
             /\ fst run = Fulfilled
    | JsonBody b =>
        status r = 500
        /\ content_type r = js "application/json"
        /\ exists m, b = JObj [(js "error", m)] /\ truthy m = true
    end).
  change (P (POST env request_body)).
  assert (Hcaught : forall e, P (caught e)).
  { intros e. unfold P.
    destruct (caught_shape e) as (H1 & H2 & m & H3 & H4).
    rewrite H3. split; [exact H1 | split; [exact H2|]].
    exists m. split; [reflexivity | exact H4]. }
  assert (Hmissing :
            P (error_response (JStr (js "Missing PINECONE_ASSISTANT_NAME")))).
  { unfold P. cbn. split; [reflexivity | split; [reflexivity|]].
    eexists. split; reflexivity. }
  unfold POST, read_messages.
  destruct (JSON_parse request_body) as [v|] eqn:Ev; [|apply Hcaught].
  assert (Hgo : v <> JNull ->
    P match PINECONE_ASSISTANT_NAME env with
      | Some (c :: name) =>
          match getAssistant env (c :: name) with
          | Some e => caught e
          | None =>
              match sanitize_messages (get v (js "messages")) with
              | inl e => caught e
              | inr sanitizedMessages =>
                  {| status := 200;
                     content_type := js "text/event-stream";
                     body :=
                       StreamBody
                         (bridge (chatStream env (c :: name)
                                    sanitizedMessages (js "gpt-4.1"))) |}
              end
          end
      | _ => error_response (JStr (js "Missing PINECONE_ASSISTANT_NAME"))
      end).
  { intros Hv.
    destruct (PINECONE_ASSISTANT_NAME env) as [[|c name]|] eqn:En;
      try exact Hmissing.
    destruct (getAssistant env (c :: name)) as [e|] eqn:Eg;
      [apply Hcaught|].
    unfold sanitize_messages.
    destruct (get v (js "messages")) as [[| | | |l|]|] eqn:Em;
      try apply Hcaught.
    destruct (map_sanitize l) as [e|sanitized] eqn:Es; [apply Hcaught|].
    unfold P. cbn [body status content_type].
    split; [reflexivity | split; [reflexivity|]].
    exists v, l, (c :: name), sanitized.
    split; [reflexivity|]. split; [exact Hv|]. split; [exact Em|].
    split; [apply (map_sanitize_no_null l sanitized Es)|].
    split; [reflexivity|]. split; [discriminate|]. split; [exact Eg|].
    split; [exact Es|]. split; [reflexivity|].
    destruct (bridge_run
                (steps (chatStream env (c :: name) sanitized (js "gpt-4.1")))
                (fin (chatStream env (c :: name) sanitized (js "gpt-4.1"))))
      as (st & Hrun & _).
    destruct (chatStream env (c :: name) sanitized (js "gpt-4.1"))
      as [ss ff]. cbn [steps fin] in Hrun. rewrite Hrun. reflexivity. }
  destruct v; try (apply Hgo; discriminate).
  apply Hcaught.
Qed.

Lemma get_sanitized (a b : option json) (k : jsstring) :
  get (JObj (object_of [(js "role", a); (js "content", b)])) k
  = if jsstring_eqb (js "content") k then
      match b with
      | Some v => Some v
      | None => if jsstring_eqb (js "role") k then a else None
      end
    else if jsstring_eqb (js "role") k then a else None.
Proof.
  destruct a as [va|], b as [vb|]; cbn [object_of get members_get];
    destruct (jsstring_eqb (js "content") k) eqn:Ec,
             (jsstring_eqb (js "role") k) eqn:Er;
    try reflexivity.
  all: apply jsstring_eqb_eq in Ec, Er; subst k; discriminate.
Qed.

Lemma sanitize_message_spec (msg s : json) :
  sanitize_message msg = inr s ->
  get s (js "role") = get msg (js "role")
  /\ get s (js "content") = get msg (js "content")
  /\ (forall k, k <> js "role" -> k <> js "content" -> get s k = None)
  /\ sanitize_message s = inr s.
Proof.
  intros H.
  assert (Hs : s = JObj (object_of [(js "role", get msg (js "role"));
                                    (js "content", get msg (js "content"))])).
  { destruct msg; cbn in H; try discriminate; injection H as <-;
      reflexivity. }
  subst s. split; [|split; [|split]].
  - generalize (get msg (js "role")) (get msg (js "content")).
    intros [a|] [b|]; reflexivity.
  - generalize (get msg (js "role")) (get msg (js "content")).
    intros [a|] [b|]; reflexivity.
  - intros k Hr Hc. rewrite get_sanitized.
    assert (E1 : jsstring_eqb (js "content") k = false).
    { apply jsstring_eqb_neq. congruence. }
    assert (E2 : jsstring_eqb (js "role") k = false).
    { apply jsstring_eqb_neq. congruence. }
    rewrite E1, E2. reflexivity.
  - destruct (get msg (js "role")), (get msg (js "content")); reflexivity.
Qed.

(** X11: what is sent upstream.  When the messages can be sanitized, there
    is one sanitized message for each message, in the same order, with the
    [role] and the [content] of the message and no other property;
    sanitizing again changes nothing. *)
Theorem sanitized_messages (l sanitizedMessages : list json) :
  map_sanitize l = inr sanitizedMessages ->
  Forall2
    (fun msg s =>
       get s (js "role") = get msg (js "role")
       /\ get s (js "content") = get msg (js "content")
       /\ (forall k, k <> js "role" -> k <> js "content" -> get s k = None))
    l sanitizedMessages
  /\ map_sanitize sanitizedMessages = inr sanitizedMessages.
Proof.
  revert sanitizedMessages.
  induction l as [|msg l IH]; intros sanitized H.
  - cbn in H. injection H as <-. split; [constructor | reflexivity].
  - cbn in H. destruct (sanitize_message msg) as [e|s] eqn:Em;
      [discriminate|].
    destruct (map_sanitize l) as [e|ms] eqn:El; [discriminate|].
    injection H as <-.
    destruct (IH ms eq_refl) as [IH1 IH2].
    destruct (sanitize_message_spec msg s Em) as (H1 & H2 & H3 & H4).
    split.
    + constructor; auto.
    + cbn. rewrite H4, IH2. reflexivity.
Qed.

Lemma sanitized_messages_witness :
  let msg :=
    JObj [(js "role", JStr (js "assistant")); (js "content", JStr (js "Hi"));
          (js "citations", JArr [JObj [(js "position", JNull)]])] in
  let s := JObj [(js "role", JStr (js "assistant"));
                 (js "content", JStr (js "Hi"))] in
  map_sanitize [msg] = inr [s]
  /\ map_sanitize [s] = inr [s].
Proof.
  split; [reflexivity|].
  exact (proj2 (sanitized_messages
                  [JObj [(js "role", JStr (js "assistant"));
                         (js "content", JStr (js "Hi"));
                         (js "citations",
                          JArr [JObj [(js "position", JNull)]])]]
                  [JObj [(js "role", JStr (js "assistant"));
                         (js "content", JStr (js "Hi"))]] eq_refl)).
Defined.

(** ** The annotated content, for every content *)

Lemma weave_length (l : list (nat * citation)) :
  forall off s, length (weave off s l) = length s + markers_length l.
Proof.
  induction l as [|[i c] l IH]; intros off s; cbn [weave markers_length].
  - lia.
  - rewrite !length_app, IH.
    rewrite <- (firstn_skipn (offset_of c - off) s) at 3.
    rewrite length_app. lia.
Qed.

Lemma marker_length_pos (i : nat) : 0 < length (marker i).
Proof. unfold marker. cbn. lia. Qed.

(** X12: the content handed to the markdown renderer.  Only an assistant
    message with citations is annotated; its annotated content is the
    content with the marker of each indexed citation written at the offset
    of the citation, from left to right, so that it is longer than the
    content by the lengths of the markers, and it is the content itself
    exactly when no citation is valid. *)
Theorem annotated_content (r : role) (content : jsstring)
  (citations : list citation) :
  contentWithMarkers r content citations
  = match r with
    | role_assistant => weave 0 content (indexCitations content citations)
    | _ => content
    end
  /\ length (insertCitationMarkers content citations)
     = length content + markers_length (indexCitations content citations)
  /\ (insertCitationMarkers content citations = content
      <-> validCitations content citations = []).
Proof.
  assert (Hlen : length (insertCitationMarkers content citations)
                 = length content
                   + markers_length (indexCitations content citations)).
  { rewrite insertCitationMarkers_weave. apply weave_length. }
  split; [|split; [exact Hlen|]].
  - destruct r; try reflexivity.
    unfold contentWithMarkers.
    destruct citations as [|c citations]; [reflexivity|].
    apply insertCitationMarkers_weave.
  - split.
    + intros H. rewrite H in Hlen. unfold indexCitations in Hlen.
      destruct (validCitations content citations) as [|c l];
        [reflexivity|].
      cbn [enumerate_from markers_length] in Hlen.
      pose proof (marker_length_pos 0). lia.
    + intros H. rewrite insertCitationMarkers_weave.
      unfold indexCitations. rewrite H. reflexivity.
Qed.

(** ** The keys of the citation map *)

Lemma nzhead_not_zero (d x : Decimal.uint) :
  Decimal.nzhead d <> Decimal.D0 x.
Proof. induction d; cbn; try discriminate. exact IHd. Qed.

Lemma to_uint_no_leading_zero (n : nat) (d : Decimal.uint) :
  Nat.to_uint n = Decimal.D0 d -> d = Decimal.Nil.
Proof.
  intros H.
  assert (Hn : Decimal.unorm (Nat.to_uint n) = Nat.to_uint n).
  { rewrite <- (DecimalNat.Unsigned.of_to n) at 2.
    rewrite DecimalNat.Unsigned.to_of. reflexivity. }
  rewrite H in Hn. unfold Decimal.unorm in Hn. cbn [Decimal.nzhead] in Hn.
  destruct (Decimal.nzhead d) eqn:E; try discriminate.
  - injection Hn as Hn. auto.
  - exfalso. injection Hn as Hn. subst. apply (nzhead_not_zero _ _ E).
Qed.

Lemma string_of_nat_no_leading_zero (i : nat) (rest : jsstring) :
  string_of_nat i = cu_zero :: rest -> rest = [].
Proof.
  unfold string_of_nat, NilZero.string_of_uint.
  destruct (Nat.to_uint i) as [|d|d|d|d|d|d|d|d|d|d] eqn:E;
    cbn; intros H; try discriminate.
  - injection H as H. auto.
  - apply to_uint_no_leading_zero in E. subst d. cbn in H.
    injection H as H. auto.
Qed.

Lemma Map_get_entries_elim (l : list citation) (k : jsstring)
  (d : citation_data) :
  forall idx,
    Map_get (List.map map_entry (enumerate_from idx l)) k = Some d ->
    exists i, k = marker_key (idx + i)
              /\ nth_error l i = Some (data_citation d)
              /\ number d = idx + i + 1.
Proof.
  induction l as [|x l IH]; intros idx H; [discriminate|].
  cbn [enumerate_from List.map Map_get map_entry fst snd] in H.
  destruct (jsstring_eqb (marker_key idx) k) eqn:E.
  - apply jsstring_eqb_eq in E. injection H as <-. exists 0.
    rewrite Nat.add_0_r. auto.
  - destruct (IH (S idx) H) as (i & Hk & Hn & Hd). exists (S i).
    replace (idx + S i) with (S idx + i) by lia. auto.
Qed.

(** X13: the keys of the citation map.  A key has an entry exactly when it
    is the key of the index of a valid citation, written in decimal without
    leading zeros; the entry holds that citation and the index plus one.
    A key whose digits start with a zero followed by another digit has no
    entry. *)
Theorem citationMap_lookup (content : jsstring) (citations : list citation)
  (k : jsstring) (d : citation_data) :
  (Map_get (citationMap content citations) k = Some d
   <-> exists i, k = js "CITATION_" ++ string_of_nat i
                 /\ nth_error (validCitations content citations) i
                    = Some (data_citation d)
                 /\ number d = i + 1)
  /\ (forall c digits,
         Map_get (citationMap content citations)
           (js "CITATION_" ++ cu_zero :: c :: digits) = None).
Proof.
  rewrite citationMap_eq. unfold indexCitations. split.
  - split.
    + intros H. apply Map_get_entries_elim in H.
      destruct H as (i & Hk & Hn & Hd). exists i. auto.
    + intros (i & -> & Hn & Hd).
      change (js "CITATION_" ++ string_of_nat i) with (marker_key (0 + i)).
      rewrite (Map_get_entries _ 0 i _ Hn). destruct d as [n c].
      cbn [number data_citation] in *. subst n. reflexivity.
  - intros c digits. apply Map_get_entries_none. intros i _ E.
    unfold marker_key in E. apply app_inv_head in E. symmetry in E.
    apply string_of_nat_no_leading_zero in E. discriminate.
Qed.

(** ** The resolver on whole trees *)

Lemma node_induction (P : node -> Prop) :
  (forall s, P (NString s)) ->
  (forall tag children, Forall P children -> P (NElement tag children)) ->
  (forall items, Forall P items -> P (NArray items)) ->
  (forall parts, Forall P parts -> P (NFragment parts)) ->
  (forall k c, P (NInlineCitation k c)) ->
  P NOther ->
  forall n, P n.
Proof.
  intros Hs He Ha Hf Hc Ho.
  fix IH 1. intros n.
  assert (Hall : forall l, Forall P l).
  { fix IHl 1. intros [|x l]; [constructor|].
    constructor; [apply IH | apply IHl]. }
  destruct n.
  - apply Hs.
  - apply He, Hall.
  - apply Ha, Hall.
  - apply Hf, Hall.
  - apply Hc.
  - apply Ho.
Qed.

Lemma regex_exec_before_none (s b d a : jsstring) :
  regex_exec s = Some (b, d, a) -> regex_exec b = None.
Proof.
  revert b. induction s as [|c s IH]; intros b H.
  - cbn in H. discriminate.
  - pose proof (regex_exec_elim _ _ _ _ H) as (Hs & _).
    cbn [regex_exec] in H.
    destruct (match_marker (c :: s)) as [[d' a']|] eqn:Em.
    + injection H as <- <- <-. reflexivity.
    + destruct (regex_exec s) as [[[b' d'] a']|] eqn:Er; [|discriminate].
      injection H as <- <- <-.
      cbn [regex_exec].
      destruct (match_marker (c :: b')) as [[d2 r2]|] eqn:Em2.
      * apply (match_marker_more _ (marker_text d' ++ a')) in Em2.
        rewrite <- Hs in Em2. congruence.
      * rewrite (IH b' eq_refl). reflexivity.
Qed.

Lemma concat_map_ext {A B : Type} (f g : A -> list B) (l : list A) :
  Forall (fun x => f x = g x) l ->
  concat (List.map f l) = concat (List.map g l).
Proof.
  induction 1 as [|x l Hx Hl IH]; cbn; [reflexivity|].
  rewrite Hx, IH. reflexivity.
Qed.

Section ResolverOnTrees.

Variable m : list (jsstring * citation_data).

Lemma scan_node_strong (P : jsstring -> Prop) :
  (forall s,
      (forall b d a, regex_exec s = Some (b, d, a) -> P a) -> P s) ->
  forall s, P s.
Proof.
  intros Hstep s.
  remember (length s) as n eqn:En. revert s En.
  induction n as [n IH] using lt_wf_ind. intros s En.
  apply Hstep. intros b d a H.
  apply regex_exec_shorter in H. apply (IH (length a)); [lia | reflexivity].
Qed.

Lemma processNode_text (s : jsstring) :
  regex_exec s = None ->
  processNodeForCitations m (NString s) = NString s.
Proof.
  intros H. rewrite processNode_string, scan_node_eq, H.
  destruct s; reflexivity.
Qed.

Lemma processNode_literal (d : jsstring) :
  d <> [] -> forallb is_digit d = true ->
  Map_get m (js "CITATION_" ++ d) = None ->
  processNodeForCitations m (NString (marker_text d))
  = NString (marker_text d).
Proof.
  intros Hne Hd Hm. rewrite processNode_string, scan_node_eq.
  pose proof (regex_exec_marker d [] Hne Hd) as H.
  rewrite app_nil_r in H. rewrite H, Hm.
  rewrite scan_node_eq. reflexivity.
Qed.

(** Every part of a scan is left as it is by the resolver. *)
Lemma scan_node_parts_fixed (s : jsstring) :
  Forall (fun p => processNodeForCitations m p = p) (scan_node m s).
Proof.
  revert s. apply scan_node_strong. intros s IH.
  rewrite scan_node_eq.
  destruct (regex_exec s) as [[[b d] a]|] eqn:E.
  - specialize (IH b d a eq_refl).
    pose proof (regex_exec_before_none _ _ _ _ E) as Hb.
    pose proof (regex_exec_elim _ _ _ _ E) as (_ & Hne & Hd).
    apply Forall_app. split.
    + destruct b; [constructor|]. cbn [text_part].
      constructor; [|constructor]. apply processNode_text. exact Hb.
    + constructor; [|exact IH].
      destruct (Map_get m (js "CITATION_" ++ d)) eqn:Em; [reflexivity|].
      apply processNode_literal; assumption.
  - destruct s; [constructor|]. cbn [text_part].
    constructor; [|constructor]. apply processNode_text. exact E.
Qed.

Lemma rendered_parts (parts : list node) :
  Forall (fun p => processNodeForCitations m p = p) parts ->
  List.map (processNodeForCitations m) parts = parts.
Proof.
  induction 1 as [|x l Hx Hl IH]; cbn; [reflexivity|].
  rewrite Hx, IH. reflexivity.
Qed.

Lemma processNode_twice_string (s : jsstring) :
  processNodeForCitations m (processNodeForCitations m (NString s))
  = processNodeForCitations m (NString s).
Proof.
  rewrite (processNode_string m s).
  destruct (1 <? length (scan_node m s)) eqn:E.
  - cbn [processNodeForCitations].
    rewrite (rendered_parts _ (scan_node_parts_fixed s)). reflexivity.
  - rewrite processNode_string, E. reflexivity.
Qed.

End ResolverOnTrees.

(** X14: the resolver may run twice over the same nodes, as it does when a
    component that resolves its children is nested in another one.  A
    second run shows what the first run shows; on a string node, and on
    every tree without an array, the second run returns the result of the
    first. *)
Theorem resolver_twice (m : list (jsstring * citation_data)) (n : node) :
  rendered (processNodeForCitations m (processNodeForCitations m n))
  = rendered (processNodeForCitations m n)
  /\ (forall s,
         processNodeForCitations m (processNodeForCitations m (NString s))
         = processNodeForCitations m (NString s)).
Proof.
  split; [|apply processNode_twice_string].
  induction n as [s|tag children IH|items IH|parts IH|k c|]
    using node_induction.
  - rewrite processNode_twice_string. reflexivity.
  - cbn [processNodeForCitations rendered]. rewrite !map_map.
    f_equal. f_equal. apply concat_map_ext. exact IH.
  - cbn [processNodeForCitations rendered]. rewrite !map_map.
    apply concat_map_ext.
    eapply Forall_impl; [|exact IH]. cbn beta. intros x Hx.
    cbn [processNodeForCitations rendered List.map concat].
    rewrite !app_nil_r. exact Hx.
  - cbn [processNodeForCitations rendered]. rewrite !map_map.
    apply concat_map_ext. exact IH.
  - reflexivity.
  - reflexivity.
Qed.

Lemma scan_node_source (content : jsstring) (citations : list citation)
  (s : jsstring) :
  concat (List.map node_source
            (scan_node (citationMap content citations) s)) = s.
Proof.
  revert s. apply scan_node_strong. intros s IH.
  rewrite scan_node_eq.
  destruct (regex_exec s) as [[[b d] a]|] eqn:E.
  - specialize (IH b d a eq_refl).
    pose proof (regex_exec_elim _ _ _ _ E) as (Hs & Hne & Hd).
    rewrite map_app, concat_app. cbn [List.map concat]. rewrite IH.
    assert (Hb : concat (List.map node_source (text_part b)) = b).
    { destruct b; [reflexivity|]. cbn. rewrite app_nil_r. reflexivity. }
    rewrite Hb.
    assert (Hm : node_source
                   match Map_get (citationMap content citations)
                           (js "CITATION_" ++ d) with
                   | Some citationData =>
                       NInlineCitation (number citationData)
                         (data_citation citationData)
                   | None => NString (marker_text d)
                   end = marker_text d).
    { destruct (Map_get (citationMap content citations)
                  (js "CITATION_" ++ d)) as [cd|] eqn:Em; [|reflexivity].
      rewrite citationMap_eq in Em. unfold indexCitations in Em.
      apply Map_get_entries_elim in Em.
      destruct Em as (i & Hk & _ & Hnum).
      unfold marker_key in Hk. apply app_inv_head in Hk.
      cbn [node_source]. rewrite Hnum, Hk.
      replace (0 + i + 1 - 1) with i by lia. reflexivity. }
    rewrite Hm. symmetry. exact Hs.
  - destruct s; [reflexivity|]. cbn. rewrite app_nil_r. reflexivity.
Qed.

(** X15: the resolver loses no text.  With the citation map of a message,
    for every tree of nodes, the resolved tree stands for the same text as
    the tree, once each citation reference is written back as the marker
    of its number minus one: every character outside a resolved marker is
    kept, in its place, whatever the content of the strings is. *)
Theorem resolver_keeps_text (content : jsstring) (citations : list citation)
  (n : node) :
  node_source (processNodeForCitations (citationMap content citations) n)
  = node_source n.
Proof.
  induction n as [s|tag children IH|items IH|parts IH|k c|]
    using node_induction.
  - rewrite processNode_string.
    destruct (1 <? length (scan_node (citationMap content citations) s));
      [|reflexivity].
    cbn [node_source]. apply scan_node_source.
  - cbn [processNodeForCitations node_source]. rewrite map_map.
    apply concat_map_ext. exact IH.
  - cbn [processNodeForCitations node_source]. rewrite map_map.
    apply concat_map_ext.
    eapply Forall_impl; [|exact IH]. cbn beta. intros x Hx.
    cbn [node_source List.map concat]. rewrite app_nil_r. exact Hx.
  - cbn [processNodeForCitations node_source]. rewrite map_map.
    apply concat_map_ext. exact IH.
  - reflexivity.
  - reflexivity.
Qed.

(** ** The citation reference: tooltip and click *)



Lemma has_file_false (ref : reference) : has_file ref = false <-> no_file ref.
Proof.
  unfold has_file, no_file, nullable_truthy, string_truthy.
  destruct (signed_url (ref_file ref)) as [[|c u]|],
           (file_id (ref_file ref)) as [|c' i]; cbn; split;
    try discriminate; try tauto; intros [H1 H2];
    try discriminate; destruct H2; discriminate.
Qed.

Lemma find_first {A : Type} (f : A -> bool) (before after : list A) (x : A) :
  Forall (fun y => f y = false) before -> f x = true ->
  find f (before ++ x :: after) = Some x.
Proof.
  induction 1 as [|y l Hy Hl IH]; intros Hx; cbn.
  - rewrite Hx. reflexivity.
  - rewrite Hy. apply IH. exact Hx.
Qed.

(** X17: a click on a citation reference acts on the first reference that
    has a file, whatever the references after it are.  When that reference
    has a file identifier, the click downloads the file through the server,
    also when the reference has a signed link; only without an identifier
    does the click open the signed link. *)
Theorem click_first_file (c : citation) (before after : list reference)
  (ref : reference) :
  references c = before ++ ref :: after ->
  Forall no_file before ->
  ~ no_file ref ->
  onClick c <> NoAction
  /\ (file_id (ref_file ref) <> [] ->
      onClick c = DownloadThroughProxy (download_href (file_id (ref_file ref))))
  /\ (file_id (ref_file ref) = [] ->
      exists url, signed_url (ref_file ref) = Some url /\ url <> []
                  /\ onClick c = OpenWindow url).
Proof.
  intros Hr Hb Hf.
  assert (Hfind : find has_file (references c) = Some ref).
  { rewrite Hr. apply find_first.
    - eapply Forall_impl; [|exact Hb]. intros y. apply has_file_false.
    - destruct (has_file ref) eqn:E; [reflexivity|].
      apply has_file_false in E. contradiction. }
  unfold onClick. rewrite Hfind. unfold handleFileClick, download_href.
  unfold no_file in Hf.
  destruct (file_id (ref_file ref)) as [|x id].
  - destruct (signed_url (ref_file ref)) as [[|y url]|].
    + exfalso. apply Hf. auto.
    + split; [discriminate|]. split; [intros H; contradiction|].
      intros _. exists (y :: url). split; [reflexivity|].
      split; [discriminate | reflexivity].
    + exfalso. apply Hf. auto.
  - split; [discriminate|]. split; [reflexivity|]. discriminate.
Qed.

Lemma click_first_file_witness :
  let first :=
    {| ref_file := {| file_id := js "f1"; file_name := js "a.pdf";
                      signed_url := Some (js "https://files/a") |};
       pages := []; highlight := None |} in
  let empty :=
    {| ref_file := {| file_id := []; file_name := js "b.pdf";
                      signed_url := None |};
       pages := []; highlight := None |} in
  onClick {| position := 0; references := [empty; first; empty] |}
  = DownloadThroughProxy (js "/api/files/f1/download-file").
Proof.
  cbv zeta.
  refine (proj1 (proj2
    (click_first_file
       {| position := 0;
          references :=
            [ {| ref_file := {| file_id := []; file_name := js "b.pdf";
                                signed_url := None |};
                 pages := []; highlight := None |};
              {| ref_file := {| file_id := js "f1"; file_name := js "a.pdf";
                                signed_url := Some (js "https://files/a") |};
                 pages := []; highlight := None |};
              {| ref_file := {| file_id := []; file_name := js "b.pdf";
                                signed_url := None |};
                 pages := []; highlight := None |} ] |}
       [ {| ref_file := {| file_id := []; file_name := js "b.pdf";
                           signed_url := None |};
            pages := []; highlight := None |} ]
       [ {| ref_file := {| file_id := []; file_name := js "b.pdf";
                           signed_url := None |};
            pages := []; highlight := None |} ]
       {| ref_file := {| file_id := js "f1"; file_name := js "a.pdf";
                         signed_url := Some (js "https://files/a") |};
          pages := []; highlight := None |}
       eq_refl _ _)) _).
  - constructor; [|constructor]. split; [reflexivity | left; reflexivity].
  - intros [H _]. discriminate H.
  - discriminate.
Defined.

(** X18: a click does nothing exactly when no reference of the citation
    has a file.  The tooltip announces the download only when a click does
    something: the hint is shown when some reference has a signed link, and
    then the click downloads or opens a file. *)
Theorem click_nothing (c : citation) :
  (onClick c = NoAction <-> Forall no_file (references c))
  /\ (download_hint (tooltipContent c) = true -> onClick c <> NoAction).
Proof.
  assert (Hiff : onClick c = NoAction <-> Forall no_file (references c)).
  { unfold onClick.
    destruct (find has_file (references c)) as [ref|] eqn:E.
    - apply find_some in E. destruct E as [Hin Hf]. split.
      + intros H. exfalso. unfold handleFileClick, has_file in *.
        unfold nullable_truthy, string_truthy in Hf.
        destruct (file_id (ref_file ref)) as [|x id]; [|discriminate].
        destruct (signed_url (ref_file ref)) as [[|y url]|];
          discriminate.
      + intros H. exfalso. rewrite Forall_forall in H.
        apply H in Hin. apply has_file_false in Hin. congruence.
    - split; [|reflexivity]. intros _. apply Forall_forall.
      intros ref Hin. apply has_file_false.
      apply (find_none _ _ E ref Hin). }
  split; [exact Hiff|].
  intros Hhint Hno. apply Hiff in Hno. cbn [tooltipContent download_hint] in Hhint.
  apply existsb_exists in Hhint. destruct Hhint as (ref & Hin & Ht).
  rewrite Forall_forall in Hno. destruct (Hno ref Hin) as [_ [H|H]];
    rewrite H in Ht; discriminate.
Qed.

(** ** The components of the markdown renderer *)

(** X19: markers in code.  The component of [code] renders its children
    as they are, so a marker in a code element at the top is left as text.
    A component that resolves its children resolves all their descendants:
    it hands to a code element inside it children whose markers are
    already replaced, and the component of [code] renders those. *)
Theorem code_inside_component (m : list (jsstring * citation_data))
  (tag s : jsstring) :
  is_processed_tag tag = true ->
  1 < length (scan_node m s) ->
  customComponent m (js "code") [NString s] = NElement (js "code") [NString s]
  /\ customComponent m (js "pre") [NString s] = NElement (js "pre") [NString s]
  /\ customComponent m tag [NElement (js "code") [NString s]]
     = NElement tag [NElement (js "code") [NFragment (scan_node m s)]]
  /\ customComponent m (js "code") [NFragment (scan_node m s)]
     = NElement (js "code") [NFragment (scan_node m s)].
Proof.
  intros Ht Hs. apply Nat.ltb_lt in Hs.
  split; [reflexivity|]. split; [reflexivity|]. split; [|reflexivity].
  unfold customComponent. rewrite Ht.
  cbn [List.map processNodeForCitations].
  change (scan_parts (S (length s)) m s) with (scan_node m s).
  rewrite Hs. reflexivity.
Qed.

Lemma code_inside_component_witness :
  let c := cite_at 1 "a" in
  let m := citationMap (js "x = 1") [c] in
  customComponent m (js "li")
    [NElement (js "code") [NString (js "x[CITATION_0] = 1")]]
  = NElement (js "li")
      [NElement (js "code")
         [NFragment [NString (js "x"); NInlineCitation 1 c;
                     NString (js " = 1")]]].
Proof.
  cbv zeta.
  refine (proj1 (proj2 (proj2
    (code_inside_component (citationMap (js "x = 1") [cite_at 1 "a"])
       (js "li") (js "x[CITATION_0] = 1") _ _)))).
  - reflexivity.
  - vm_compute. lia.
Defined.
